(** * MIND scene-prediction network: forward computation

    A shallow embedding of [planners/mind/networks/network.py].

    The source is read five times:
    - [Shape]: every tensor is abstracted to its shape and every torch
      call to the shape it returns or the exception it raises.  All
      classes of the file are embedded this way, line by line.
    - [Num]: the arithmetic that the decoder performs on the output of
      its regression and classification heads (basis matrices, matrix
      products, differences, softmax, exponentiation), over the reals.
    - [Classification]: the path from the context of a scene to its mode
      probabilities, on values, with the learned modules left abstract.
    - [Rows]: the loops over the scenes of a batch, on tensors given as
      lists of rows, with the learned modules left abstract.
    - [Points]: the lane encoder on the points of the lane segments,
      with the max-pool written out and the per-point layers left
      abstract.
    The relational fusion layer is written once over an abstract tensor
    type ([RelaFusion]); the shape embedding is an instance of it. *)

From Stdlib Require Import String.
From Stdlib Require Import List Permutation Arith Bool ZArith Lia.
From Stdlib Require Import Reals Lra.
Import ListNotations.

Set Implicit Arguments.

(** ** Exceptions

    A call either returns a value or raises one of the Python exception
    classes that the modelled code can meet. *)

Inductive exn : Type :=
| RuntimeError
| AttributeError
| IndexError
| AssertionError
| NotImplementedError.

Inductive res (A : Type) : Type :=
| Ok (a : A)
| Raise (e : exn).

Arguments Ok {A} a.
Arguments Raise {A} e.

Definition bind {A B : Type} (c : res A) (k : A -> res B) : res B :=
  match c with
  | Ok a => k a
  | Raise e => Raise e
  end.

Declare Scope res_scope.
Delimit Scope res_scope with res.
Notation "x <- c ;; k" := (bind c (fun x => k))
  (at level 61, c at next level, right associativity) : res_scope.
Notation "' pat <- c ;; k" := (bind c (fun x => match x with pat => k end))
  (at level 61, pat pattern, c at next level, right associativity) : res_scope.
Notation "c ;;; k" := (bind c (fun _ => k))
  (at level 61, right associativity) : res_scope.
Open Scope res_scope.

Definition assert (b : bool) (e : exn) : res unit :=
  if b then Ok tt else Raise e.

Fixpoint mapM {A B : Type} (f : A -> res B) (l : list A) : res (list B) :=
  match l with
  | [] => Ok []
  | a :: l' => b <- f a ;; bs <- mapM f l' ;; Ok (b :: bs)
  end.

Fixpoint foldM {A B : Type} (f : B -> A -> res B) (l : list A) (b : B) : res B :=
  match l with
  | [] => Ok b
  | a :: l' => b' <- f b a ;; foldM f l' b'
  end.

Definition is_ok {A : Type} (c : res A) : bool :=
  match c with Ok _ => true | Raise _ => false end.

(** ** The relational fusion layer, over any tensor type

    [RelaFusionLayer] and [RelaFusionNet] only combine their learned
    sub-modules with a handful of torch calls; they are written here for
    an arbitrary carrier [T] of tensors.  [Torch] lists the torch calls,
    a [RelaFusionLayer] record holds what [__init__] stores in [self]. *)

Section RelaFusion.

Variable T : Type.

Record Torch : Type := {
  t_shape0 : T -> res nat;               (* t.shape[0] *)
  t_unsqueeze : nat -> T -> res T;       (* t.unsqueeze(dim) *)
  t_repeat : list nat -> T -> res T;     (* t.repeat(reps) *)
  t_cat : list T -> Z -> res T;          (* torch.cat(ts, dim) *)
  t_add : T -> T -> res T;               (* a + b *)
  t_squeeze : T -> T                     (* t.squeeze() *)
}.

Variable torch : Torch.

Record RelaFusionLayer : Type := {
  update_edge : bool;
  proj_memory : T -> res T;
  proj_edge : T -> res T;
  norm_edge : T -> res T;
  multihead_attn : T -> T -> T -> res T;
  linear1 : T -> res T;
  linear2 : T -> res T;
  activation : T -> res T;
  norm2 : T -> res T;
  norm3 : T -> res T
}.

(** [RelaFusionLayer._build_memory]. *)
Definition _build_memory (self : RelaFusionLayer) (node edge : T) : res (T * T * T) :=
  n_token <- t_shape0 torch node ;;
  src_x <- (u <- t_unsqueeze torch 0 node ;; t_repeat torch [n_token; 1; 1] u) ;;
  tar_x <- (u <- t_unsqueeze torch 1 node ;; t_repeat torch [1; n_token; 1] u) ;;
  memory <- (c <- t_cat torch [edge; src_x; tar_x] (-1) ;; proj_memory self c) ;;
  edge <- (if update_edge self
           then p <- proj_edge self memory ;;
                e <- t_add torch edge p ;;
                norm_edge self e
           else Ok edge) ;;
  x <- t_unsqueeze torch 0 node ;;
  Ok (x, edge, memory).

(** [RelaFusionLayer._mha_block]; dropout is the identity in evaluation
    mode and has no effect on shapes. *)
Definition _mha_block (self : RelaFusionLayer) (x mem : T) : res T :=
  multihead_attn self x mem mem.

(** [RelaFusionLayer._ff_block]. *)
Definition _ff_block (self : RelaFusionLayer) (x : T) : res T :=
  h <- linear1 self x ;; h <- activation self h ;; linear2 self h.

(** [RelaFusionLayer.forward] returns [(x, edge, None)]. *)
Definition RelaFusionLayer_forward (self : RelaFusionLayer) (node edge : T)
  : res (T * T) :=
  '(x, edge, memory) <- _build_memory self node edge ;;
  x_prime <- _mha_block self x memory ;;
  x <- (s <- t_add torch x x_prime ;; n <- norm2 self s ;; Ok (t_squeeze torch n)) ;;
  x <- (f <- _ff_block self x ;; s <- t_add torch x f ;; norm3 self s) ;;
  Ok (x, edge).

(** The flag computed in the loop of [RelaFusionNet.__init__]. *)
Definition need_update_edge (n_layer i : nat) (update_edge : bool) : bool :=
  if (Z.of_nat i =? Z.of_nat n_layer - 1)%Z then false else update_edge.

(** [RelaFusionNet.__init__]: [mk i flag] stands for the call
    [RelaFusionLayer(..., update_edge=flag)] of iteration [i]. *)
Definition RelaFusionNet_init (mk : nat -> bool -> RelaFusionLayer)
  (n_layer : nat) (update_edge : bool) : list RelaFusionLayer :=
  map (fun i => mk i (need_update_edge n_layer i update_edge)) (seq 0 n_layer).

(** [RelaFusionNet.forward] returns [(x, None)]; the edge tensor is threaded
    through the layers and dropped at the end. *)
Definition RelaFusionNet_forward (fusion : list RelaFusionLayer) (x edge : T)
  : res T :=
  '(x, _) <- foldM (fun '(x, edge) mod_ => RelaFusionLayer_forward mod_ x edge)
                   fusion (x, edge) ;;
  Ok x.

End RelaFusion.

(** ** Shapes of tensors and the torch operations on them *)

Module Shape.

Definition shape := list nat.

Definition numel (s : shape) : nat := fold_right Nat.mul 1 s.

Fixpoint shape_eqb (a b : shape) : bool :=
  match a, b with
  | [], [] => true
  | x :: a', y :: b' => (x =? y) && shape_eqb a' b'
  | _, _ => false
  end.

(** A dimension argument as Python writes it: [-1] is the last one. *)
Definition norm_dim (rank : nat) (d : Z) : res nat :=
  if ((0 <=? d) && (d <? Z.of_nat rank))%Z then Ok (Z.to_nat d)
  else if ((d <? 0) && (- Z.of_nat rank <=? d))%Z
       then Ok (Z.to_nat (Z.of_nat rank + d))
       else Raise IndexError.

(** Apply [f] to the size of the last dimension; a 0-dimensional tensor
    has none. *)
Fixpoint on_last (f : nat -> res nat) (s : shape) : res shape :=
  match s with
  | [] => Raise RuntimeError
  | [d] => d' <- f d ;; Ok [d']
  | d :: r => r' <- on_last f r ;; Ok (d :: r')
  end.

(** [nn.Linear(n_in, n_out)]: input [( *, n_in)], output [( *, n_out)]. *)
Definition Linear (n_in n_out : nat) (s : shape) : res shape :=
  on_last (fun d => if d =? n_in then Ok n_out else Raise RuntimeError) s.

(** [nn.LayerNorm(d)] normalises over a last dimension of size [d]. *)
Definition LayerNorm (d : nat) (s : shape) : res shape :=
  on_last (fun d' => if d' =? d then Ok d' else Raise RuntimeError) s.

Definition ReLU (s : shape) : res shape := Ok s.

(** [nn.Sequential(Linear, LayerNorm, ReLU)], the projection block used
    throughout the file. *)
Definition proj_block (n_in n_out : nat) (s : shape) : res shape :=
  x <- Linear n_in n_out s ;; x <- LayerNorm n_out x ;; ReLU x.

(** Two such blocks in sequence. *)
Definition mlp2 (n_in n_mid n_out : nat) (s : shape) : res shape :=
  x <- proj_block n_in n_mid s ;; proj_block n_mid n_out x.

(** Two blocks followed by a final [Linear]: the classification and
    regression heads. *)
Definition head (n_hidden n_out : nat) (s : shape) : res shape :=
  x <- mlp2 n_hidden n_hidden n_hidden s ;; Linear n_hidden n_out x.

Fixpoint nodupb (l : list nat) : bool :=
  match l with
  | [] => true
  | d :: r => negb (existsb (Nat.eqb d) r) && nodupb r
  end.

(** [t.permute( *dims)]. *)
Definition permute (dims : list nat) (s : shape) : res shape :=
  assert (length dims =? length s) RuntimeError ;;;
  assert (forallb (fun d => d <? length s) dims) IndexError ;;;
  assert (nodupb dims) RuntimeError ;;;
  Ok (map (fun d => nth d s 0) dims).

(** [t.unsqueeze(dim)] for [0 <= dim]. *)
Definition unsqueeze (dim : nat) (s : shape) : res shape :=
  if dim <=? length s then Ok (firstn dim s ++ 1 :: skipn dim s)
  else Raise IndexError.

(** [t.squeeze()] drops every dimension of size 1. *)
Definition squeeze (s : shape) : shape :=
  filter (fun d => negb (d =? 1)) s.

(** [t.repeat(reps)]: at least as many repeat counts as dimensions, the
    shape is padded with leading ones. *)
Definition repeat_ (reps : list nat) (s : shape) : res shape :=
  if length s <=? length reps
  then Ok (map (fun p => fst p * snd p)
               (combine reps (List.repeat 1 (length reps - length s) ++ s)))
  else Raise RuntimeError.

Fixpoint replace_nth (n : nat) (v : nat) (s : shape) : shape :=
  match s, n with
  | [], _ => []
  | _ :: r, 0 => v :: r
  | d :: r, S n' => d :: replace_nth n' v r
  end.

(** [torch.cat(ts, dim)].  Tensors of shape [(0,)] are skipped (legacy
    behaviour kept by torch); the others must have one rank and agree
    outside [dim].  An empty list is refused; which exception class torch
    uses for it depends on its version ([RuntimeError] or [ValueError]),
    and nothing below relies on the class written here. *)
Definition cat (ts : list shape) (dim : Z) : res shape :=
  match filter (fun s => negb (shape_eqb s [0])) ts with
  | [] => match ts with [] => Raise RuntimeError | _ => Ok [0] end
  | s0 :: rest =>
      d <- norm_dim (length s0) dim ;;
      assert (forallb (fun s => shape_eqb (replace_nth d 0 s) (replace_nth d 0 s0)) rest)
             RuntimeError ;;;
      Ok (replace_nth d (fold_right (fun s acc => nth d s 0 + acc) 0 (s0 :: rest)) s0)
  end.

(** Broadcasting of two shapes, aligned on the right. *)
Fixpoint broadcast_rev (a b : shape) : res shape :=
  match a, b with
  | [], _ => Ok b
  | _, [] => Ok a
  | x :: a', y :: b' =>
      r <- broadcast_rev a' b' ;;
      if x =? y then Ok (x :: r)
      else if x =? 1 then Ok (y :: r)
      else if y =? 1 then Ok (x :: r)
      else Raise RuntimeError
  end.

Definition broadcast (a b : shape) : res shape :=
  r <- broadcast_rev (rev a) (rev b) ;; Ok (rev r).

(** [a + b]. *)
Definition add (a b : shape) : res shape := broadcast a b.

(** [a += b] and [a[...] = b]: [b] must broadcast to the shape of [a]. *)
Definition add_ (a b : shape) : res shape :=
  r <- broadcast a b ;;
  assert (shape_eqb r a) RuntimeError ;;; Ok a.

(** [t.view( *dims)]: [None] stands for [-1], which may occur once and
    is inferred from the number of elements. *)
Definition known_numel (dims : list (option nat)) : nat :=
  fold_right (fun d acc => match d with Some n => n * acc | None => acc end) 1 dims.

Definition count_infer (dims : list (option nat)) : nat :=
  length (filter (fun d => match d with None => true | Some _ => false end) dims).

Definition view (dims : list (option nat)) (s : shape) : res shape :=
  let known := known_numel dims in
  match count_infer dims with
  | 0 => assert (known =? numel s) RuntimeError ;;;
         Ok (map (fun d => match d with Some n => n | None => 0 end) dims)
  | 1 => assert (negb (known =? 0)) RuntimeError ;;;
         assert (numel s mod known =? 0) RuntimeError ;;;
         Ok (map (fun d => match d with Some n => n | None => numel s / known end) dims)
  | _ => Raise RuntimeError
  end.

(** Python slice bounds on a dimension of size [d]: negative bounds count
    from the end, everything is clamped to [0, d]. *)
Definition clamp_bound (d : nat) (b : Z) : nat :=
  let b' := if (b <? 0)%Z then (b + Z.of_nat d)%Z else b in
  Z.to_nat (Z.min (Z.max b' 0) (Z.of_nat d)).

Definition slice_len (d : nat) (lo hi : option Z) : nat :=
  let l := match lo with Some b => clamp_bound d b | None => 0 end in
  let h := match hi with Some b => clamp_bound d b | None => d end in
  h - l.

(** [t[lo:hi]] on dimension [dim] (the other dimensions taken whole). *)
Definition slice (dim : Z) (lo hi : option Z) (s : shape) : res shape :=
  d <- norm_dim (length s) dim ;;
  Ok (replace_nth d (slice_len (nth d s 0) lo hi) s).

Fixpoint remove_nth (n : nat) (s : shape) : shape :=
  match s, n with
  | [], _ => []
  | _ :: r, 0 => r
  | d :: r, S n' => d :: remove_nth n' r
  end.

(** [t[..., i, ...]] with an integer [i] on dimension [dim]. *)
Definition select (dim : Z) (i : Z) (s : shape) : res shape :=
  d <- norm_dim (length s) dim ;;
  _ <- norm_dim (nth d s 0) i ;;
  Ok (remove_nth d s).

(** [t[idcs]] with a tensor (or list) of row indices. *)
Definition index (idcs : list nat) (s : shape) : res shape :=
  match s with
  | [] => Raise IndexError
  | d :: r => assert (forallb (fun i => i <? d) idcs) IndexError ;;;
              Ok (length idcs :: r)
  end.

(** [torch.matmul(a, b)] with a 2-D [a] and a [b] of at least two
    dimensions (the only use in the file): the product is taken over the
    last two dimensions of [b], its leading ones are batch dimensions. *)
Fixpoint matmul_rows (m k : nat) (b : shape) : res shape :=
  match b with
  | [k'; p] => assert (k =? k') RuntimeError ;;; Ok [m; p]
  | d :: r => r' <- matmul_rows m k r ;; Ok (d :: r')
  | [] => Raise RuntimeError
  end.

Definition matmul (a b : shape) : res shape :=
  match a with
  | [m; k] => matmul_rows m k b
  | _ => Raise RuntimeError
  end.

(** [torch.diff(t, dim=dim)]. *)
Definition diff (dim : Z) (s : shape) : res shape :=
  d <- norm_dim (length s) dim ;;
  Ok (replace_nth d (nth d s 0 - 1) s).

(** [torch.gradient(t, dim=dim)[0]]: central differences need at least
    two samples along [dim]. *)
Definition gradient (dim : Z) (s : shape) : res shape :=
  d <- norm_dim (length s) dim ;;
  assert (2 <=? nth d s 0) RuntimeError ;;; Ok s.

(** [F.adaptive_max_pool1d(t, 1)] on [(N, C, L)] (or [(C, L)]). *)
Definition adaptive_max_pool1d_1 (s : shape) : res shape :=
  match s with
  | [n; c; l] => assert (negb (l =? 0)) RuntimeError ;;; Ok [n; c; 1]
  | [c; l] => assert (negb (l =? 0)) RuntimeError ;;; Ok [c; 1]
  | _ => Raise RuntimeError
  end.

(** [F.interpolate(t, scale_factor=2, mode="linear")] on [(N, C, L)]. *)
Definition interpolate2 (s : shape) : res shape :=
  match s with
  | [n; c; l] => Ok [n; c; 2 * l]
  | _ => Raise RuntimeError
  end.

(** [nn.MultiheadAttention(embed_dim, num_heads)] with
    [batch_first=False], called as [attn(q, k, v)] without masks:
    [(L, N, E), (S, N, E), (S, N, E) -> (L, N, E)], or unbatched
    [(L, E), (S, E), (S, E) -> (L, E)].  The constructor refuses an
    [embed_dim] that is not a multiple of [num_heads] with an assertion;
    for a size that is not positive the class of the exception depends on
    the version of torch, and nothing below relies on it. *)
Definition MultiheadAttention_init (embed_dim num_heads : nat) : res unit :=
  assert ((0 <? embed_dim) && (0 <? num_heads)) AssertionError ;;;
  assert (embed_dim mod num_heads =? 0) AssertionError.

Definition MultiheadAttention (embed_dim : nat) (q k v : shape) : res shape :=
  match q, k, v with
  | [l; n; e], [s; n'; e'], [s''; n''; e''] =>
      assert ((e =? embed_dim) && (e' =? embed_dim) && (e'' =? embed_dim)) RuntimeError ;;;
      assert ((n =? n') && (n' =? n'') && (s =? s'')) RuntimeError ;;;
      Ok [l; n; e]
  | [l; e], [s; e'], [s''; e''] =>
      assert ((e =? embed_dim) && (e' =? embed_dim) && (e'' =? embed_dim)) RuntimeError ;;;
      assert (s =? s'') RuntimeError ;;;
      Ok [l; e]
  | _, _, _ => Raise RuntimeError
  end.

(** [nn.TransformerEncoder(TransformerEncoderLayer(d_model, nhead, d_ff),
    num_layers)] with [batch_first=False]: self-attention and a
    feed-forward block per layer, the shape [(S, N, d_model)] is kept. *)
Definition TransformerEncoderLayer (d_model : nat) (s : shape) : res shape :=
  a <- MultiheadAttention d_model s s s ;;
  x <- add s a ;;
  x <- LayerNorm d_model x ;;
  f <- (y <- Linear d_model (d_model * 12) x ;; Linear (d_model * 12) d_model y) ;;
  x <- add x f ;;
  LayerNorm d_model x.

Definition TransformerEncoder (d_model num_layers : nat) (s : shape) : res shape :=
  foldM (fun x _ => TransformerEncoderLayer d_model x) (seq 0 num_layers) s.

(** *** The classes of [network.py] on shapes *)

(** Modelled from the spec: the output length of the convolution blocks
    [Res1d] and [Conv1d] of [planners/mind/networks/layers.py], which is
    not among the sources at hand.  A block of stride 1 keeps the temporal
    length, a block of stride 2 halves it (rounding up, as a kernel of
    size 3 with padding 1 does). *)
Definition conv_len (stride t : nat) : nat := (t + stride - 1) / stride.

(** Modelled from the spec: [Res1d] and [Conv1d] are 1-D convolution
    blocks on [(A, C, T)] with group normalisation; they change the
    channel count from [n_in] to [n_out] and the temporal length according
    to their stride. *)
Definition Res1d (n_in n_out stride : nat) (s : shape) : res shape :=
  match s with
  | [a; c; t] => assert (c =? n_in) RuntimeError ;;; Ok [a; n_out; conv_len stride t]
  | _ => Raise RuntimeError
  end.

Definition Conv1d (n_in n_out : nat) (s : shape) : res shape :=
  match s with
  | [a; c; t] => assert (c =? n_in) RuntimeError ;;; Ok [a; n_out; conv_len 1 t]
  | _ => Raise RuntimeError
  end.

(** [ActorNet.__init__]: channel widths of the pyramid. *)
Definition n_out (n_fpn_scale : nat) : list nat :=
  map (fun s => 2 ^ (5 + s)) (seq 0 n_fpn_scale).

(** One [nn.Sequential] group: a block that changes width (with stride 2
    past the first group) and [num_blocks[i] - 1 = 1] further block. *)
Definition group (i n_in n_o : nat) (s : shape) : res shape :=
  x <- Res1d n_in n_o (if i =? 0 then 1 else 2) s ;; Res1d n_o n_o 1 x.

Fixpoint run_groups (i n_in : nat) (n_outs : list nat) (out : shape)
  : res (list shape) :=
  match n_outs with
  | [] => Ok []
  | o :: r => out' <- group i n_in o out ;;
              rest <- run_groups (S i) o r out' ;;
              Ok (out' :: rest)
  end.

(** [ActorNet.forward]. *)
Definition ActorNet_forward (n_in hidden_size n_fpn_scale : nat) (actors : shape)
  : res shape :=
  let widths := n_out n_fpn_scale in
  outputs <- run_groups 0 n_in widths actors ;;
  match rev (combine widths outputs) with
  | [] => Raise IndexError                       (* outputs[-1] *)
  | (w_last, o_last) :: finer =>
      out <- Conv1d w_last hidden_size o_last ;;
      out <- foldM (fun out '(w, o) =>
                      up <- interpolate2 out ;;
                      l <- Conv1d w hidden_size o ;;
                      add_ up l) finer out ;;
      out <- Res1d hidden_size hidden_size 1 out ;;
      select 2 (-1) out
  end.

(** [PointAggregateBlock._global_maxpool_aggre]. *)
Definition _global_maxpool_aggre (feat : shape) : res shape :=
  x <- permute [0; 2; 1] feat ;;
  x <- adaptive_max_pool1d_1 x ;;
  permute [0; 2; 1] x.

(** [PointAggregateBlock.forward]. *)
Definition PointAggregateBlock_forward (hidden_size : nat) (aggre_out : bool)
  (x_inp : shape) : res shape :=
  x <- mlp2 hidden_size hidden_size hidden_size x_inp ;;
  x_aggre <- _global_maxpool_aggre x ;;
  x_aggre <- (r <- repeat_ [1; nth 1 x 0; 1] x_aggre ;; cat [x; r] (-1)) ;;
  out <- (f <- mlp2 (hidden_size * 2) hidden_size hidden_size x_aggre ;;
          s <- add x_inp f ;;
          LayerNorm hidden_size s) ;;
  if aggre_out
  then p <- _global_maxpool_aggre out ;; Ok (squeeze p)
  else Ok out.

(** [LaneNet.forward]. *)
Definition LaneNet_forward (in_size hidden_size : nat) (feats : shape) : res shape :=
  x <- proj_block in_size hidden_size feats ;;
  x <- PointAggregateBlock_forward hidden_size false x ;;
  PointAggregateBlock_forward hidden_size true x.

(** The torch calls of the fusion layer, on shapes. *)
Definition torch_shape : Torch shape := {|
  t_shape0 := fun s => match s with [] => Raise IndexError | d :: _ => Ok d end;
  t_unsqueeze := unsqueeze;
  t_repeat := repeat_;
  t_cat := cat;
  t_add := add;
  t_squeeze := squeeze
|}.

(** [RelaFusionLayer.__init__] on shapes. *)
Definition RelaFusionLayer_init (d_edge d_model d_ffn : nat) (update_edge : bool)
  : RelaFusionLayer shape := {|
  update_edge := update_edge;
  proj_memory := proj_block (d_model + d_model + d_edge) d_model;
  proj_edge := proj_block d_model d_edge;
  norm_edge := LayerNorm d_edge;
  multihead_attn := MultiheadAttention d_model;
  linear1 := Linear d_model d_ffn;
  linear2 := Linear d_ffn d_model;
  activation := ReLU;
  norm2 := LayerNorm d_model;
  norm3 := LayerNorm d_model
|}.

(** The configuration mapping [cfg] of [ScenePredNet]. *)
Record Config : Type := {
  in_actor : nat;
  in_lane : nat;
  n_fpn_scale : nat;
  d_actor : nat;
  d_lane : nat;
  d_embed : nat;
  d_rpe : nat;
  d_rpe_in : nat;
  cfg_update_edge : bool;
  n_scene_head : nat;
  n_scene_layer : nat;
  cfg_param_out : string;
  g_pred_len : nat;
  g_num_modes : nat
}.

(** [FusionNet.__init__] builds [fuse_scene]; the attention modules
    check their head count. *)
Definition FusionNet_init (config : Config) : res (list (RelaFusionLayer shape)) :=
  (if n_scene_layer config =? 0 then Ok tt
   else MultiheadAttention_init (d_embed config) (n_scene_head config)) ;;;
  Ok (RelaFusionNet_init
        (fun _ flag => RelaFusionLayer_init (d_rpe config) (d_embed config)
                                            (d_embed config * 2) flag)
        (n_scene_layer config) (cfg_update_edge config)).

Fixpoint zip3 {A B C : Type} (a : list A) (b : list B) (c : list C)
  : list (A * B * C) :=
  match a, b, c with
  | x :: a', y :: b', z :: c' => (x, y, z) :: zip3 a' b' c'
  | _, _, _ => []
  end.

(** One iteration of the loop of [FusionNet.forward]. *)
Definition FusionNet_scene (config : Config) (fuse_scene : list (RelaFusionLayer shape))
  (actors lanes : shape) (a_idcs l_idcs : list nat) (rpes_scene : shape)
  : res (shape * shape * shape) :=
  let d_model := d_embed config in
  _actors <- index a_idcs actors ;;
  _lanes <- index l_idcs lanes ;;
  tokens <- cat [_actors; _lanes] 0 ;;
  let cls_token := [1; d_model] in
  tokens_with_cls <- cat [tokens; cls_token] 0 ;;
  rpe <- (p <- permute [1; 2; 0] rpes_scene ;;
          proj_block (d_rpe_in config) (d_rpe config) p) ;;
  let n := nth 0 tokens_with_cls 0 in
  let rpe_with_cls := [n; n; d_rpe config] in
  let m := slice_len n None (Some (Z.of_nat (nth 0 tokens 0))) in
  add_ [m; m; d_rpe config] rpe ;;;
  out <- RelaFusionNet_forward torch_shape fuse_scene tokens_with_cls rpe_with_cls ;;
  a <- slice 0 None (Some (Z.of_nat (length a_idcs))) out ;;
  l <- slice 0 (Some (Z.of_nat (length a_idcs))) (Some (-1)%Z) out ;;
  c <- (o <- select 0 (-1) out ;; unsqueeze 0 o) ;;
  Ok (a, l, c).

(** [FusionNet.forward]. *)
Definition FusionNet_forward (config : Config) (fuse_scene : list (RelaFusionLayer shape))
  (actors : shape) (actor_idcs : list (list nat))
  (lanes : shape) (lane_idcs : list (list nat)) (rpe_prep : list shape)
  : res (shape * shape * shape) :=
  actors <- proj_block (d_actor config) (d_embed config) actors ;;
  lanes <- proj_block (d_lane config) (d_embed config) lanes ;;
  news <- mapM (fun '(a_idcs, l_idcs, rpes) =>
                  FusionNet_scene config fuse_scene actors lanes a_idcs l_idcs rpes)
               (zip3 actor_idcs lane_idcs rpe_prep) ;;
  actors <- cat (map (fun x => fst (fst x)) news) 0 ;;
  lanes <- cat (map (fun x => snd (fst x)) news) 0 ;;
  cls <- cat (map snd news) 0 ;;
  Ok (actors, lanes, cls).

(** What [SceneDecoder.__init__] leaves in [self].  [N_ORDER], [mat_T] and
    [mat_Tp] are attributes that only some branches of the constructor
    assign; [reg_out] is the width of the last [Linear] of [self.reg]. *)
Record SceneDecoder : Type := {
  hidden_size : nat;
  future_steps : nat;
  num_modes : nat;
  param_out : string;
  N_ORDER : option nat;
  mat_T : option shape;
  mat_Tp : option shape;
  reg_out : nat
}.

(** Reading an attribute that was never assigned raises. *)
Definition getattr {A : Type} (a : option A) : res A :=
  match a with Some v => Ok v | None => Raise AttributeError end.

(** Shapes of the four basis matrices: [np.array(T).T] for a list [T] of
    [n_order + 1] (or [n_order]) rows of [n_step] samples; of an empty
    list [np.array] makes a 1-D array without entries. *)
Definition _get_T_matrix_bezier (n_order n_step : nat) : shape := [n_step; n_order + 1].
Definition _get_Tp_matrix_bezier (n_order n_step : nat) : shape :=
  if n_order =? 0 then [0] else [n_step; n_order].
Definition _get_T_matrix_monomial (n_order n_step : nat) : shape := [n_step; n_order + 1].
Definition _get_Tp_matrix_monomial (n_order n_step : nat) : shape :=
  if n_order =? 0 then [0] else [n_step; n_order].

(** [SceneDecoder.__init__]. *)
Definition SceneDecoder_init (param_out : string)
  (hidden_size future_steps num_modes : nat) : res SceneDecoder :=
  MultiheadAttention_init hidden_size 4 ;;;          (* TransformerEncoderLayer(nhead=4) *)
  if (param_out =? "bezier")%string then
    Ok {| hidden_size := hidden_size; future_steps := future_steps;
          num_modes := num_modes; param_out := param_out;
          N_ORDER := Some 7;
          mat_T := Some (_get_T_matrix_bezier 7 future_steps);
          mat_Tp := Some (_get_Tp_matrix_bezier 7 future_steps);
          reg_out := (7 + 1) * 5 |}
  else if (param_out =? "monomial")%string then
    Ok {| hidden_size := hidden_size; future_steps := future_steps;
          num_modes := num_modes; param_out := param_out;
          N_ORDER := Some 7;
          mat_T := Some (_get_T_matrix_monomial 7 future_steps);
          mat_Tp := Some (_get_Tp_matrix_monomial 7 future_steps);
          reg_out := (7 + 1) * 5 |}
  else if (param_out =? "none")%string then
    Ok {| hidden_size := hidden_size; future_steps := future_steps;
          num_modes := num_modes; param_out := param_out;
          N_ORDER := None; mat_T := None; mat_Tp := None;
          reg_out := future_steps * 5 |}
  else Raise NotImplementedError.

(** [self.actor_proj] and [self.ctx_proj]. *)
Definition mode_proj (self : SceneDecoder) (s : shape) : res shape :=
  let dim_mm := hidden_size self * num_modes self in
  let dim_inter := dim_mm / 2 in
  mlp2 (hidden_size self) dim_inter dim_mm s.

(** The output of one scene: probabilities, trajectories and the
    auxiliary triple (velocity, variance velocity, parameters or [None]). *)
Definition scene_out : Type := (shape * shape * (shape * shape * option shape))%type.

(** The parameterisation branches of the loop body: from [embed] to
    [(reg, cov, vel, cov_vel, param)]. *)
Definition SceneDecoder_regress (self : SceneDecoder) (embed : shape)
  : res (shape * shape * shape * shape * shape) :=
  if (param_out self =? "bezier")%string then
    r <- head (hidden_size self) (reg_out self) embed ;;
    n_order <- getattr (N_ORDER self) ;;
    param <- view [Some (num_modes self); None; Some (n_order + 1); Some 5] r ;;
    reg_param <- (p <- slice (-1) None (Some 2%Z) param ;; permute [1; 0; 2; 3] p) ;;
    reg <- (m <- getattr (mat_T self) ;; matmul m reg_param) ;;
    vel <- (m <- getattr (mat_Tp self) ;; d <- diff 2 reg_param ;; matmul m d) ;;
    cov_param <- (p <- slice (-1) (Some 2%Z) None param ;; permute [1; 0; 2; 3] p) ;;
    cov <- (m <- getattr (mat_T self) ;; matmul m cov_param) ;;
    cov_vel <- (m <- getattr (mat_Tp self) ;; d <- diff 2 cov_param ;; matmul m d) ;;
    Ok (reg, cov, vel, cov_vel, param)
  else if (param_out self =? "monomial")%string then
    r <- head (hidden_size self) (reg_out self) embed ;;
    n_order <- getattr (N_ORDER self) ;;
    param <- view [Some (num_modes self); None; Some (n_order + 1); Some 5] r ;;
    reg_param <- (p <- slice (-1) None (Some 2%Z) param ;; permute [1; 0; 2; 3] p) ;;
    reg <- (m <- getattr (mat_T self) ;; matmul m reg_param) ;;
    vel <- (m <- getattr (mat_Tp self) ;;
            d <- slice 2 (Some 1%Z) None reg_param ;; matmul m d) ;;
    cov_param <- (p <- slice (-1) (Some 2%Z) None param ;; permute [1; 0; 2; 3] p) ;;
    cov <- (m <- getattr (mat_T self) ;; matmul m cov_param) ;;
    cov_vel <- (m <- getattr (mat_Tp self) ;; d <- diff 2 cov_param ;; matmul m d) ;;
    Ok (reg, cov, vel, cov_vel, param)
  else if (param_out self =? "none")%string then
    r <- head (hidden_size self) (reg_out self) embed ;;
    n_order <- getattr (N_ORDER self) ;;
    param <- view [Some (num_modes self); None; Some (n_order + 1); Some 5] r ;;
    reg <- (p <- slice (-1) None (Some 2%Z) param ;; permute [1; 0; 2; 3] p) ;;
    vel <- gradient (-2) reg ;;
    cov <- (p <- slice (-1) (Some 2%Z) None param ;; permute [1; 0; 2; 3] p) ;;
    cov_vel <- gradient (-2) cov ;;
    Ok (reg, cov, vel, cov_vel, param)
  else Raise RuntimeError.                           (* [cov] is unbound *)

(** The body of the loop of [SceneDecoder.forward]. *)
Definition SceneDecoder_scene (self : SceneDecoder) (ctx actors tgt : shape)
  (idx : nat) (a_idcs : list nat) : res scene_out :=
  let K := num_modes self in
  let H := hidden_size self in
  _ctx <- (c <- select 0 (Z.of_nat idx) ctx ;; unsqueeze 0 c) ;;
  _actors <- index a_idcs actors ;;
  cls_embed <- (p <- mode_proj self _ctx ;;
                v <- view [None; Some K; Some H] p ;; permute [1; 0; 2] v) ;;
  cls_embed <- TransformerEncoder H 2 cls_embed ;;
  actor_embed <- (p <- mode_proj self _actors ;;
                  v <- view [None; Some K; Some H] p ;; permute [1; 0; 2] v) ;;
  let tgt_embed := actor_embed in                    (* zeros_like *)
  (t <- select 0 (Z.of_nat idx) tgt ;; t <- unsqueeze 0 t ;;
   dst <- select 0 0 tgt_embed ;; add_ dst t) ;;;
  embed <- (e <- add cls_embed actor_embed ;; add e tgt_embed) ;;
  cls <- (c <- head H 1 cls_embed ;; view [Some K; None] c) ;;
  '(reg, cov, vel, cov_vel, param) <- SceneDecoder_regress self embed ;;
  reg <- cat [reg; cov] (-1) ;;                      (* exp keeps the shape *)
  cls <- permute [1; 0] cls ;;                       (* softmax keeps the shape *)
  Ok (cls, reg,
      (vel, cov_vel,
       if (param_out self =? "none")%string then None else Some param)).

(** [SceneDecoder.forward]. *)
Definition SceneDecoder_forward (self : SceneDecoder) (ctx actors : shape)
  (actor_idcs : list (list nat)) (tgt_feat tgt_rpes : shape)
  : res (list shape * list shape * list (shape * shape * option shape)) :=
  tgt_rpes <- proj_block (5 * 2 * 2) (hidden_size self) tgt_rpes ;;
  tgt_feat <- (if length tgt_feat =? 1 then unsqueeze 0 tgt_feat else Ok tgt_feat) ;;
  tgt <- (c <- cat [tgt_feat; tgt_rpes] (-1) ;;
          mlp2 (2 * hidden_size self) (hidden_size self) (hidden_size self) c) ;;
  outs <- mapM (fun '(idx, a_idcs) => SceneDecoder_scene self ctx actors tgt idx a_idcs)
               (combine (seq 0 (length actor_idcs)) actor_idcs) ;;
  Ok (map (fun o => fst (fst o)) outs,
      map (fun o => snd (fst o)) outs,
      map snd outs).

(** The input tuple of [ScenePredNet.forward], as [pre_process] builds it. *)
Record Data : Type := {
  ACTORS : shape;
  ACTOR_IDCS : list (list nat);
  LANES : shape;
  LANE_IDCS : list (list nat);
  RPE : list shape;                  (* rpe['scene'] of every scene *)
  TGT_NODES : shape;
  TGT_RPE : shape
}.

Record ScenePredNet : Type := {
  cfg : Config;
  fusion_net : list (RelaFusionLayer shape);
  pred_scene : SceneDecoder
}.

(** [ScenePredNet.__init__]. *)
Definition ScenePredNet_init (cfg : Config) : res ScenePredNet :=
  fuse <- FusionNet_init cfg ;;
  dec <- SceneDecoder_init (cfg_param_out cfg) (d_embed cfg)
                           (g_pred_len cfg) (g_num_modes cfg) ;;
  Ok {| cfg := cfg; fusion_net := fuse; pred_scene := dec |}.

(** [ScenePredNet.forward]. *)
Definition ScenePredNet_forward (self : ScenePredNet) (data : Data)
  : res (list shape * list shape * list (shape * shape * option shape)) :=
  let c := cfg self in
  actors <- ActorNet_forward (in_actor c) (d_actor c) (n_fpn_scale c) (ACTORS data) ;;
  lanes <- LaneNet_forward (in_lane c) (d_lane c) (LANES data) ;;
  tgt_feat <- LaneNet_forward (in_lane c) (d_lane c) (TGT_NODES data) ;;
  '(actors, lanes, cls) <- FusionNet_forward c (fusion_net self) actors (ACTOR_IDCS data)
                                             lanes (LANE_IDCS data) (RPE data) ;;
  SceneDecoder_forward (pred_scene self) cls actors (ACTOR_IDCS data) tgt_feat (TGT_RPE data).

(** The two values of [param_out] for which the constructor sets
    [N_ORDER]. *)
Definition basis (po : string) : Prop := po = "bezier"%string \/ po = "monomial"%string.

(** The value of [tgt_feat] that [ScenePredNet.forward] passes on for [B]
    targets: [(B, H)], or [(H,)] when the lane encoder squeezed the
    single target away. *)
Definition tgt_feat_of (B H : nat) (tgt_feat : shape) : Prop :=
  tgt_feat = [B; H] \/ (B = 1 /\ tgt_feat = [H]).

(** A scene of a batch, given by the indices of its actors and of its
    lanes: the indices are in range of the [A] actors and [L] lanes of the
    batch, and the scene has at least one actor or lane.  [rpe_of] is the
    shape of its RPE tensor, with one entry per pair of its tokens. *)
Definition scene_ok (A L : nat) (s : list nat * list nat) : Prop :=
  Forall (fun i => i < A) (fst s) /\ Forall (fun i => i < L) (snd s) /\
  1 <= length (fst s) + length (snd s).

Definition rpe_of (config : Config) (s : list nat * list nat) : shape :=
  [d_rpe_in config; length (fst s) + length (snd s); length (fst s) + length (snd s)].

(** The sum of the sizes of the first dimension over the scenes. *)
Definition total {A : Type} (f : A -> nat) (l : list A) : nat :=
  fold_right (fun x acc => f x + acc) 0 l.

(** Construction followed by one forward pass. *)
Definition run (cfg : Config) (data : Data)
  : res (list shape * list shape * list (shape * shape * option shape)) :=
  self <- ScenePredNet_init cfg ;; ScenePredNet_forward self data.

(** The end-to-end example: hidden size 8, one pyramid stage, two modes,
    four future steps.  The scene has two actors with [C = 3] channels and
    [T = 5] steps, [n_lanes] lane segments of ten points and one target;
    [d_tgt_rpe] is the number of features of [TGT_RPE]. *)
Definition example_cfg (param_out : string) : Config := {|
  in_actor := 3; in_lane := 10; n_fpn_scale := 1;
  d_actor := 8; d_lane := 8; d_embed := 8; d_rpe := 8; d_rpe_in := 5;
  cfg_update_edge := true; n_scene_head := 2; n_scene_layer := 2;
  cfg_param_out := param_out; g_pred_len := 4; g_num_modes := 2
|}.

Definition example_data (n_lanes d_tgt_rpe : nat) : Data := {|
  ACTORS := [2; 3; 5];
  ACTOR_IDCS := [[0; 1]];
  LANES := [n_lanes; 10; 10];
  LANE_IDCS := [seq 0 n_lanes];
  RPE := [[5; 2 + n_lanes; 2 + n_lanes]];
  TGT_NODES := [1; 10; 10];
  TGT_RPE := [1; d_tgt_rpe]
|}.

(** A batch of two scenes, with three actors and two lanes, and with two
    actors and one lane; and its second scene alone. *)
Definition batch_data : Data := {|
  ACTORS := [5; 3; 5];
  ACTOR_IDCS := [[0; 1; 2]; [3; 4]];
  LANES := [3; 10; 10];
  LANE_IDCS := [[0; 1]; [2]];
  RPE := [[5; 5; 5]; [5; 3; 3]];
  TGT_NODES := [2; 10; 10];
  TGT_RPE := [2; 20]
|}.

Definition second_scene_data : Data := {|
  ACTORS := [2; 3; 5];
  ACTOR_IDCS := [[0; 1]];
  LANES := [1; 10; 10];
  LANE_IDCS := [[0]];
  RPE := [[5; 3; 3]];
  TGT_NODES := [1; 10; 10];
  TGT_RPE := [1; 20]
|}.

End Shape.


(** ** The decoder's arithmetic, over the reals

    Tensors are nested lists; the last two levels of a 4-D tensor are the
    rows and columns of a matrix.  Floating-point numbers are idealised
    as real numbers. *)

Module Num.

Local Open Scope R_scope.

Definition vec := list R.
Definition matrix := list vec.
Definition tensor4 := list (list matrix).

(** [math.comb]. *)
Fixpoint comb (n k : nat) : nat :=
  match n, k with
  | _, O => 1
  | O, S _ => 0
  | S n', S k' => comb n' k' + comb n' k
  end.

(** [np.linspace(start, stop, num, endpoint=True)]: [num] samples
    [start + j * step] with [step = (stop - start) / (num - 1)]; for
    [num > 1] the last sample is overwritten with [stop]. *)
Definition linspace (start stop : R) (num : nat) : list R :=
  map (fun j =>
         if (1 <? num)%nat && (j =? num - 1)%nat then stop
         else if (1 <? num)%nat
              then INR j * ((stop - start) / INR (num - 1)) + start
              else INR j * (stop - start) + start)
      (seq 0 num).

(** [np.array(M).T] of a list [M] of rows of length [ncols]. *)
Definition transpose {A : Type} (d : A) (ncols : nat) (M : list (list A))
  : list (list A) :=
  map (fun j => map (fun row => nth j row d) M) (seq 0 ncols).

(** [SceneDecoder._get_T_matrix_bezier]. *)
Definition _get_T_matrix_bezier (n_order n_step : nat) : matrix :=
  let ts := linspace 0 1 n_step in
  let T := map (fun i =>
                  map (fun t => INR (comb n_order i) * (1 - t) ^ (n_order - i) * t ^ i) ts)
               (seq 0 (n_order + 1)) in
  transpose 0 n_step T.

(** [SceneDecoder._get_Tp_matrix_bezier]. *)
Definition _get_Tp_matrix_bezier (n_order n_step : nat) : matrix :=
  let ts := linspace 0 1 n_step in
  let Tp := map (fun i =>
                   map (fun t => INR (n_order * comb (n_order - 1) i)
                                 * (1 - t) ^ (n_order - 1 - i) * t ^ i) ts)
                (seq 0 n_order) in
  transpose 0 n_step Tp.

(** [SceneDecoder._get_T_matrix_monomial]. *)
Definition _get_T_matrix_monomial (n_order n_step : nat) : matrix :=
  let ts := linspace 0 1 n_step in
  let T := map (fun i => map (fun t => t ^ i) ts) (seq 0 (n_order + 1)) in
  transpose 0 n_step T.

(** [SceneDecoder._get_Tp_matrix_monomial]. *)
Definition _get_Tp_matrix_monomial (n_order n_step : nat) : matrix :=
  let ts := linspace 0 1 n_step in
  let Tp := map (fun i => map (fun t => INR (i + 1) * t ^ i) ts) (seq 0 n_order) in
  transpose 0 n_step Tp.

Definition sum (v : vec) : R := fold_right Rplus 0 v.

Definition dot (u v : vec) : R :=
  sum (map (fun p => fst p * snd p) (combine u v)).

Definition column (j : nat) (B : matrix) : vec := map (fun row => nth j row 0) B.

Definition ncols (B : matrix) : nat :=
  match B with [] => O | r :: _ => length r end.

(** [torch.matmul] of two matrices, and of a matrix with a 4-D tensor
    (the leading two dimensions are batch dimensions). *)
Definition matmul (A B : matrix) : matrix :=
  map (fun row => map (fun j => dot row (column j B)) (seq 0 (ncols B))) A.

Definition matmul4 (A : matrix) (B : tensor4) : tensor4 :=
  map (map (matmul A)) B.

Definition vsub (u v : vec) : vec :=
  map (fun p => fst p - snd p) (combine u v).

(** [torch.diff(t, dim=2)]: differences of consecutive rows. *)
Fixpoint diff_rows (P : matrix) : matrix :=
  match P with
  | a :: (b :: _) as r => vsub b a :: diff_rows r
  | _ => []
  end.

Definition diff2 (t : tensor4) : tensor4 := map (map diff_rows) t.

(** [t[..., :k]], [t[..., k:]] and [t[:, :, 1:, :]]. *)
Definition slice_last_to (k : nat) (t : tensor4) : tensor4 :=
  map (map (map (firstn k))) t.

Definition slice_last_from (k : nat) (t : tensor4) : tensor4 :=
  map (map (map (skipn k))) t.

Definition slice2_from (k : nat) (t : tensor4) : tensor4 :=
  map (map (skipn k)) t.

(** [t.permute(1, 0, 2, 3)] and [t.permute(1, 0)]. *)
Definition permute_1023 (t : tensor4) : tensor4 :=
  transpose [] (match t with [] => O | r :: _ => length r end) t.

Definition permute_10 (m : matrix) : matrix := transpose 0 (ncols m) m.

(** Division and multiplication of every entry by a scalar. *)
Definition div4 (t : tensor4) (c : R) : tensor4 :=
  map (map (map (map (fun x => x / c)))) t.

(** [torch.cat([a, torch.exp(b)], dim=-1)]. *)
Definition cat_exp (a b : tensor4) : tensor4 :=
  map (fun p => map (fun q => map (fun r => fst r ++ map exp (snd r))
                                  (combine (fst q) (snd q)))
                    (combine (fst p) (snd p)))
      (combine a b).

(** [F.softmax(m, dim=1)]. *)
Definition softmax (x : vec) : vec :=
  map (fun xi => exp xi / sum (map exp x)) x.

Definition softmax_dim1 (m : matrix) : matrix := map softmax m.

(** The part of the loop body of [SceneDecoder.forward] that follows the
    regression head, for [param_out == 'bezier']: from
    [param = self.reg(embed).view(K, -1, N_ORDER + 1, 5)] to
    [(reg, (vel, cov_vel, param))]. *)
Definition N_ORDER : nat := 7.

Definition regress_bezier (future_steps : nat) (param : tensor4)
  : tensor4 * (tensor4 * tensor4 * tensor4) :=
  let mat_T := _get_T_matrix_bezier N_ORDER future_steps in
  let mat_Tp := _get_Tp_matrix_bezier N_ORDER future_steps in
  let reg_param := permute_1023 (slice_last_to 2 param) in
  let reg := matmul4 mat_T reg_param in
  let vel := div4 (matmul4 mat_Tp (diff2 reg_param)) (INR future_steps * (1 / 10)) in
  let cov_param := permute_1023 (slice_last_from 2 param) in
  let cov := matmul4 mat_T cov_param in
  let cov_vel := div4 (matmul4 mat_Tp (diff2 cov_param)) (INR future_steps * (1 / 10)) in
  let reg := cat_exp reg cov in
  (reg, (vel, cov_vel, param)).

(** The same for [param_out == 'monomial']. *)
Definition regress_monomial (future_steps : nat) (param : tensor4)
  : tensor4 * (tensor4 * tensor4 * tensor4) :=
  let mat_T := _get_T_matrix_monomial N_ORDER future_steps in
  let mat_Tp := _get_Tp_matrix_monomial N_ORDER future_steps in
  let reg_param := permute_1023 (slice_last_to 2 param) in
  let reg := matmul4 mat_T reg_param in
  let vel := div4 (matmul4 mat_Tp (slice2_from 1 reg_param)) (INR future_steps * (1 / 10)) in
  let cov_param := permute_1023 (slice_last_from 2 param) in
  let cov := matmul4 mat_T cov_param in
  let cov_vel := div4 (matmul4 mat_Tp (diff2 cov_param)) (INR future_steps * (1 / 10)) in
  let reg := cat_exp reg cov in
  (reg, (vel, cov_vel, param)).

(** The positions and the log-variances of one actor and mode, sampled
    with the basis matrix [T] from the control points [ctrl]. *)
Definition position (T ctrl : matrix) : matrix := matmul T (map (firstn 2) ctrl).

Definition log_variance (T ctrl : matrix) : matrix := matmul T (map (skipn 2) ctrl).

(** The classification path after the head: [cls] is
    [self.cls(cls_embed).view(K, -1)]; the result is
    [F.softmax(cls.permute(1, 0) * 1.0, dim=1)]. *)
Definition probabilities (cls : matrix) : matrix :=
  softmax_dim1 (map (map (fun x => x * 1)) (permute_10 cls)).

(** Matrices of shape [(r, c)] and 4-D tensors of shape [(d0, d1, r, c)]. *)
Definition is_matrix (r c : nat) (m : matrix) : Prop :=
  length m = r /\ Forall (fun row => length row = c) m.

Definition has_shape4 (d0 d1 r c : nat) (t : tensor4) : Prop :=
  length t = d0 /\ Forall (fun a => length a = d1 /\ Forall (is_matrix r c) a) t.

(** The two leading dimensions alone. *)
Definition has_dims2 (d0 d1 : nat) (t : tensor4) : Prop :=
  length t = d0 /\ Forall (fun a => length a = d1) t.

(** [t[a, b]] and [m[j]]. *)
Definition entry4 (t : tensor4) (a b : nat) : matrix := nth b (nth a t []) [].

Definition row (m : matrix) (j : nat) : vec := nth j m [].

(** The Bezier curve of degree [length P - 1] with control values [P],
    as a function of the curve parameter. *)
Definition bernstein (n i : nat) (t : R) : R :=
  INR (comb n i) * (1 - t) ^ (n - i) * t ^ i.

(** Control points of one actor and one mode: the first one at [(1, 0)],
    the others at the origin, all log-variances 0; and the regression
    output [(K, n, 8, 5)] with [K = n = 1] that holds them. *)
Definition example_ctrl : matrix :=
  [1; 0; 0; 0; 0] :: List.repeat [0; 0; 0; 0; 0] 7.

Definition example_param : tensor4 := [[example_ctrl]].

Definition bezier_curve (P : vec) (t : R) : R :=
  sum (map (fun i => bernstein (length P - 1) i t * nth i P 0) (seq 0 (length P))).

(** The polynomial with coefficients [P] in the power basis. *)
Definition monomial_curve (P : vec) (t : R) : R :=
  sum (map (fun i => t ^ i * nth i P 0) (seq 0 (length P))).

(** The derivative of a Bernstein polynomial, term by term. *)
Definition bernstein_d (n i : nat) (t : R) : R :=
  INR (comb n i)
  * ((INR (n - i) * (1 - t) ^ pred (n - i) * (0 - 1)) * t ^ i
     + (1 - t) ^ (n - i) * (INR i * t ^ pred i)).

(** The entry of the derivative basis: [n * comb(n - 1, i) * (1 - t) ^
    (n - 1 - i) * t ^ i]. *)
Definition bernstein_p (n i : nat) (t : R) : R :=
  INR (n * comb (n - 1) i) * (1 - t) ^ (n - 1 - i) * t ^ i.

End Num.

(** ** The classification path of the decoder, on values

    The part of the loop body of [SceneDecoder.forward] that leads from
    the context of a scene to its mode probabilities.  [_ctx] is one row
    of [H] entries; a tensor is given by its entries in order.  The
    learned modules are left abstract: [ctx_proj] on the one row,
    [ctx_sat] (the transformer encoder) on the sequence of the [K] mode
    embeddings, [cls] (the three-layer head, which ends in
    [nn.Linear(hidden_size, 1)]) on every mode embedding by itself. *)

Module Classification.

Import Num.
Local Open Scope R_scope.

Record SceneDecoder : Type := {
  ctx_proj : vec -> vec;
  ctx_sat : list vec -> list vec;
  cls : vec -> vec
}.

(** [t.view(-1, K, H).permute(1, 0, 2)] for the one row that [ctx_proj]
    returns, with its [K * H] features: the [K] rows of [(K, 1, H)]. *)
Definition view_modes (K H : nat) (t : vec) : res (list vec) :=
  assert ((0 <? K * H) && (length t =? K * H))%nat RuntimeError ;;;
  Ok (map (fun i => firstn H (skipn (i * H) t)) (seq 0 K)).

(** [t.view(K, -1)]. *)
Definition view_rows (K : nat) (t : vec) : res matrix :=
  assert ((0 <? K) && (length t mod K =? 0))%nat RuntimeError ;;;
  let c := (length t / K)%nat in
  Ok (map (fun i => firstn c (skipn (i * c) t)) (seq 0 K)).

(** The mode embeddings of the context and their logits. *)
Definition cls_embed_of (self : SceneDecoder) (K H : nat) (_ctx : vec) : res (list vec) :=
  e <- view_modes K H (ctx_proj self _ctx) ;;
  Ok (ctx_sat self e).

(** From [_ctx] to [F.softmax(cls * 1.0, dim=1)]. *)
Definition probabilities_of (self : SceneDecoder) (K H : nat) (_ctx : vec) : res matrix :=
  cls_embed <- cls_embed_of self K H _ctx ;;
  cls <- view_rows K (concat (map (cls self) cls_embed)) ;;
  Ok (probabilities cls).

(** A decoder of two modes and hidden size 1, whose logits for the
    context [[1]] are 1 and 2. *)
Definition example_decoder : SceneDecoder := {|
  ctx_proj := fun v => v ++ map (fun x => 2 * x) v;
  ctx_sat := fun e => e;
  cls := fun v => [sum v]
|}.

End Classification.

(** ** The loops over scenes, on rows of embeddings

    A third reading of the source, for the order in which the per-scene
    results are assembled.  A 2-D tensor is the list of its rows; what the
    learned modules compute on one actor, one lane, one scene or one
    target is left abstract ([Learned]).  The encoders act on each actor
    and on each lane separately; the lane encoder ends with [squeeze()],
    which leaves a 1-D tensor when there is a single lane. *)

Module Rows.

Section Rows.

Context {Hist Lane E Rpe TRpe G Cls Reg Aux : Type}.

Record Learned : Type := {
  cls_token : E;                        (* torch.zeros((1, d_model)) *)
  actor_enc : Hist -> E;                (* ActorNet on one actor *)
  lane_enc : Lane -> E;                 (* LaneNet on one lane segment *)
  proj_actor : E -> E;
  proj_lane : E -> E;
  edge_of : nat -> Rpe -> G;            (* rpe_with_cls for N tokens *)
  fuse_scene : list E -> G -> list E;   (* RelaFusionNet on one scene *)
  proj_tgt : E -> TRpe -> E;            (* proj_tgt(cat([tgt_feat, proj_rpe(tgt_rpes)])) *)
  decode : E -> list E -> E -> Cls * Reg * Aux   (* the decoder's loop body *)
}.

Variable net : Learned.

(** A 2-D tensor of rows, or the 1-D tensor that [squeeze()] leaves of a
    single row. *)
Inductive tensor2 : Type :=
| Mat (rows : list E)
| Flat (e : E).

Definition getitem {A : Type} (t : list A) (i : nat) : res A :=
  match nth_error t i with
  | Some e => Ok e
  | None => Raise IndexError
  end.

(** [t[idcs]]. *)
Definition index (idcs : list nat) (t : list E) : res (list E) :=
  mapM (getitem t) idcs.

(** [torch.cat(ts, dim=0)]. *)
Definition cat0 (ts : list (list E)) : res (list E) :=
  match ts with
  | [] => Raise RuntimeError
  | _ => Ok (concat ts)
  end.

(** [LaneNet.forward], with the [squeeze()] of its last block. *)
Definition LaneNet_forward (feats : list Lane) : tensor2 :=
  match feats with
  | [l] => Flat (lane_enc net l)
  | _ => Mat (map (lane_enc net) feats)
  end.

(** One iteration of the loop of [FusionNet.forward].  Indexing a 1-D
    [lanes] gives a 1-D tensor, which [torch.cat] refuses next to the 2-D
    [_actors] unless it is empty. *)
Definition FusionNet_scene (actors : list E) (lanes : tensor2)
  (a_idcs l_idcs : list nat) (rpes : Rpe) : res (list E * list E * list E) :=
  _actors <- index a_idcs actors ;;
  tokens <- match lanes with
            | Mat l => _lanes <- index l_idcs l ;; Ok (_actors ++ _lanes)
            | Flat _ => match l_idcs with
                        | [] => Ok _actors
                        | _ => Raise RuntimeError
                        end
            end ;;
  let tokens_with_cls := tokens ++ [cls_token net] in
  let rpe_with_cls := edge_of net (length tokens_with_cls) rpes in
  let out := fuse_scene net tokens_with_cls rpe_with_cls in
  cls <- getitem (rev out) 0 ;;                                 (* out[-1] *)
  Ok (firstn (length a_idcs) out,
      firstn (length out - 1 - length a_idcs) (skipn (length a_idcs) out),
      [cls]).

(** [FusionNet.forward]. *)
Definition FusionNet_forward (actors : list E) (actor_idcs : list (list nat))
  (lanes : tensor2) (lane_idcs : list (list nat)) (rpe_prep : list Rpe)
  : res (list E * list E * list E) :=
  let actors := map (proj_actor net) actors in
  let lanes := match lanes with
               | Mat l => Mat (map (proj_lane net) l)
               | Flat e => Flat (proj_lane net e)
               end in
  news <- mapM (fun '(a_idcs, l_idcs, rpes) =>
                  FusionNet_scene actors lanes a_idcs l_idcs rpes)
               (Shape.zip3 actor_idcs lane_idcs rpe_prep) ;;
  actors <- cat0 (map (fun x => fst (fst x)) news) ;;
  lanes <- cat0 (map (fun x => snd (fst x)) news) ;;
  cls <- cat0 (map snd news) ;;
  Ok (actors, lanes, cls).

(** [SceneDecoder.forward]: the three lists of results, one entry per
    scene. *)
Definition SceneDecoder_forward (ctx actors : list E) (actor_idcs : list (list nat))
  (tgt_feat : tensor2) (tgt_rpes : list TRpe) : res (list Cls * list Reg * list Aux) :=
  let tgt_feat := match tgt_feat with
                  | Mat l => l
                  | Flat e => [e]                                (* unsqueeze(0) *)
                  end in
  tgt <- (if length tgt_feat =? length tgt_rpes
          then Ok (map (fun p => proj_tgt net (fst p) (snd p)) (combine tgt_feat tgt_rpes))
          else Raise RuntimeError) ;;
  outs <- mapM (fun '(idx, a_idcs) =>
                  _ctx <- getitem ctx idx ;;
                  _actors <- index a_idcs actors ;;
                  t <- getitem tgt idx ;;
                  Ok (decode net _ctx _actors t))
               (combine (seq 0 (length actor_idcs)) actor_idcs) ;;
  Ok (map (fun o => fst (fst o)) outs,
      map (fun o => snd (fst o)) outs,
      map snd outs).

(** The input tuple of [ScenePredNet.forward]. *)
Record Data : Type := {
  ACTORS : list Hist;
  ACTOR_IDCS : list (list nat);
  LANES : list Lane;
  LANE_IDCS : list (list nat);
  RPE : list Rpe;
  TGT_NODES : list Lane;
  TGT_RPE : list TRpe
}.

(** [ScenePredNet.forward]. *)
Definition ScenePredNet_forward (data : Data)
  : res (list Cls * list Reg * list Aux) :=
  let actors := map (actor_enc net) (ACTORS data) in
  let lanes := LaneNet_forward (LANES data) in
  let tgt_feat := LaneNet_forward (TGT_NODES data) in
  '(actors, lanes, cls) <- FusionNet_forward actors (ACTOR_IDCS data)
                                             lanes (LANE_IDCS data) (RPE data) ;;
  SceneDecoder_forward cls actors (ACTOR_IDCS data) tgt_feat (TGT_RPE data).

(** A scene, and the batch that the ragged convention makes of a list of
    scenes: the actors and the lanes of the scenes one after the other,
    and for every scene the range of its indices. *)
Record scene : Type := {
  s_actors : list Hist;
  s_lanes : list Lane;
  s_rpe : Rpe;
  s_tgt : Lane;
  s_tgt_rpe : TRpe
}.

Fixpoint ranges (k : nat) (sizes : list nat) : list (list nat) :=
  match sizes with
  | [] => []
  | n :: r => seq k n :: ranges (k + n) r
  end.

Definition batch_of (scenes : list scene) : Data := {|
  ACTORS := concat (map s_actors scenes);
  ACTOR_IDCS := ranges 0 (map (fun s => length (s_actors s)) scenes);
  LANES := concat (map s_lanes scenes);
  LANE_IDCS := ranges 0 (map (fun s => length (s_lanes s)) scenes);
  RPE := map s_rpe scenes;
  TGT_NODES := map s_tgt scenes;
  TGT_RPE := map s_tgt_rpe scenes
|}.

(** The output of a scene from its own rows alone. *)
Definition scene_fused (s : scene) : list E :=
  let tokens := map (proj_actor net) (map (actor_enc net) (s_actors s))
                ++ map (proj_lane net) (map (lane_enc net) (s_lanes s)) in
  let tokens_with_cls := tokens ++ [cls_token net] in
  fuse_scene net tokens_with_cls (edge_of net (length tokens_with_cls) (s_rpe s)).

Definition scene_out (s : scene) : Cls * Reg * Aux :=
  decode net (last (scene_fused s) (cls_token net))
         (firstn (length (s_actors s)) (scene_fused s))
         (proj_tgt net (lane_enc net (s_tgt s)) (s_tgt_rpe s)).

End Rows.

End Rows.

(** ** The lane encoder, on the points of the lane segments

    A fourth reading of the source, for what the lane encoder computes
    from the points of a segment.  A tensor of shape [(L, P, H)] is the
    list of its [L] lane segments, a segment the list of its [P] points,
    a point the vector of its features; [P] is passed along, as the
    source reads it off [x.shape[1]].  [nn.Linear], [nn.LayerNorm] and
    [nn.ReLU] act on the last dimension, that is on every point by
    itself: what a [nn.Sequential] of them computes on one point is left
    abstract.  The elementwise operations are written for vectors of
    equal length, as the layers produce them. *)

Module Points.

Local Open Scope R_scope.

Definition vec := list R.
Definition segment := list vec.

(** A tensor of up to three dimensions. *)
Inductive tensor : Type :=
| T0 (x : R)
| T1 (v : vec)
| T2 (m : list vec)
| T3 (t : list segment).

(** The learned layers of a [PointAggregateBlock] and of the [LaneNet]. *)
Record Block : Type := {
  fc1 : vec -> vec;
  fc2 : vec -> vec;
  norm : vec -> vec
}.

Record LaneNet : Type := {
  proj : vec -> vec;
  aggre1 : Block;
  aggre2 : Block
}.

(** A layer on the last dimension of [(L, P, H)]. *)
Definition on_points (f : vec -> vec) (x : list segment) : list segment :=
  map (map f) x.

Definition vmax (u v : vec) : vec := map (fun p => Rmax (fst p) (snd p)) (combine u v).

Definition vadd (u v : vec) : vec := map (fun p => fst p + snd p) (combine u v).

(** The maximum of every channel over the points of a segment. *)
Definition max_points (pts : segment) : vec :=
  match pts with
  | [] => []
  | p :: r => fold_left vmax r p
  end.

(** [PointAggregateBlock._global_maxpool_aggre]: [(L, P, H) -> (L, 1, H)],
    given as its [L] rows; pooling over no point is refused. *)
Definition _global_maxpool_aggre (P : nat) (feat : list segment) : res (list vec) :=
  assert (negb (P =? 0)%nat) RuntimeError ;;; Ok (map max_points feat).

(** [x_aggre.repeat([1, P, 1])] on [(L, 1, H)]. *)
Definition repeat_points (P : nat) (x_aggre : list vec) : list segment :=
  map (fun a => List.repeat a P) x_aggre.

(** [torch.cat([x, y], dim=-1)] and [x + y] on [(L, P, .)]. *)
Definition cat_last (x y : list segment) : list segment :=
  map (fun q => map (fun p => fst p ++ snd p) (combine (fst q) (snd q))) (combine x y).

Definition add (x y : list segment) : list segment :=
  map (fun q => map (fun p => vadd (fst p) (snd p)) (combine (fst q) (snd q))) (combine x y).

(** [squeeze()] on [(L, 1, H)]: the pooled dimension goes, and so does
    any of the two others that has size 1. *)
Definition squeeze (hidden_size : nat) (p : list vec) : tensor :=
  match p, hidden_size with
  | [v], 1%nat => T0 (nth 0 v 0)
  | [v], _ => T1 v
  | _, 1%nat => T1 (map (fun v => nth 0 v 0) p)
  | _, _ => T2 p
  end.

(** [PointAggregateBlock.forward] up to [out]. *)
Definition PointAggregateBlock_out (self : Block) (P : nat) (x_inp : list segment)
  : res (list segment) :=
  let x := on_points (fc1 self) x_inp in
  x_aggre <- _global_maxpool_aggre P x ;;
  let x_aggre := cat_last x (repeat_points P x_aggre) in
  Ok (on_points (norm self) (add x_inp (on_points (fc2 self) x_aggre))).

(** [PointAggregateBlock.forward]. *)
Definition PointAggregateBlock_forward (self : Block) (aggre_out : bool)
  (hidden_size P : nat) (x_inp : list segment) : res tensor :=
  out <- PointAggregateBlock_out self P x_inp ;;
  if aggre_out
  then p <- _global_maxpool_aggre P out ;; Ok (squeeze hidden_size p)
  else Ok (T3 out).

(** [LaneNet.forward]; [aggre1] is built with [aggre_out=False] and
    returns its [out], [aggre2] with [aggre_out=True]. *)
Definition LaneNet_forward (self : LaneNet) (hidden_size P : nat) (feats : list segment)
  : res tensor :=
  let x := on_points (proj self) feats in
  x <- PointAggregateBlock_out (aggre1 self) P x ;;
  PointAggregateBlock_forward (aggre2 self) true hidden_size P x.

(** What a block makes of one segment, and the encoder of one segment. *)
Definition aggregate (self : Block) (pts : segment) : segment :=
  let a := max_points (map (fc1 self) pts) in
  map (fun p => norm self (vadd p (fc2 self (fc1 self p ++ a)))) pts.

Definition lane_row (self : LaneNet) (pts : segment) : vec :=
  max_points (aggregate (aggre2 self) (aggregate (aggre1 self) (map (proj self) pts))).

(** A lane encoder of two channels, and two segments of two points. *)
Definition example_block : Block := {|
  fc1 := map (fun x => 2 * x);
  fc2 := firstn 2;
  norm := map (fun x => x - 1)
|}.

Definition example_net : LaneNet := {|
  proj := firstn 2;
  aggre1 := example_block;
  aggre2 := example_block
|}.

Definition example_lanes : list segment :=
  [ [[1; 2; 3]; [4; 0; 1]]; [[0; 1; 5]; [2; 2; 2]] ].

End Points.

(** * Properties *)

(** ** Evaluation of the shape operations *)

Module ShapeFacts.
Import Shape.

Lemma shape_eqb_refl (s : shape) : shape_eqb s s = true.
Proof. induction s; cbn; [reflexivity | now rewrite Nat.eqb_refl]. Qed.

Lemma shape_eqb_eq (a b : shape) : shape_eqb a b = true <-> a = b.
Proof.
  revert b; induction a as [|x a IH]; intros [|y b]; cbn; split; try easy.
  - intros [->%Nat.eqb_eq ->%IH]%andb_prop. reflexivity.
  - intros [= -> ->]. now rewrite Nat.eqb_refl, shape_eqb_refl.
Qed.

Lemma norm_dim_nat (d i : nat) : i < d -> norm_dim d (Z.of_nat i) = Ok i.
Proof.
  intros H. unfold norm_dim.
  replace ((0 <=? Z.of_nat i)%Z) with true by (symmetry; apply Z.leb_le; lia).
  replace ((Z.of_nat i <? Z.of_nat d)%Z) with true by (symmetry; apply Z.ltb_lt; lia).
  cbn. now rewrite Nat2Z.id.
Qed.

Lemma norm_dim_0 (d : nat) : 0 < d -> norm_dim d 0 = Ok 0.
Proof. apply (@norm_dim_nat d 0). Qed.

Lemma norm_dim_last (d : nat) : 0 < d -> norm_dim d (-1) = Ok (d - 1).
Proof.
  intros H. unfold norm_dim.
  replace ((0 <=? -1)%Z) with false by reflexivity.
  replace ((-1 <? 0)%Z) with true by reflexivity.
  replace ((- Z.of_nat d <=? -1)%Z) with true by (symmetry; apply Z.leb_le; lia).
  cbn [andb]. f_equal. lia.
Qed.

Lemma clamp_bound_nat (d k : nat) : clamp_bound d (Z.of_nat k) = Nat.min k d.
Proof.
  unfold clamp_bound.
  replace ((Z.of_nat k <? 0)%Z) with false by (symmetry; apply Z.ltb_ge; lia).
  lia.
Qed.

Lemma clamp_bound_last (d : nat) : clamp_bound d (-1) = d - 1.
Proof. unfold clamp_bound. replace ((-1 <? 0)%Z) with true by reflexivity. lia. Qed.

Lemma view_infer_rows (n k h : nat) :
  0 < k -> 0 < h ->
  view [None; Some k; Some h] [n; h * k] = Ok [n; k; h].
Proof.
  intros Hk Hh. unfold view. cbn [count_infer filter length known_numel fold_right numel].
  assert (E : n * (h * k * 1) = n * (k * (h * 1))) by lia.
  rewrite E, Nat.Div0.mod_mul, Nat.div_mul by lia.
  replace (k * (h * 1) =? 0) with false by (symmetry; apply Nat.eqb_neq; nia).
  reflexivity.
Qed.

#[local] Arguments Nat.eqb !_ !_ : simpl nomatch.
#[local] Arguments Nat.leb !_ !_ : simpl nomatch.
#[local] Arguments Nat.ltb !_ !_ : simpl nomatch.
#[local] Arguments Nat.mul !_ !_ : simpl nomatch.
#[local] Arguments Nat.add !_ !_ : simpl nomatch.
#[local] Arguments Nat.div !_ !_ : simpl nomatch.
#[local] Arguments Nat.modulo !_ !_ : simpl nomatch.
#[local] Arguments norm_dim : simpl never.

(** Decide the comparisons left in the goal by linear arithmetic. *)
Ltac decide_tests :=
  repeat match goal with
  | |- context [Nat.eqb ?a ?b] =>
      first [ replace (Nat.eqb a b) with true by (symmetry; apply Nat.eqb_eq; lia)
            | replace (Nat.eqb a b) with false by (symmetry; apply Nat.eqb_neq; lia) ]
  | |- context [Nat.leb ?a ?b] =>
      first [ replace (Nat.leb a b) with true by (symmetry; apply Nat.leb_le; lia)
            | replace (Nat.leb a b) with false by (symmetry; apply Nat.leb_gt; lia) ]
  | |- context [Nat.ltb ?a ?b] =>
      first [ replace (Nat.ltb a b) with true by (symmetry; apply Nat.ltb_lt; lia)
            | replace (Nat.ltb a b) with false by (symmetry; apply Nat.ltb_ge; lia) ]
  end.

(** Evaluate a dimension argument whose rank is known. *)
Ltac eval_dims :=
  repeat match goal with
  | |- context [norm_dim ?r ?d] =>
      let v := eval vm_compute in (norm_dim r d) in
      match v with
      | Ok _ => change (norm_dim r d) with v
      | Raise _ => change (norm_dim r d) with v
      end
  end.

Ltac shape_eval :=
  repeat first
    [ progress cbn
    | progress eval_dims
    | progress rewrite ?Nat.mul_1_l, ?Nat.mul_1_r, ?Nat.add_0_r
    | progress decide_tests ].

Ltac unfold_torch :=
  unfold TransformerEncoder, TransformerEncoderLayer, head, mlp2, proj_block,
    MultiheadAttention, Linear, LayerNorm, ReLU, permute, adaptive_max_pool1d_1,
    repeat_, cat, add_, add, broadcast, squeeze, unsqueeze, slice, select, diff, gradient,
    matmul, slice_len, getattr.

Lemma LaneNet_forward_lanes (in_size hidden_size L : nat) :
  2 <= L -> 2 <= hidden_size ->
  LaneNet_forward in_size hidden_size [L; 10; in_size] = Ok [L; hidden_size].
Proof.
  intros HL HH.
  unfold LaneNet_forward, PointAggregateBlock_forward, _global_maxpool_aggre.
  unfold_torch. shape_eval. reflexivity.
Qed.

Lemma LaneNet_forward_one (in_size hidden_size : nat) :
  2 <= hidden_size ->
  LaneNet_forward in_size hidden_size [1; 10; in_size] = Ok [hidden_size].
Proof.
  intros HH.
  unfold LaneNet_forward, PointAggregateBlock_forward, _global_maxpool_aggre.
  unfold_torch. shape_eval. reflexivity.
Qed.

Lemma view_param (K n : nat) :
  0 < K ->
  view [Some K; None; Some 8; Some 5] [K; n; 40] = Ok [K; n; 8; 5].
Proof.
  intros HK. unfold view.
  cbn [count_infer filter length known_numel fold_right numel].
  assert (E : K * (n * (40 * 1)) = n * (K * (8 * (5 * 1)))) by lia.
  rewrite E, Nat.Div0.mod_mul, Nat.div_mul by lia.
  replace (K * (8 * (5 * 1)) =? 0) with false by (symmetry; apply Nat.eqb_neq; nia).
  reflexivity.
Qed.

Lemma view_logits (K : nat) :
  0 < K -> view [Some K; None] [K; 1; 1] = Ok [K; 1].
Proof.
  intros HK. unfold view.
  cbn [count_infer filter length known_numel fold_right numel].
  assert (E : K * (1 * (1 * 1)) = 1 * (K * 1)) by lia.
  rewrite E, Nat.Div0.mod_mul, Nat.div_mul by lia.
  replace (K * 1 =? 0) with false by (symmetry; apply Nat.eqb_neq; nia).
  reflexivity.
Qed.

Lemma index_rows (idcs : list nat) (A : nat) (r : shape) :
  Forall (fun i => i < A) idcs ->
  index idcs (A :: r) = Ok (length idcs :: r).
Proof.
  intros H. unfold index.
  replace (forallb (fun i => i <? A) idcs) with true; [reflexivity|].
  symmetry. apply forallb_forall. intros i Hi.
  apply Nat.ltb_lt. now apply (proj1 (Forall_forall _ _) H).
Qed.

#[local] Arguments view : simpl never.
#[local] Arguments index : simpl never.
#[local] Arguments clamp_bound : simpl never.

Lemma clamp_bound_2 (d : nat) : clamp_bound d 2 = Nat.min 2 d.
Proof. apply (clamp_bound_nat d 2). Qed.

Lemma clamp_bound_1 (d : nat) : clamp_bound d 1 = Nat.min 1 d.
Proof. apply (clamp_bound_nat d 1). Qed.

(** Run the shape semantics on a goal whose shapes have a known rank. *)
Ltac shape_run :=
  repeat first
    [ progress cbn
    | progress eval_dims
    | rewrite norm_dim_nat by lia
    | rewrite norm_dim_0 by lia
    | progress rewrite ?andb_false_r, ?andb_true_r
    | rewrite view_infer_rows by lia
    | rewrite view_param by lia
    | rewrite view_logits by lia
    | rewrite clamp_bound_2
    | rewrite clamp_bound_1
    | rewrite clamp_bound_nat
    | rewrite clamp_bound_last
    | progress rewrite ?Nat.mul_1_l, ?Nat.mul_1_r, ?Nat.add_0_r, ?Nat.sub_0_r
    | progress decide_tests
    | progress unfold_torch ].

Lemma SceneDecoder_init_basis (po : string) (H S K : nat) (self : SceneDecoder) :
  basis po -> SceneDecoder_init po H S K = Ok self ->
  0 < H /\ hidden_size self = H /\ future_steps self = S /\ num_modes self = K /\
  param_out self = po /\ N_ORDER self = Some 7 /\
  mat_T self = Some [S; 8] /\ mat_Tp self = Some [S; 7] /\ reg_out self = 40.
Proof.
  unfold SceneDecoder_init, MultiheadAttention_init, assert.
  intros [-> | ->]; cbn [bind].
  all: destruct (0 <? H) eqn:E0; cbn [andb]; [|discriminate].
  all: destruct (H mod 4 =? 0) eqn:E4; [|discriminate].
  all: cbn; intros [= <-]; cbn; apply Nat.ltb_lt in E0; repeat split; auto.
Qed.

Lemma SceneDecoder_init_ok (po : string) (H S K : nat) :
  0 < H -> H mod 4 = 0 ->
  SceneDecoder_init po H S K <> Raise AssertionError.
Proof.
  intros H0 H4. unfold SceneDecoder_init, MultiheadAttention_init, assert.
  replace (0 <? H) with true by (symmetry; apply Nat.ltb_lt; lia).
  rewrite H4. cbn.
  repeat match goal with |- context [if ?b then _ else _] => destruct b end; discriminate.
Qed.

Lemma SceneDecoder_scene_basis (self : SceneDecoder) (po : string) (H S K B A idx : nat)
  (a_idcs : list nat) :
  basis po -> SceneDecoder_init po H S K = Ok self ->
  0 < K -> idx < B -> Forall (fun i => i < A) a_idcs ->
  SceneDecoder_scene self [B; H] [A; H] [B; H] idx a_idcs
  = Ok ([1; K], [length a_idcs; K; S; 5],
        ([length a_idcs; K; S; 2], [length a_idcs; K; S; 3],
         Some [K; length a_idcs; 8; 5])).
Proof.
  intros Hpo Hinit HK Hidx Hall.
  destruct (SceneDecoder_init_basis _ _ _ Hpo Hinit)
    as (H0 & EH & ES & EK & Epo & EN & ET & ETp & ER).
  unfold SceneDecoder_scene, SceneDecoder_regress, mode_proj.
  rewrite EH, EK, Epo, EN, ET, ETp, ER.
  rewrite (index_rows _ Hall).
  remember (length a_idcs) as n eqn:En. clear En Hall.
  assert (Hn : n = 1 \/ n <> 1) by lia.
  destruct Hpo as [-> | ->]; cbn [String.eqb Ascii.eqb Bool.eqb];
    destruct Hn; subst; shape_run; reflexivity.
Qed.

Lemma SceneDecoder_init_none (H S K : nat) (self : SceneDecoder) :
  SceneDecoder_init "none" H S K = Ok self ->
  0 < H /\ hidden_size self = H /\ num_modes self = K /\
  param_out self = "none"%string /\ N_ORDER self = None /\ reg_out self = S * 5.
Proof.
  unfold SceneDecoder_init, MultiheadAttention_init, assert. cbn [bind].
  destruct (0 <? H) eqn:E0; cbn [andb]; [|discriminate].
  destruct (H mod 4 =? 0) eqn:E4; [|discriminate].
  cbn; intros [= <-]; cbn; apply Nat.ltb_lt in E0; repeat split; auto.
Qed.

Lemma SceneDecoder_scene_none (self : SceneDecoder) (H S K B A idx : nat)
  (a_idcs : list nat) :
  SceneDecoder_init "none" H S K = Ok self ->
  0 < K -> idx < B -> Forall (fun i => i < A) a_idcs ->
  SceneDecoder_scene self [B; H] [A; H] [B; H] idx a_idcs = Raise AttributeError.
Proof.
  intros Hinit HK Hidx Hall.
  destruct (SceneDecoder_init_none _ _ _ Hinit) as (H0 & EH & EK & Epo & EN & ER).
  unfold SceneDecoder_scene, SceneDecoder_regress, mode_proj.
  rewrite EH, EK, Epo, EN, ER.
  rewrite (index_rows _ Hall).
  remember (length a_idcs) as n eqn:En. clear En Hall.
  assert (Hn : n = 1 \/ n <> 1) by lia.
  cbn [String.eqb Ascii.eqb Bool.eqb].
  destruct Hn; subst; shape_run; reflexivity.
Qed.

Lemma SceneDecoder_tgt (B H : nat) (tgt_feat : shape) :
  tgt_feat_of B H tgt_feat ->
  (tgt_rpes <- proj_block (5 * 2 * 2) H [B; 20] ;;
   tgt_feat <- (if length tgt_feat =? 1 then unsqueeze 0 tgt_feat else Ok tgt_feat) ;;
   c <- cat [tgt_feat; tgt_rpes] (-1) ;; mlp2 (2 * H) H H c) = Ok [B; H].
Proof.
  intros [-> | [-> ->]]; shape_run; reflexivity.
Qed.

Section DecoderLoop.

Variables (self : SceneDecoder) (B A H : nat).
Variable out : list nat -> scene_out.

Lemma mapM_scenes (actor_idcs : list (list nat)) (k : nat) :
  (forall idx a_idcs, idx < B -> Forall (fun i => i < A) a_idcs ->
     SceneDecoder_scene self [B; H] [A; H] [B; H] idx a_idcs = Ok (out a_idcs)) ->
  k + length actor_idcs <= B ->
  Forall (Forall (fun i => i < A)) actor_idcs ->
  mapM (fun '(idx, a_idcs) => SceneDecoder_scene self [B; H] [A; H] [B; H] idx a_idcs)
       (combine (seq k (length actor_idcs)) actor_idcs)
  = Ok (map out actor_idcs).
Proof.
  intros Hbody. revert k.
  induction actor_idcs as [|a l IH]; intros k Hk Hall; [reflexivity|].
  inversion Hall as [|? ? Ha Hl]; subst.
  cbn [length seq combine mapM] in *.
  rewrite Hbody by (auto; lia). cbn [bind].
  rewrite IH by (auto; lia). reflexivity.
Qed.

End DecoderLoop.

Lemma SceneDecoder_forward_basis (self : SceneDecoder) (po : string)
  (H S K B A : nat) (actor_idcs : list (list nat)) (tgt_feat : shape) :
  basis po -> SceneDecoder_init po H S K = Ok self ->
  0 < K -> length actor_idcs <= B ->
  Forall (Forall (fun i => i < A)) actor_idcs ->
  tgt_feat_of B H tgt_feat ->
  SceneDecoder_forward self [B; H] [A; H] actor_idcs tgt_feat [B; 20]
  = Ok (map (fun _ => [1; K]) actor_idcs,
        map (fun a => [length a; K; S; 5]) actor_idcs,
        map (fun a => ([length a; K; S; 2], [length a; K; S; 3],
                       Some [K; length a; 8; 5])) actor_idcs).
Proof.
  intros Hpo Hinit HK HB Hall Htgt.
  pose proof (SceneDecoder_init_basis _ _ _ Hpo Hinit) as (H0 & EH & _).
  unfold SceneDecoder_forward. rewrite EH.
  pose proof (SceneDecoder_tgt Htgt) as Et.
  destruct (proj_block (5 * 2 * 2) H [B; 20]) as [rp|]; [|discriminate].
  cbn [bind] in *.
  destruct (if length tgt_feat =? 1 then unsqueeze 0 tgt_feat else Ok tgt_feat)
    as [tf|]; [|discriminate].
  cbn [bind] in *. rewrite Et. cbn [bind].
  rewrite (@mapM_scenes self B A H
             (fun a => ([1; K], [length a; K; S; 5],
                        ([length a; K; S; 2], [length a; K; S; 3],
                         Some [K; length a; 8; 5])))); auto.
  - cbn [bind]. rewrite !map_map. reflexivity.
  - intros. eapply SceneDecoder_scene_basis; eauto.
Qed.

Lemma SceneDecoder_forward_none (self : SceneDecoder)
  (H S K B A : nat) (actor_idcs : list (list nat)) (tgt_feat : shape) :
  SceneDecoder_init "none" H S K = Ok self ->
  0 < K -> 0 < length actor_idcs <= B ->
  Forall (Forall (fun i => i < A)) actor_idcs ->
  tgt_feat_of B H tgt_feat ->
  SceneDecoder_forward self [B; H] [A; H] actor_idcs tgt_feat [B; 20]
  = Raise AttributeError.
Proof.
  intros Hinit HK HB Hall Htgt.
  pose proof (SceneDecoder_init_none _ _ _ Hinit) as (H0 & EH & _).
  unfold SceneDecoder_forward. rewrite EH.
  pose proof (SceneDecoder_tgt Htgt) as Et.
  destruct (proj_block (5 * 2 * 2) H [B; 20]) as [rp|]; [|discriminate].
  cbn [bind] in *.
  destruct (if length tgt_feat =? 1 then unsqueeze 0 tgt_feat else Ok tgt_feat)
    as [tf|]; [|discriminate].
  cbn [bind] in *. rewrite Et. cbn [bind].
  destruct actor_idcs as [|a l]; [cbn in HB; lia|].
  inversion Hall; subst.
  cbn [length seq combine mapM] in *.
  erewrite SceneDecoder_scene_none; eauto; lia.
Qed.

Lemma SceneDecoder_forward_rpe (self : SceneDecoder) (ctx actors : shape)
  (actor_idcs : list (list nat)) (tgt_feat : shape) (B d : nat) :
  d <> 20 ->
  SceneDecoder_forward self ctx actors actor_idcs tgt_feat [B; d] = Raise RuntimeError.
Proof.
  intros Hd. unfold SceneDecoder_forward. shape_run. reflexivity.
Qed.

End ShapeFacts.

(** ** Sums, binomial coefficients and the Bernstein basis *)

Module NumFacts.
Import Num.
Local Open Scope R_scope.

Lemma sum_nil : sum [] = 0.
Proof. reflexivity. Qed.

Lemma sum_cons (x : R) (v : vec) : sum (x :: v) = x + sum v.
Proof. reflexivity. Qed.

#[local] Arguments sum : simpl never.

Ltac sum_ind l :=
  induction l as [|? ? IH]; cbn [map app]; rewrite ?sum_cons, ?sum_nil;
  [try lra | try (rewrite IH; lra)].

Lemma sum_app (u v : vec) : sum (u ++ v) = sum u + sum v.
Proof. sum_ind u. Qed.

Lemma sum_map_ext {A : Type} (f g : A -> R) (l : list A) :
  (forall i, In i l -> f i = g i) -> sum (map f l) = sum (map g l).
Proof. intros H. f_equal. now apply map_ext_in. Qed.

Lemma sum_map_plus {A : Type} (f g : A -> R) (l : list A) :
  sum (map (fun i => f i + g i) l) = sum (map f l) + sum (map g l).
Proof. sum_ind l. Qed.

Lemma sum_map_minus {A : Type} (f g : A -> R) (l : list A) :
  sum (map (fun i => f i - g i) l) = sum (map f l) - sum (map g l).
Proof. sum_ind l. Qed.

Lemma sum_map_scal {A : Type} (c : R) (f : A -> R) (l : list A) :
  sum (map (fun i => c * f i) l) = c * sum (map f l).
Proof. sum_ind l. Qed.

Lemma sum_map_zero {A : Type} (f : A -> R) (l : list A) :
  (forall i, In i l -> f i = 0) -> sum (map f l) = 0.
Proof.
  induction l as [|x l IH]; cbn [map]; intros H; [reflexivity|].
  rewrite sum_cons, (H x), IH by (intros; try apply H; cbn; auto). lra.
Qed.

Lemma sum_seq_last (f : nat -> R) (a m : nat) :
  sum (map f (seq a (S m))) = sum (map f (seq a m)) + f (a + m)%nat.
Proof. rewrite seq_S, map_app, sum_app. cbn [map]. rewrite sum_cons, sum_nil. lra. Qed.

Lemma sum_seq_first (f : nat -> R) (m : nat) :
  sum (map f (seq 0 (S m))) = f O + sum (map (fun i => f (S i)) (seq 0 m)).
Proof. cbn [seq map]. now rewrite sum_cons, <- seq_shift, map_map. Qed.

(** A sum that has a single non-zero term. *)
Lemma sum_single (f : nat -> R) (m k : nat) :
  (k < m)%nat -> (forall i, (i < m)%nat -> i <> k -> f i = 0) ->
  sum (map f (seq 0 m)) = f k.
Proof.
  intros Hk Hz.
  replace m with (k + S (m - S k))%nat by lia.
  rewrite seq_app, map_app, sum_app. cbn [seq map Nat.add].
  rewrite sum_cons, !sum_map_zero; [lra | |].
  - intros i Hi%in_seq. apply Hz; lia.
  - intros i Hi%in_seq. apply Hz; lia.
Qed.

(** [math.comb]: the two absorption identities. *)
Lemma comb_gt (n k : nat) : (n < k)%nat -> comb n k = O.
Proof.
  revert k; induction n as [|n IH]; intros [|k] H; cbn; try lia.
  rewrite !IH by lia. reflexivity.
Qed.

Lemma comb_diag (n : nat) : comb n n = 1%nat.
Proof. induction n as [|n IH]; cbn; [reflexivity|]. rewrite IH, comb_gt by lia. lia. Qed.

Lemma comb_0_r (n : nat) : comb n 0 = 1%nat.
Proof. destruct n; reflexivity. Qed.

Lemma comb_absorb (n k : nat) :
  (S k * comb (S n) (S k) = S n * comb n k)%nat.
Proof.
  revert k; induction n as [|n IH]; intros k.
  - destruct k as [|k]; cbn; [reflexivity|]. lia.
  - change (comb (S (S n)) (S k)) with (comb (S n) k + comb (S n) (S k))%nat.
    destruct k as [|k].
    + specialize (IH O). rewrite !comb_0_r in *. cbn [comb] in *. lia.
    + pose proof (IH k) as I1. pose proof (IH (S k)) as I2.
      change (comb (S n) (S k)) with (comb n k + comb n (S k))%nat in *.
      change (comb (S n) (S (S k))) with (comb n (S k) + comb n (S (S k)))%nat in *.
      nia.
Qed.

Lemma comb_absorb_sub (n k : nat) :
  ((S n - k) * comb (S n) k = S n * comb n k)%nat.
Proof.
  destruct k as [|k]; [rewrite !comb_0_r; lia|].
  destruct (Nat.le_gt_cases (S k) (S n)) as [Hle | Hgt].
  - pose proof (comb_absorb n k) as A.
    change (comb (S n) (S k)) with (comb n k + comb n (S k))%nat in *.
    remember (S n - S k)%nat as d eqn:Ed.
    assert (Hn : S n = (d + S k)%nat) by lia.
    clear Ed Hle. rewrite Hn in *. clear Hn.
    set (a := comb n k) in *. set (b := comb n (S k)) in *.
    clearbody a b. nia.
  - rewrite (comb_gt (n := S n)), (comb_gt (n := n)) by lia. lia.
Qed.

(** *** The derivative of a Bezier curve *)

Lemma bernstein_derivable (n i : nat) (t : R) :
  derivable_pt_lim (bernstein n i) t (bernstein_d n i t).
Proof.
  assert (D1 : derivable_pt_lim (fun x => 1 - x) t (0 - 1)).
  { apply (derivable_pt_lim_minus (fct_cte 1) id);
      [apply derivable_pt_lim_const | apply derivable_pt_lim_id]. }
  assert (D2 : derivable_pt_lim (fun x => (1 - x) ^ (n - i)) t
                 (INR (n - i) * (1 - t) ^ pred (n - i) * (0 - 1))).
  { apply (derivable_pt_lim_comp (fun x => 1 - x) (fun y => y ^ (n - i)));
      [exact D1 | apply derivable_pt_lim_pow]. }
  pose proof (derivable_pt_lim_scal _ (INR (comb n i)) _ _ D2) as D3.
  pose proof (derivable_pt_lim_mult _ _ _ _ _ D3 (derivable_pt_lim_pow t i)) as D4.
  unfold bernstein_d.
  match type of D4 with derivable_pt_lim _ _ ?l =>
    match goal with |- derivable_pt_lim _ _ ?l' => replace l' with l end
  end.
  - exact D4.
  - unfold mult_real_fct. ring.
Qed.

Lemma sum_derivable (f : nat -> R -> R) (f' : nat -> R) (l : list nat) (t : R) :
  (forall i, In i l -> derivable_pt_lim (f i) t (f' i)) ->
  derivable_pt_lim (fun x => sum (map (fun i => f i x) l)) t (sum (map f' l)).
Proof.
  induction l as [|a l IH]; intros H.
  - apply (derivable_pt_lim_const 0).
  - apply (derivable_pt_lim_plus (f a) (fun x => sum (map (fun i => f i x) l))).
    + apply H. now left.
    + apply IH. intros i Hi. apply H. now right.
Qed.

Lemma bezier_curve_derivable (P : vec) (t : R) :
  derivable_pt_lim (bezier_curve P) t
    (sum (map (fun i => bernstein_d (length P - 1) i t * nth i P 0) (seq 0 (length P)))).
Proof.
  apply (sum_derivable (fun i x => bernstein (length P - 1) i x * nth i P 0)).
  intros i _.
  pose proof (derivable_pt_lim_mult _ _ _ _ _
                (bernstein_derivable (length P - 1) i t)
                (derivable_pt_lim_const (nth i P 0) t)) as D.
  match type of D with derivable_pt_lim _ _ ?l =>
    match goal with |- derivable_pt_lim _ _ ?l' => replace l' with l end
  end.
  - exact D.
  - unfold fct_cte. ring.
Qed.

(** Term by term, the derivative of the Bernstein polynomial of degree
    [S m] is a difference of two polynomials of degree [m]. *)
Lemma bernstein_d_diff (m i : nat) (t : R) :
  bernstein_d (S m) i t
  = match i with
    | O => 0
    | S i' => bernstein_p (S m) i' t
    end - bernstein_p (S m) i t.
Proof.
  unfold bernstein_d, bernstein_p.
  replace (S m - 1)%nat with m by lia.
  assert (E1 : INR (comb (S m) i) * INR (S m - i) = INR (S m * comb m i)).
  { rewrite <- mult_INR. f_equal. rewrite Nat.mul_comm. apply comb_absorb_sub. }
  assert (E2 : (1 - t) ^ pred (S m - i) * INR (S m * comb m i)
               = (1 - t) ^ (m - i) * INR (S m * comb m i)).
  { destruct (Nat.le_gt_cases i m) as [Hle | Hgt].
    - replace (pred (S m - i)) with (m - i)%nat by lia. reflexivity.
    - rewrite (comb_gt (n := m)) by lia. rewrite Nat.mul_0_r. cbn [INR]. ring. }
  destruct i as [|i'].
  - cbn [pred INR]. rewrite Nat.sub_0_r in *.
    transitivity (0 - ((1 - t) ^ pred (S m) * (INR (comb (S m) 0) * INR (S m))) * t ^ 0); [ring|].
    rewrite E1, E2. ring.
  - assert (E3 : INR (comb (S m) (S i')) * INR (S i') = INR (S m * comb m i')).
    { rewrite <- mult_INR. f_equal. rewrite Nat.mul_comm. apply comb_absorb. }
    cbn [pred].
    transitivity ((1 - t) ^ (S m - S i') * (INR (comb (S m) (S i')) * INR (S i')) * t ^ i'
                  - ((1 - t) ^ pred (S m - S i') * (INR (comb (S m) (S i')) * INR (S m - S i')))
                    * t ^ S i'); [ring|].
    rewrite E1, E2, E3. replace (S m - S i')%nat with (m - i')%nat by lia. ring.
Qed.

Lemma bernstein_p_top (n : nat) (t : R) : bernstein_p n n t = 0.
Proof.
  unfold bernstein_p. destruct n as [|m]; [cbn; ring|].
  replace (S m - 1)%nat with m by lia.
  rewrite comb_gt by lia. rewrite Nat.mul_0_r. cbn [INR]. ring.
Qed.

(** Summation by parts: the derivative of the curve of degree [n] is the
    curve of degree [n - 1] over the differences of the control values,
    with the factor [n] that [bernstein_p] carries. *)
Lemma bezier_derivative_sum (P : vec) (n : nat) (t : R) :
  length P = S n ->
  sum (map (fun i => bernstein_d n i t * nth i P 0) (seq 0 (S n)))
  = sum (map (fun i => bernstein_p n i t * (nth (S i) P 0 - nth i P 0)) (seq 0 n)).
Proof.
  intros HP. destruct n as [|m].
  - cbn [seq map]. rewrite sum_cons, !sum_nil. unfold bernstein_d. cbn. ring.
  - rewrite (sum_map_ext
               (fun i => bernstein_d (S m) i t * nth i P 0)
               (fun i => match i with
                         | O => 0
                         | S i' => bernstein_p (S m) i' t
                         end * nth i P 0
                         - bernstein_p (S m) i t * nth i P 0))
      by (intros i _; rewrite bernstein_d_diff; ring).
    rewrite sum_map_minus.
    rewrite sum_seq_first.
    rewrite (sum_seq_last (fun i => bernstein_p (S m) i t * nth i P 0)).
    cbn [Nat.add]. rewrite bernstein_p_top.
    rewrite (sum_map_ext
               (fun i => bernstein_p (S m) i t * (nth (S i) P 0 - nth i P 0))
               (fun i => bernstein_p (S m) i t * nth (S i) P 0
                         - bernstein_p (S m) i t * nth i P 0))
      by (intros; ring).
    rewrite sum_map_minus. ring.
Qed.

(** *** Lists, matrices and tensors *)

Lemma nth_map_in {A B : Type} (f : A -> B) (l : list A) (i : nat) (d : A) (d' : B) :
  (i < length l)%nat -> nth i (map f l) d' = f (nth i l d).
Proof.
  intros H. rewrite (nth_indep _ d' (f d)) by now rewrite length_map.
  apply map_nth.
Qed.

Lemma nth_map_seq {B : Type} (f : nat -> B) (n i : nat) (d : B) :
  (i < n)%nat -> nth i (map f (seq 0 n)) d = f i.
Proof.
  intros H. rewrite (nth_map_in f _ O) by now rewrite length_seq.
  now rewrite seq_nth.
Qed.

Lemma map_nth_seq (r : vec) : map (fun c => nth c r 0) (seq 0 (length r)) = r.
Proof.
  apply (nth_ext _ _ 0 0).
  - now rewrite length_map, length_seq.
  - intros i Hi. rewrite length_map, length_seq in Hi. now rewrite nth_map_seq.
Qed.

Lemma linspace_length (a b : R) (n : nat) : length (linspace a b n) = n.
Proof. unfold linspace. now rewrite length_map, length_seq. Qed.

Lemma linspace_first (n : nat) : (0 < n)%nat -> nth 0 (linspace 0 1 n) 0 = 0.
Proof.
  intros H. unfold linspace. rewrite nth_map_seq by lia.
  destruct (1 <? n)%nat eqn:E1; cbn [andb INR].
  - apply Nat.ltb_lt in E1.
    replace (0 =? n - 1)%nat with false by (symmetry; apply Nat.eqb_neq; lia).
    ring.
  - ring.
Qed.

Lemma linspace_last (n : nat) : (2 <= n)%nat -> nth (n - 1) (linspace 0 1 n) 0 = 1.
Proof.
  intros H. unfold linspace. rewrite nth_map_seq by lia.
  replace (1 <? n)%nat with true by (symmetry; apply Nat.ltb_lt; lia).
  now rewrite Nat.eqb_refl.
Qed.

(** The rows of a matrix that is built column by column and transposed. *)
Lemma basis_row (g : nat -> R -> R) (m n_step j : nat) :
  (j < n_step)%nat ->
  nth j (transpose 0 n_step
           (map (fun i => map (g i) (linspace 0 1 n_step)) (seq 0 m))) []
  = map (fun i => g i (nth j (linspace 0 1 n_step) 0)) (seq 0 m).
Proof.
  intros Hj. unfold transpose. rewrite nth_map_seq by assumption.
  rewrite map_map. apply map_ext. intros i.
  apply nth_map_in. now rewrite linspace_length.
Qed.

Lemma basis_length (g : nat -> R -> R) (m n_step : nat) :
  length (transpose 0 n_step
            (map (fun i => map (g i) (linspace 0 1 n_step)) (seq 0 m))) = n_step.
Proof. unfold transpose. now rewrite length_map, length_seq. Qed.

Lemma dot_map_seq (f : nat -> R) (v : vec) :
  dot (map f (seq 0 (length v))) v
  = sum (map (fun i => f i * nth i v 0) (seq 0 (length v))).
Proof.
  unfold dot. f_equal.
  apply (nth_ext _ _ 0 0).
  - now rewrite !length_map, length_combine, length_map, length_seq, Nat.min_id.
  - intros i Hi.
    rewrite length_map, length_combine, length_map, length_seq, Nat.min_id in Hi.
    rewrite nth_map_seq by assumption.
    rewrite (nth_map_in _ _ (0, 0))
      by now rewrite length_combine, length_map, length_seq, Nat.min_id.
    rewrite combine_nth by now rewrite length_map, length_seq.
    cbn [fst snd]. now rewrite nth_map_seq.
Qed.

Lemma column_length (c : nat) (B : matrix) : length (column c B) = length B.
Proof. apply length_map. Qed.

Lemma column_nth (c i : nat) (B : matrix) :
  nth i (column c B) 0 = nth c (row B i) 0.
Proof.
  unfold column, row.
  destruct (Nat.lt_ge_cases i (length B)) as [Hi | Hi].
  - exact (nth_map_in (fun row => nth c row 0) B [] 0 Hi).
  - rewrite (nth_overflow (map _ B)) by now rewrite length_map.
    rewrite (nth_overflow B) by assumption. now destruct c.
Qed.

Lemma matmul_length (A B : matrix) : length (matmul A B) = length A.
Proof. apply length_map. Qed.

Lemma matmul_row (A B : matrix) (j : nat) :
  (j < length A)%nat ->
  row (matmul A B) j = map (fun c => dot (row A j) (column c B)) (seq 0 (ncols B)).
Proof.
  intros Hj. unfold row, matmul.
  exact (nth_map_in (fun r => map (fun c => dot r (column c B)) (seq 0 (ncols B))) A [] [] Hj).
Qed.

Lemma is_matrix_ncols (r c : nat) (B : matrix) :
  is_matrix r c B -> (0 < r)%nat -> ncols B = c.
Proof.
  intros [HL HF] Hr. destruct B as [|x B]; [cbn in HL; lia|].
  cbn. now inversion HF.
Qed.

Lemma is_matrix_row (r c : nat) (B : matrix) (i : nat) :
  is_matrix r c B -> (i < r)%nat -> length (row B i) = c.
Proof.
  intros [HL HF] Hi. unfold row.
  apply (proj1 (Forall_forall _ _) HF). apply nth_In. lia.
Qed.

Lemma is_matrix_map (r c c' : nat) (f : vec -> vec) (B : matrix) :
  is_matrix r c B -> (forall v, length v = c -> length (f v) = c') ->
  is_matrix r c' (map f B).
Proof.
  intros [HL HF] Hf. split; [now rewrite length_map|].
  apply Forall_map. eapply Forall_impl; [|exact HF]. auto.
Qed.

Lemma row_map (f : vec -> vec) (B : matrix) (i : nat) :
  f [] = [] -> row (map f B) i = f (row B i).
Proof. intros Hf. unfold row. rewrite <- Hf at 1. apply map_nth. Qed.

Lemma diff_rows_length (P : matrix) : length (diff_rows P) = (length P - 1)%nat.
Proof.
  induction P as [|a [|b r] IH]; try reflexivity.
  cbn [diff_rows length] in *. rewrite IH. lia.
Qed.

Lemma diff_rows_row (P : matrix) (i : nat) :
  (S i < length P)%nat -> row (diff_rows P) i = vsub (row P (S i)) (row P i).
Proof.
  revert i; induction P as [|a [|b r] IH]; intros i Hi; cbn [length] in Hi; try lia.
  destruct i as [|i]; [reflexivity|].
  cbn [diff_rows]. unfold row in *. cbn [nth]. apply IH. cbn [length]. lia.
Qed.

Lemma vsub_nth (u v : vec) (c : nat) :
  length u = length v -> nth c (vsub u v) 0 = nth c u 0 - nth c v 0.
Proof.
  intros HL. unfold vsub.
  destruct (Nat.lt_ge_cases c (length u)) as [Hc | Hc].
  - rewrite (nth_map_in _ _ (0, 0)) by (rewrite length_combine; lia).
    now rewrite combine_nth.
  - rewrite !nth_overflow; try lia; [ring|].
    rewrite length_map, length_combine. lia.
Qed.

Lemma diff_rows_column (r w c : nat) (P : matrix) (i : nat) :
  is_matrix r w P -> (S i < r)%nat ->
  nth i (column c (diff_rows P)) 0 = nth (S i) (column c P) 0 - nth i (column c P) 0.
Proof.
  intros HP Hi. rewrite !column_nth.
  rewrite diff_rows_row by (destruct HP; lia).
  apply vsub_nth. now rewrite !(is_matrix_row HP) by lia.
Qed.

(** *** Entries of the tensors that the decoder builds *)

Lemma has_shape4_entry (d0 d1 r c : nat) (t : tensor4) (a b : nat) :
  has_shape4 d0 d1 r c t -> (a < d0)%nat -> (b < d1)%nat ->
  length (nth a t []) = d1 /\ is_matrix r c (entry4 t a b).
Proof.
  intros [HL HF] Ha Hb.
  assert (Hin : In (nth a t []) t) by (apply nth_In; lia).
  destruct (proj1 (Forall_forall _ _) HF _ Hin) as [H1 H2].
  split; [assumption|].
  apply (proj1 (Forall_forall _ _) H2). apply nth_In. lia.
Qed.

Lemma has_shape4_first (d0 d1 r c : nat) (t : tensor4) :
  has_shape4 d0 d1 r c t -> (0 < d0)%nat ->
  match t with [] => O | x :: _ => length x end = d1.
Proof.
  intros [HL HF] H0. destruct t as [|x t]; [cbn in HL; lia|].
  now inversion HF as [|? ? [? ?] ?].
Qed.

Lemma has_shape4_map (d0 d1 r c r' c' : nat) (g : matrix -> matrix) (t : tensor4) :
  has_shape4 d0 d1 r c t ->
  (forall m, is_matrix r c m -> is_matrix r' c' (g m)) ->
  has_shape4 d0 d1 r' c' (map (map g) t).
Proof.
  intros [HL HF] Hg. split; [now rewrite length_map|].
  apply Forall_map. eapply Forall_impl; [|exact HF].
  intros x [H1 H2]. split; [now rewrite length_map|].
  apply Forall_map. eapply Forall_impl; [|exact H2]. auto.
Qed.

Lemma entry4_map (g : matrix -> matrix) (t : tensor4) (a b : nat) :
  (a < length t)%nat -> (b < length (nth a t []))%nat ->
  entry4 (map (map g) t) a b = g (entry4 t a b).
Proof.
  intros Ha Hb. unfold entry4.
  rewrite (nth_map_in (map g) t [] [] Ha).
  exact (nth_map_in g (nth a t []) [] [] Hb).
Qed.

Lemma has_shape4_permute (d0 d1 r c : nat) (t : tensor4) :
  has_shape4 d0 d1 r c t -> (0 < d0)%nat ->
  has_shape4 d1 d0 r c (permute_1023 t).
Proof.
  intros Ht H0. unfold permute_1023. rewrite (has_shape4_first Ht H0).
  unfold transpose. split; [now rewrite length_map, length_seq|].
  apply Forall_map, Forall_forall. intros j Hj%in_seq.
  split; [rewrite length_map; apply Ht|].
  apply Forall_map, Forall_forall. intros x Hx.
  destruct Ht as [HL HF].
  destruct (proj1 (Forall_forall _ _) HF _ Hx) as [H1 H2].
  apply (proj1 (Forall_forall _ _) H2). apply nth_In.
  unfold matrix, vec in *. lia.
Qed.

Lemma entry4_permute (d0 d1 r c : nat) (t : tensor4) (a b : nat) :
  has_shape4 d0 d1 r c t -> (a < d1)%nat -> (b < d0)%nat ->
  entry4 (permute_1023 t) a b = entry4 t b a.
Proof.
  intros Ht Ha Hb. unfold permute_1023.
  rewrite (has_shape4_first Ht) by lia.
  unfold entry4, transpose. rewrite nth_map_seq by assumption.
  apply (nth_map_in (fun row => nth a row []) t [] []).
  destruct Ht. unfold tensor4, matrix, vec in *. lia.
Qed.

Lemma is_matrix_firstn (r c k : nat) (m : matrix) :
  is_matrix r c m -> (k <= c)%nat -> is_matrix r k (map (firstn k) m).
Proof.
  intros Hm Hk. apply (is_matrix_map (firstn k) Hm).
  intros v Hv. rewrite length_firstn. lia.
Qed.

Lemma is_matrix_skipn (r c k : nat) (m : matrix) :
  is_matrix r c m -> is_matrix r (c - k) (map (skipn k) m).
Proof.
  intros Hm. apply (is_matrix_map (skipn k) Hm).
  intros v Hv. rewrite length_skipn. lia.
Qed.

Lemma is_matrix_matmul (r c : nat) (A B : matrix) :
  is_matrix r c B -> (0 < r)%nat -> is_matrix (length A) c (matmul A B).
Proof.
  intros HB Hr. split; [apply matmul_length|].
  unfold matmul. apply Forall_map, Forall_forall. intros x _.
  now rewrite length_map, length_seq, (is_matrix_ncols HB).
Qed.

Lemma cat_exp_entry (d0 d1 r c c' : nat) (X Y : tensor4) (a b : nat) :
  has_shape4 d0 d1 r c X -> has_shape4 d0 d1 r c' Y ->
  (a < d0)%nat -> (b < d1)%nat ->
  entry4 (cat_exp X Y) a b
  = map (fun p => fst p ++ map exp (snd p)) (combine (entry4 X a b) (entry4 Y a b)).
Proof.
  intros HX HY Ha Hb.
  destruct (has_shape4_entry HX Ha Hb) as [LX _].
  destruct (has_shape4_entry HY Ha Hb) as [LY _].
  destruct HX as [HLX _], HY as [HLY _].
  unfold entry4, cat_exp.
  unfold tensor4, matrix, vec in *.
  rewrite (nth_map_in _ (combine X Y) ([], []) [])
    by (rewrite length_combine; lia).
  rewrite combine_nth by lia. cbn [fst snd].
  rewrite (nth_map_in _ (combine (nth a X []) (nth a Y [])) ([], []) [])
    by (rewrite length_combine; lia).
  rewrite combine_nth by lia. reflexivity.
Qed.

Lemma cat_exp_row (r c c' : nat) (X Y : matrix) (j : nat) :
  is_matrix r c X -> is_matrix r c' Y -> (j < r)%nat ->
  row (map (fun p => fst p ++ map exp (snd p)) (combine X Y)) j
  = row X j ++ map exp (row Y j).
Proof.
  intros [HX _] [HY _] Hj. unfold row. unfold matrix, vec in *.
  rewrite (nth_map_in _ (combine X Y) ([], []) [])
    by (rewrite length_combine; lia).
  now rewrite combine_nth by lia.
Qed.

(** The trajectory of actor [a] and mode [k] as the loop body assembles
    it from the basis matrix [T]: positions from the first two channels of
    the control points, exponentials of what the remaining channels give. *)
Lemma trajectory_entry (T : matrix) (K n r : nat) (param : tensor4) (a k : nat) :
  has_shape4 K n r 5 param -> (0 < r)%nat -> (a < n)%nat -> (k < K)%nat ->
  entry4 (cat_exp (matmul4 T (permute_1023 (slice_last_to 2 param)))
                  (matmul4 T (permute_1023 (slice_last_from 2 param)))) a k
  = map (fun p => fst p ++ map exp (snd p))
        (combine (matmul T (map (firstn 2) (entry4 param k a)))
                 (matmul T (map (skipn 2) (entry4 param k a)))).
Proof.
  intros Hp Hr Ha Hk.
  assert (H2 : has_shape4 K n r 2 (slice_last_to 2 param)).
  { apply (has_shape4_map (map (firstn 2)) Hp). intros m Hm.
    apply (is_matrix_firstn Hm). lia. }
  assert (H3 : has_shape4 K n r (5 - 2) (slice_last_from 2 param)).
  { apply (has_shape4_map (map (skipn 2)) Hp). intros m Hm.
    apply (is_matrix_skipn 2 Hm). }
  assert (P2 := has_shape4_permute H2 ltac:(lia)).
  assert (P3 := has_shape4_permute H3 ltac:(lia)).
  assert (M2 : has_shape4 n K (length T) 2 (matmul4 T (permute_1023 (slice_last_to 2 param)))).
  { apply (has_shape4_map (matmul T) P2). intros m Hm. now apply (is_matrix_matmul T Hm). }
  assert (M3 : has_shape4 n K (length T) (5 - 2)
                 (matmul4 T (permute_1023 (slice_last_from 2 param)))).
  { apply (has_shape4_map (matmul T) P3). intros m Hm. now apply (is_matrix_matmul T Hm). }
  rewrite (cat_exp_entry M2 M3 Ha Hk).
  destruct (has_shape4_entry P2 Ha Hk) as [L2 _].
  destruct (has_shape4_entry P3 Ha Hk) as [L3 _].
  destruct (has_shape4_entry Hp Hk Ha) as [L _].
  unfold matmul4.
  rewrite !entry4_map
    by (try (destruct P2, P3; unfold tensor4, matrix, vec in *; lia);
        unfold tensor4, matrix, vec in *; lia).
  rewrite (entry4_permute H2 Ha Hk), (entry4_permute H3 Ha Hk).
  unfold slice_last_to, slice_last_from.
  rewrite !entry4_map
    by (try (destruct Hp; unfold tensor4, matrix, vec in *; lia);
        unfold tensor4, matrix, vec in *; lia).
  reflexivity.
Qed.

(** *** Basis matrices applied to control points *)

Lemma is_matrix_diff_rows (r w : nat) (P : matrix) :
  is_matrix r w P -> is_matrix (r - 1) w (diff_rows P).
Proof.
  intros HP. split; [rewrite diff_rows_length; destruct HP; lia|].
  apply Forall_forall. intros x Hx.
  destruct (In_nth _ _ [] Hx) as (i & Hi & <-).
  rewrite diff_rows_length in Hi.
  change (nth i (diff_rows P) []) with (row (diff_rows P) i).
  rewrite diff_rows_row by lia.
  unfold vsub. rewrite length_map, length_combine.
  rewrite !(is_matrix_row HP) by (destruct HP; lia). lia.
Qed.

Lemma column_firstn (k c : nat) (M : matrix) :
  (c < k)%nat -> column c (map (firstn k) M) = column c M.
Proof.
  intros Hc. unfold column. rewrite map_map. apply map_ext. intros r.
  revert c Hc r. induction k as [|k IH]; intros c Hc r; [lia|].
  destruct r as [|x r]; [now destruct c|].
  destruct c as [|c]; [reflexivity|]. cbn [firstn nth]. apply IH. lia.
Qed.

Lemma basis_entry (g : nat -> R -> R) (m w n_step : nat) (P : matrix) (j c : nat) :
  is_matrix m w P -> (0 < m)%nat -> (j < n_step)%nat -> (c < w)%nat ->
  nth c (row (matmul
               (transpose 0 n_step
                  (map (fun i => map (g i) (linspace 0 1 n_step)) (seq 0 m))) P) j) 0
  = sum (map (fun i => g i (nth j (linspace 0 1 n_step) 0) * nth i (column c P) 0)
             (seq 0 m)).
Proof.
  intros HP Hm Hj Hc.
  rewrite matmul_row by now rewrite basis_length.
  rewrite nth_map_seq by now rewrite (is_matrix_ncols HP).
  unfold row at 1. rewrite basis_row by assumption.
  assert (HL : length (column c P) = m) by (rewrite column_length; apply HP).
  rewrite <- HL at 1 2.
  now rewrite (dot_map_seq (fun i => g i (nth j (linspace 0 1 n_step) 0))), HL.
Qed.

Lemma T_bezier_entry (n w n_step : nat) (P : matrix) (j c : nat) :
  is_matrix (n + 1) w P -> (j < n_step)%nat -> (c < w)%nat ->
  nth c (row (matmul (_get_T_matrix_bezier n n_step) P) j) 0
  = bezier_curve (column c P) (nth j (linspace 0 1 n_step) 0).
Proof.
  intros HP Hj Hc. unfold _get_T_matrix_bezier.
  rewrite (basis_entry (fun i t => INR (comb n i) * (1 - t) ^ (n - i) * t ^ i)
             HP ltac:(lia) Hj Hc).
  unfold bezier_curve, bernstein.
  assert (HL : length (column c P) = (n + 1)%nat) by (rewrite column_length; apply HP).
  rewrite HL. replace (n + 1 - 1)%nat with n by lia. reflexivity.
Qed.

Lemma T_monomial_entry (n w n_step : nat) (P : matrix) (j c : nat) :
  is_matrix (n + 1) w P -> (j < n_step)%nat -> (c < w)%nat ->
  nth c (row (matmul (_get_T_matrix_monomial n n_step) P) j) 0
  = monomial_curve (column c P) (nth j (linspace 0 1 n_step) 0).
Proof.
  intros HP Hj Hc. unfold _get_T_matrix_monomial.
  rewrite (basis_entry (fun i t => t ^ i) HP ltac:(lia) Hj Hc).
  unfold monomial_curve.
  assert (HL : length (column c P) = (n + 1)%nat) by (rewrite column_length; apply HP).
  now rewrite HL.
Qed.

Lemma Tp_bezier_entry (n w n_step : nat) (P : matrix) (j c : nat) :
  is_matrix (n + 1) w P -> (0 < n)%nat -> (j < n_step)%nat -> (c < w)%nat ->
  nth c (row (matmul (_get_Tp_matrix_bezier n n_step) (diff_rows P)) j) 0
  = sum (map (fun i => bernstein_p n i (nth j (linspace 0 1 n_step) 0)
                       * (nth (S i) (column c P) 0 - nth i (column c P) 0))
             (seq 0 n)).
Proof.
  intros HP Hn Hj Hc. unfold _get_Tp_matrix_bezier.
  pose proof (is_matrix_diff_rows HP) as HD.
  replace (n + 1 - 1)%nat with n in HD by lia.
  rewrite (basis_entry
             (fun i t => INR (n * comb (n - 1) i) * (1 - t) ^ (n - 1 - i) * t ^ i)
             HD Hn Hj Hc).
  apply sum_map_ext. intros i Hi%in_seq.
  rewrite (diff_rows_column c HP) by lia. reflexivity.
Qed.

(** The velocity that the derivative basis gives is the derivative of the
    curve. *)
Lemma Tp_bezier_derivative (n w n_step : nat) (P : matrix) (j c : nat) :
  is_matrix (n + 1) w P -> (0 < n)%nat -> (j < n_step)%nat -> (c < w)%nat ->
  derivable_pt_lim (bezier_curve (column c P)) (nth j (linspace 0 1 n_step) 0)
    (nth c (row (matmul (_get_Tp_matrix_bezier n n_step) (diff_rows P)) j) 0).
Proof.
  intros HP Hn Hj Hc.
  rewrite (Tp_bezier_entry HP Hn Hj Hc).
  assert (HL : length (column c P) = S n) by (rewrite column_length; destruct HP; lia).
  rewrite <- (bezier_derivative_sum (column c P) _ HL).
  pose proof (bezier_curve_derivable (column c P) (nth j (linspace 0 1 n_step) 0)) as D.
  rewrite HL in D. replace (S n - 1)%nat with n in D by lia. exact D.
Qed.

(** *** Values of the curves at both ends *)

Lemma pow_0_l (i : nat) : (0 < i)%nat -> 0 ^ i = 0.
Proof. intros H. destruct i; [lia|]. cbn. ring. Qed.

Lemma bezier_curve_0 (P : vec) : (0 < length P)%nat -> bezier_curve P 0 = nth 0 P 0.
Proof.
  intros HP. unfold bezier_curve.
  rewrite (sum_single (fun i => bernstein (length P - 1) i 0 * nth i P 0) HP).
  - unfold bernstein. rewrite comb_0_r, Rminus_0_r, pow1. cbn. ring.
  - intros i _ Hi. unfold bernstein. rewrite (pow_0_l (i := i)) by lia. ring.
Qed.

Lemma bezier_curve_1 (P : vec) :
  (0 < length P)%nat -> bezier_curve P 1 = nth (length P - 1) P 0.
Proof.
  intros HP. unfold bezier_curve.
  rewrite (sum_single (fun i => bernstein (length P - 1) i 1 * nth i P 0)
             (k := (length P - 1)%nat)) by (try lia; intros i Hi Hne; unfold bernstein;
               replace (1 - 1) with 0 by ring; rewrite (pow_0_l (i := (length P - 1 - i)%nat)) by lia; ring).
  unfold bernstein. rewrite comb_diag, Nat.sub_diag, pow1. cbn. ring.
Qed.

Lemma monomial_curve_0 (P : vec) : (0 < length P)%nat -> monomial_curve P 0 = nth 0 P 0.
Proof.
  intros HP. unfold monomial_curve.
  rewrite (sum_single (fun i => 0 ^ i * nth i P 0) HP).
  - cbn. ring.
  - intros i _ Hi. rewrite (pow_0_l (i := i)) by lia. ring.
Qed.

Lemma monomial_curve_1 (P : vec) : monomial_curve P 1 = sum P.
Proof.
  unfold monomial_curve.
  rewrite (sum_map_ext (fun i => 1 ^ i * nth i P 0) (fun i => nth i P 0))
    by (intros; rewrite pow1; ring).
  now rewrite map_nth_seq.
Qed.

(** *** Velocities *)

Lemma has_shape4_dims2 (d0 d1 r c : nat) (t : tensor4) :
  has_shape4 d0 d1 r c t -> has_dims2 d0 d1 t.
Proof.
  intros [HL HF]. split; [assumption|].
  eapply Forall_impl; [|exact HF]. now intros x [? _].
Qed.

Lemma has_dims2_map (d0 d1 : nat) (g : matrix -> matrix) (t : tensor4) :
  has_dims2 d0 d1 t -> has_dims2 d0 d1 (map (map g) t).
Proof.
  intros [HL HF]. split; [now rewrite length_map|].
  apply Forall_map. eapply Forall_impl; [|exact HF].
  intros x Hx. now rewrite length_map.
Qed.

Lemma entry4_map_dims (d0 d1 : nat) (g : matrix -> matrix) (t : tensor4) (a b : nat) :
  has_dims2 d0 d1 t -> (a < d0)%nat -> (b < d1)%nat ->
  entry4 (map (map g) t) a b = g (entry4 t a b).
Proof.
  intros [HL HF] Ha Hb. apply entry4_map; [lia|].
  assert (Hin : In (nth a t []) t) by (apply nth_In; lia).
  rewrite (proj1 (Forall_forall _ _) HF _ Hin). assumption.
Qed.

Lemma velocity_entry (Tp : matrix) (q : R) (g : matrix -> matrix) (K n r : nat)
  (param : tensor4) (a k : nat) :
  has_shape4 K n r 5 param -> (a < n)%nat -> (k < K)%nat ->
  entry4 (div4 (matmul4 Tp (map (map g) (permute_1023 (slice_last_to 2 param)))) q) a k
  = map (map (fun x => x / q)) (matmul Tp (g (map (firstn 2) (entry4 param k a)))).
Proof.
  intros Hp Ha Hk.
  assert (H2 : has_shape4 K n r 2 (slice_last_to 2 param)).
  { apply (has_shape4_map (map (firstn 2)) Hp). intros m Hm.
    apply (is_matrix_firstn Hm). lia. }
  assert (P2 := has_shape4_dims2 (has_shape4_permute H2 ltac:(lia))).
  assert (G2 := has_dims2_map g P2).
  assert (M2 := has_dims2_map (matmul Tp) G2).
  unfold div4, matmul4.
  etransitivity; [exact (entry4_map_dims (map (map (fun x => x / q))) M2 Ha Hk)|].
  f_equal.
  etransitivity; [exact (entry4_map_dims (matmul Tp) G2 Ha Hk)|].
  f_equal.
  etransitivity; [exact (entry4_map_dims g P2 Ha Hk)|].
  f_equal.
  rewrite (entry4_permute H2 Ha Hk).
  exact (entry4_map_dims (map (firstn 2)) (has_shape4_dims2 Hp) Hk Ha).
Qed.

Lemma scaled_entry (q : R) (M : matrix) (r w j c : nat) :
  is_matrix r w M -> (j < r)%nat -> (c < w)%nat ->
  nth c (row (map (map (fun x => x / q)) M) j) 0 = nth c (row M j) 0 / q.
Proof.
  intros HM Hj Hc. unfold row.
  rewrite (nth_map_in (map (fun x => x / q)) M [] [])
    by (destruct HM; unfold matrix, vec in *; lia).
  apply (nth_map_in (fun x => x / q) (nth j M []) 0 0).
  fold (row M j). rewrite (is_matrix_row HM); lia.
Qed.

(** *** Softmax *)

Lemma sum_exp_pos (x : vec) : x <> [] -> 0 < sum (map exp x).
Proof.
  intros Hx. destruct x as [|a x]; [congruence|]. clear Hx.
  cbn [map]. rewrite sum_cons.
  assert (0 <= sum (map exp x)).
  { induction x as [|b x IH]; cbn [map]; rewrite ?sum_cons, ?sum_nil; [lra|].
    pose proof (exp_pos b). lra. }
  pose proof (exp_pos a). lra.
Qed.

Lemma softmax_sum (x : vec) : x <> [] -> sum (softmax x) = 1.
Proof.
  intros Hx. unfold softmax.
  pose proof (sum_exp_pos Hx) as HD.
  rewrite (sum_map_ext (fun xi => exp xi / sum (map exp x))
                       (fun xi => / sum (map exp x) * exp xi))
    by (intros; unfold Rdiv; ring).
  rewrite sum_map_scal. field. lra.
Qed.

Lemma softmax_length (x : vec) : length (softmax x) = length x.
Proof. apply length_map. Qed.

(** *** Rows of the emitted trajectories *)

Lemma list2 (v : vec) : length v = 2%nat -> v = [nth 0 v 0; nth 1 v 0].
Proof. destruct v as [|x [|y [|z v]]]; cbn; intros H; try lia. reflexivity. Qed.

Lemma firstn2 (v : vec) : (2 <= length v)%nat -> firstn 2 v = [nth 0 v 0; nth 1 v 0].
Proof. destruct v as [|x [|y v]]; cbn; intros H; try lia. reflexivity. Qed.

Lemma firstn_app_length {A : Type} (u v : list A) : firstn (length u) (u ++ v) = u.
Proof. induction u as [|x u IH]; cbn; [now destruct v | now rewrite IH]. Qed.

Lemma position_is_matrix (T ctrl : matrix) (r : nat) :
  is_matrix r 5 ctrl -> (0 < r)%nat -> is_matrix (length T) 2 (position T ctrl).
Proof.
  intros Hc Hr. unfold position.
  apply (is_matrix_matmul T (r := r)); [|assumption].
  apply (is_matrix_firstn Hc). lia.
Qed.

Lemma log_variance_is_matrix (T ctrl : matrix) (r : nat) :
  is_matrix r 5 ctrl -> (0 < r)%nat -> is_matrix (length T) 3 (log_variance T ctrl).
Proof.
  intros Hc Hr. unfold log_variance.
  apply (is_matrix_matmul T (r := r)); [|assumption].
  apply (is_matrix_skipn 2 Hc).
Qed.

Lemma trajectory_row (T : matrix) (K n r : nat) (param : tensor4) (a k j : nat) :
  has_shape4 K n r 5 param -> (0 < r)%nat -> (a < n)%nat -> (k < K)%nat ->
  (j < length T)%nat ->
  row (entry4 (cat_exp (matmul4 T (permute_1023 (slice_last_to 2 param)))
                       (matmul4 T (permute_1023 (slice_last_from 2 param)))) a k) j
  = row (position T (entry4 param k a)) j
    ++ map exp (row (log_variance T (entry4 param k a)) j).
Proof.
  intros Hp Hr Ha Hk Hj.
  rewrite (trajectory_entry T Hp Hr Ha Hk).
  destruct (has_shape4_entry Hp Hk Ha) as [_ Hc].
  exact (cat_exp_row (position_is_matrix T Hc Hr) (log_variance_is_matrix T Hc Hr) Hj).
Qed.

Lemma trajectory_position (T : matrix) (K n r : nat) (param : tensor4) (a k j : nat) :
  has_shape4 K n r 5 param -> (0 < r)%nat -> (a < n)%nat -> (k < K)%nat ->
  (j < length T)%nat ->
  firstn 2 (row (entry4 (cat_exp (matmul4 T (permute_1023 (slice_last_to 2 param)))
                                 (matmul4 T (permute_1023 (slice_last_from 2 param)))) a k) j)
  = row (position T (entry4 param k a)) j.
Proof.
  intros Hp Hr Ha Hk Hj.
  rewrite (trajectory_row T Hp Hr Ha Hk Hj).
  destruct (has_shape4_entry Hp Hk Ha) as [_ Hc].
  pose proof (is_matrix_row (position_is_matrix T Hc Hr) Hj) as HL.
  rewrite <- HL at 1. apply firstn_app_length.
Qed.

Lemma T_bezier_length (n n_step : nat) : length (_get_T_matrix_bezier n n_step) = n_step.
Proof. apply basis_length. Qed.

Lemma T_monomial_length (n n_step : nat) : length (_get_T_matrix_monomial n n_step) = n_step.
Proof. apply basis_length. Qed.

Lemma Tp_bezier_length (n n_step : nat) : length (_get_Tp_matrix_bezier n n_step) = n_step.
Proof. apply basis_length. Qed.

(** Entries of the sampled positions, for both bases. *)
Lemma position_bezier (n_step : nat) (ctrl : matrix) (j c : nat) :
  is_matrix 8 5 ctrl -> (j < n_step)%nat -> (c < 2)%nat ->
  nth c (row (position (_get_T_matrix_bezier N_ORDER n_step) ctrl) j) 0
  = bezier_curve (column c ctrl) (nth j (linspace 0 1 n_step) 0).
Proof.
  intros Hc Hj Hlt. unfold position.
  assert (H2 : is_matrix (N_ORDER + 1) 2 (map (firstn 2) ctrl))
    by (apply (is_matrix_firstn Hc); lia).
  rewrite (T_bezier_entry N_ORDER H2 Hj Hlt). now rewrite column_firstn.
Qed.

Lemma position_monomial (n_step : nat) (ctrl : matrix) (j c : nat) :
  is_matrix 8 5 ctrl -> (j < n_step)%nat -> (c < 2)%nat ->
  nth c (row (position (_get_T_matrix_monomial N_ORDER n_step) ctrl) j) 0
  = monomial_curve (column c ctrl) (nth j (linspace 0 1 n_step) 0).
Proof.
  intros Hc Hj Hlt. unfold position.
  assert (H2 : is_matrix (N_ORDER + 1) 2 (map (firstn 2) ctrl))
    by (apply (is_matrix_firstn Hc); lia).
  rewrite (T_monomial_entry N_ORDER H2 Hj Hlt). now rewrite column_firstn.
Qed.

Lemma control_point_position (ctrl : matrix) (i : nat) :
  is_matrix 8 5 ctrl -> (i < 8)%nat ->
  firstn 2 (row ctrl i) = [nth i (column 0 ctrl) 0; nth i (column 1 ctrl) 0].
Proof.
  intros Hc Hi. rewrite !column_nth. apply firstn2.
  rewrite (is_matrix_row Hc Hi). lia.
Qed.

(** *** The two regression branches *)

Lemma regress_bezier_reg (S : nat) (param : tensor4) :
  fst (regress_bezier S param)
  = cat_exp (matmul4 (_get_T_matrix_bezier N_ORDER S)
                     (permute_1023 (slice_last_to 2 param)))
            (matmul4 (_get_T_matrix_bezier N_ORDER S)
                     (permute_1023 (slice_last_from 2 param))).
Proof. reflexivity. Qed.

Lemma regress_monomial_reg (S : nat) (param : tensor4) :
  fst (regress_monomial S param)
  = cat_exp (matmul4 (_get_T_matrix_monomial N_ORDER S)
                     (permute_1023 (slice_last_to 2 param)))
            (matmul4 (_get_T_matrix_monomial N_ORDER S)
                     (permute_1023 (slice_last_from 2 param))).
Proof. reflexivity. Qed.

Lemma regress_bezier_vel (S : nat) (param : tensor4) :
  fst (fst (snd (regress_bezier S param)))
  = div4 (matmul4 (_get_Tp_matrix_bezier N_ORDER S)
                  (diff2 (permute_1023 (slice_last_to 2 param))))
         (INR S * (1 / 10)).
Proof. reflexivity. Qed.

Section Boundary.

Variables (S K n : nat) (param : tensor4) (a k : nat).
Hypothesis Hp : has_shape4 K n 8 5 param.
Hypothesis Ha : (a < n)%nat.
Hypothesis Hk : (k < K)%nat.

Let ctrl : matrix := entry4 param k a.

Lemma ctrl_is_matrix : is_matrix 8 5 (entry4 param k a).
Proof. exact (proj2 (has_shape4_entry Hp Hk Ha)). Qed.

Lemma bezier_position_row (j : nat) :
  (j < S)%nat ->
  firstn 2 (row (entry4 (fst (regress_bezier S param)) a k) j)
  = [bezier_curve (column 0 ctrl) (nth j (linspace 0 1 S) 0);
     bezier_curve (column 1 ctrl) (nth j (linspace 0 1 S) 0)].
Proof.
  intros Hj. rewrite regress_bezier_reg.
  rewrite (trajectory_position _ Hp) by (rewrite ?T_bezier_length; lia).
  pose proof ctrl_is_matrix as Hc.
  assert (HT : (j < length (_get_T_matrix_bezier N_ORDER S))%nat)
    by now rewrite T_bezier_length.
  assert (H8 : (0 < 8)%nat) by lia.
  rewrite (list2 _ (is_matrix_row (position_is_matrix _ Hc H8) HT)).
  now rewrite !(position_bezier Hc Hj) by lia.
Qed.

Lemma monomial_position_row (j : nat) :
  (j < S)%nat ->
  firstn 2 (row (entry4 (fst (regress_monomial S param)) a k) j)
  = [monomial_curve (column 0 ctrl) (nth j (linspace 0 1 S) 0);
     monomial_curve (column 1 ctrl) (nth j (linspace 0 1 S) 0)].
Proof.
  intros Hj. rewrite regress_monomial_reg.
  rewrite (trajectory_position _ Hp) by (rewrite ?T_monomial_length; lia).
  pose proof ctrl_is_matrix as Hc.
  assert (HT : (j < length (_get_T_matrix_monomial N_ORDER S))%nat)
    by now rewrite T_monomial_length.
  assert (H8 : (0 < 8)%nat) by lia.
  rewrite (list2 _ (is_matrix_row (position_is_matrix _ Hc H8) HT)).
  now rewrite !(position_monomial Hc Hj) by lia.
Qed.

Lemma column_ctrl_length (c : nat) : length (column c ctrl) = 8%nat.
Proof. rewrite column_length. apply ctrl_is_matrix. Qed.

Lemma bezier_first_position :
  (1 <= S)%nat ->
  firstn 2 (row (entry4 (fst (regress_bezier S param)) a k) 0) = firstn 2 (row ctrl 0).
Proof.
  intros HS. rewrite bezier_position_row by lia.
  rewrite linspace_first by lia.
  rewrite !bezier_curve_0 by (rewrite column_ctrl_length; lia).
  symmetry. apply control_point_position; [apply ctrl_is_matrix | lia].
Qed.

Lemma bezier_last_position :
  (2 <= S)%nat ->
  firstn 2 (row (entry4 (fst (regress_bezier S param)) a k) (S - 1))
  = firstn 2 (row ctrl N_ORDER).
Proof.
  intros HS. rewrite bezier_position_row by lia.
  rewrite linspace_last by lia.
  rewrite !bezier_curve_1 by (rewrite column_ctrl_length; lia).
  rewrite !column_ctrl_length.
  symmetry. apply control_point_position; [apply ctrl_is_matrix | unfold N_ORDER; lia].
Qed.

Lemma monomial_first_position :
  (1 <= S)%nat ->
  firstn 2 (row (entry4 (fst (regress_monomial S param)) a k) 0) = firstn 2 (row ctrl 0).
Proof.
  intros HS. rewrite monomial_position_row by lia.
  rewrite linspace_first by lia.
  rewrite !monomial_curve_0 by (rewrite column_ctrl_length; lia).
  symmetry. apply control_point_position; [apply ctrl_is_matrix | lia].
Qed.

Lemma monomial_last_position :
  (2 <= S)%nat ->
  firstn 2 (row (entry4 (fst (regress_monomial S param)) a k) (S - 1))
  = [sum (column 0 ctrl); sum (column 1 ctrl)].
Proof.
  intros HS. rewrite monomial_position_row by lia.
  rewrite linspace_last by lia.
  now rewrite !monomial_curve_1.
Qed.

(** The emitted velocity is the derivative of the position curve, divided
    by [future_steps * 0.1]. *)
Lemma bezier_velocity (j c : nat) :
  (j < S)%nat -> (c < 2)%nat ->
  exists d,
    derivable_pt_lim (bezier_curve (column c ctrl)) (nth j (linspace 0 1 S) 0) d /\
    nth c (row (entry4 (fst (fst (snd (regress_bezier S param)))) a k) j) 0
    = d / (INR S * (1 / 10)).
Proof.
  intros Hj Hc.
  pose proof ctrl_is_matrix as Hm.
  assert (H2 : is_matrix (N_ORDER + 1) 2 (map (firstn 2) ctrl))
    by (apply (is_matrix_firstn Hm); lia).
  exists (nth c (row (matmul (_get_Tp_matrix_bezier N_ORDER S)
                        (diff_rows (map (firstn 2) ctrl))) j) 0).
  split.
  - rewrite <- (column_firstn (k := 2) ctrl Hc).
    apply (Tp_bezier_derivative H2); [unfold N_ORDER; lia | assumption | assumption].
  - rewrite regress_bezier_vel. unfold diff2.
    rewrite (velocity_entry _ _ diff_rows Hp Ha Hk).
    assert (HM : is_matrix S 2 (matmul (_get_Tp_matrix_bezier N_ORDER S)
                                      (diff_rows (map (firstn 2) ctrl)))).
    { rewrite <- (Tp_bezier_length N_ORDER S) at 1.
      assert (H7 : (0 < N_ORDER + 1 - 1)%nat) by (unfold N_ORDER; lia).
      exact (is_matrix_matmul _ (is_matrix_diff_rows H2) H7). }
    exact (scaled_entry _ HM Hj Hc).
Qed.

End Boundary.

Lemma probabilities_rows (K m : nat) (cls : matrix) :
  (1 <= K)%nat -> is_matrix K m cls ->
  length (probabilities cls) = m /\
  Forall (fun p => length p = K /\ sum p = 1) (probabilities cls).
Proof.
  intros HK Hcls. unfold probabilities, softmax_dim1, permute_10.
  rewrite (is_matrix_ncols Hcls) by lia.
  unfold transpose. split; [now rewrite !length_map, length_seq|].
  rewrite !map_map. apply Forall_map, Forall_forall. intros j _.
  assert (HL : length (map (fun x => x * 1) (map (fun r => nth j r 0) cls)) = K)
    by (rewrite !length_map; apply Hcls).
  assert (Hne : map (fun x => x * 1) (map (fun r => nth j r 0) cls) <> [])
    by (intros E; rewrite E in HL; cbn in HL; lia).
  now rewrite softmax_length, (softmax_sum Hne).
Qed.

Lemma probabilities_entry (K m : nat) (cls : matrix) (s i : nat) :
  (1 <= K)%nat -> is_matrix K m cls -> (s < m)%nat -> (i < K)%nat ->
  nth i (row (probabilities cls) s) 0
  = exp (nth s (row cls i) 0 * 1)
    / sum (map exp (map (fun x => x * 1) (column s cls))).
Proof.
  intros HK Hcls Hs Hi. unfold probabilities, softmax_dim1, permute_10.
  rewrite (is_matrix_ncols Hcls) by lia.
  unfold transpose, row. rewrite !map_map.
  rewrite nth_map_seq by assumption.
  fold (column s cls). unfold softmax.
  assert (HL : length (map (fun x => x * 1) (column s cls)) = K)
    by (rewrite length_map, column_length; apply Hcls).
  rewrite (nth_map_in (fun xi => exp xi / _) _ 0 0) by (rewrite HL; lia).
  rewrite (nth_map_in (fun x => x * 1) _ 0 0)
    by (rewrite column_length, (proj1 Hcls); lia).
  rewrite column_nth, map_map. reflexivity.
Qed.

End NumFacts.


(** ** The edge tensor across the stacked fusion layers *)

Section EdgeUpdate.

Variable T : Type.
Variable torch : Torch T.








End EdgeUpdate.

(** ** The order of the scenes in the results *)

Section ScenesInOrder.

Import Rows.

Context {Hist Lane E Rpe TRpe G Cls Reg Aux : Type}.
Variable net : @Learned Hist Lane E Rpe TRpe G Cls Reg Aux.

(** The fusion network returns one row per token. *)
Hypothesis fuse_length : forall t g, length (fuse_scene net t g) = length t.

Let scene_t : Type := @scene Hist Lane Rpe TRpe.

Let pa (s : scene_t) : list E := map (proj_actor net) (map (actor_enc net) (s_actors s)).
Let pl (s : scene_t) : list E := map (proj_lane net) (map (lane_enc net) (s_lanes s)).
Let na (s : scene_t) : nat := length (s_actors s).
Let nl (s : scene_t) : nat := length (s_lanes s).
Let out (s : scene_t) : list E := scene_fused net s.
Let fa (s : scene_t) : list E := firstn (na s) (out s).
Let fl (s : scene_t) : list E := firstn (length (out s) - 1 - na s) (skipn (na s) (out s)).
Let fc (s : scene_t) : E := last (out s) (cls_token net).
Let tg (s : scene_t) : E := proj_tgt net (lane_enc net (s_tgt s)) (s_tgt_rpe s).

Lemma getitem_middle {A : Type} (pre : list A) (x : A) (post : list A) :
  getitem (pre ++ x :: post) (length pre) = Ok x.
Proof.
  unfold getitem. rewrite nth_error_app2 by lia. now rewrite Nat.sub_diag.
Qed.

Lemma index_range (rows pre post : list E) :
  index (seq (length pre) (length rows)) (pre ++ rows ++ post) = Ok rows.
Proof.
  unfold index. revert pre.
  induction rows as [|r rows IH]; intros pre; [reflexivity|].
  cbn [length seq mapM app]. rewrite getitem_middle. cbn [bind].
  specialize (IH (pre ++ [r])).
  rewrite length_app, Nat.add_1_r, <- app_assoc in IH. cbn [app] in IH.
  now rewrite IH.
Qed.

Lemma getitem_last {A : Type} (l : list A) (d : A) :
  l <> [] -> getitem (rev l) 0 = Ok (last l d).
Proof.
  intros Hl. destruct (exists_last Hl) as (l' & x & ->).
  rewrite rev_app_distr, last_last. reflexivity.
Qed.

Lemma out_length (s : scene_t) : length (out s) = S (na s + nl s).
Proof.
  unfold out, scene_fused. rewrite fuse_length.
  rewrite !length_app, !length_map. cbn [length]. unfold na, nl. lia.
Qed.

Lemma fa_length (s : scene_t) : length (fa s) = na s.
Proof. unfold fa. rewrite length_firstn, out_length. lia. Qed.

Lemma FusionNet_scene_range (s : scene_t) (preA postA preL postL : list E) :
  FusionNet_scene net (preA ++ pa s ++ postA) (Mat (preL ++ pl s ++ postL))
                  (seq (length preA) (na s)) (seq (length preL) (nl s)) (s_rpe s)
  = Ok (fa s, fl s, [fc s]).
Proof.
  unfold FusionNet_scene.
  replace (na s) with (length (pa s)) at 1 by (unfold pa, na; now rewrite !length_map).
  rewrite index_range. cbn [bind].
  replace (nl s) with (length (pl s)) at 1 by (unfold pl, nl; now rewrite !length_map).
  rewrite index_range. cbn [bind].
  rewrite (getitem_last (cls_token net)).
  - cbn [bind]. now rewrite !length_seq.
  - intros E0. apply (f_equal (@length _)) in E0.
    rewrite fuse_length, length_app in E0. cbn [length] in E0. lia.
Qed.

Lemma ranges_length (k : nat) (sizes : list nat) : length (ranges k sizes) = length sizes.
Proof. revert k; induction sizes as [|n r IH]; intros k; cbn; [reflexivity | now rewrite IH]. Qed.

Lemma FusionNet_loop (scenes : list scene_t) :
  forall (actors lanes preA postA preL postL : list E),
    actors = preA ++ concat (map pa scenes) ++ postA ->
    lanes = preL ++ concat (map pl scenes) ++ postL ->
    mapM (fun '(a_idcs, l_idcs, rpes) =>
            FusionNet_scene net actors (Mat lanes) a_idcs l_idcs rpes)
         (Shape.zip3 (ranges (length preA) (map na scenes))
                     (ranges (length preL) (map nl scenes))
                     (map s_rpe scenes))
    = Ok (map (fun s => (fa s, fl s, [fc s])) scenes).
Proof.
  induction scenes as [|s rest IH]; intros actors lanes preA postA preL postL EA EL;
    [reflexivity|].
  cbn [map ranges Shape.zip3 mapM concat] in *.
  rewrite <- !app_assoc in EA, EL.
  rewrite EA at 1. rewrite EL at 1.
  rewrite FusionNet_scene_range. cbn [bind].
  pose proof (IH actors lanes (preA ++ pa s) postA (preL ++ pl s) postL) as IH'.
  rewrite !length_app in IH'.
  replace (length (pa s)) with (na s) in IH' by (unfold pa, na; now rewrite !length_map).
  replace (length (pl s)) with (nl s) in IH' by (unfold pl, nl; now rewrite !length_map).
  rewrite IH'.
  - reflexivity.
  - rewrite EA. now rewrite <- !app_assoc.
  - rewrite EL. now rewrite <- !app_assoc.
Qed.

Lemma LaneNet_forward_rows (feats : list Lane) :
  length feats <> 1 -> LaneNet_forward net feats = Mat (map (lane_enc net) feats).
Proof. destruct feats as [|a [|b r]]; cbn; intros H; [reflexivity | lia | reflexivity]. Qed.

Lemma LaneNet_forward_unsqueezed (feats : list Lane) :
  match LaneNet_forward net feats with
  | Mat l => l
  | Flat e => [e]
  end = map (lane_enc net) feats.
Proof. destruct feats as [|a [|b r]]; reflexivity. Qed.

Lemma lanes_not_single (scenes : list scene_t) :
  scenes <> [] -> (forall s, In s scenes -> 2 <= nl s) ->
  length (concat (map s_lanes scenes)) <> 1.
Proof.
  intros Hne Hall. destruct scenes as [|s rest]; [congruence|].
  cbn [map concat]. rewrite length_app.
  specialize (Hall s (or_introl eq_refl)). unfold nl in Hall. lia.
Qed.

Lemma concat_singletons {A B : Type} (f : A -> B) (l : list A) :
  concat (map (fun x => [f x]) l) = map f l.
Proof. induction l as [|x l IH]; cbn; [reflexivity | now rewrite IH]. Qed.

Lemma FusionNet_forward_batch (scenes : list scene_t) :
  scenes <> [] ->
  FusionNet_forward net (map (actor_enc net) (concat (map s_actors scenes)))
                    (ranges 0 (map na scenes))
                    (Mat (map (lane_enc net) (concat (map s_lanes scenes))))
                    (ranges 0 (map nl scenes)) (map s_rpe scenes)
  = Ok (concat (map fa scenes), concat (map fl scenes), map fc scenes).
Proof.
  intros Hne. unfold FusionNet_forward. cbv zeta.
  rewrite (@FusionNet_loop scenes _ _ [] [] [] []).
  - cbn [bind]. rewrite !map_map. cbn [fst snd].
    rewrite <- (concat_singletons fc scenes).
    destruct scenes as [|s rest]; [congruence|]. reflexivity.
  - cbn [app]. rewrite app_nil_r, !concat_map, !map_map. reflexivity.
  - cbn [app]. rewrite app_nil_r, !concat_map, !map_map. reflexivity.
Qed.

Lemma decoder_loop (rest : list scene_t) :
  forall (ctx actors tgt preC preA postA preT : list E),
    ctx = preC ++ map fc rest ->
    actors = preA ++ concat (map fa rest) ++ postA ->
    tgt = preT ++ map tg rest ->
    length preT = length preC ->
    mapM (fun '(idx, a_idcs) =>
            _ctx <- getitem ctx idx ;;
            _actors <- index a_idcs actors ;;
            t <- getitem tgt idx ;;
            Ok (decode net _ctx _actors t))
         (combine (seq (length preC) (length rest))
                  (ranges (length preA) (map na rest)))
    = Ok (map (scene_out net) rest).
Proof.
  induction rest as [|s rest IH]; intros ctx actors tgt preC preA postA preT EC EA ET EL;
    [reflexivity|].
  cbn [map ranges length seq combine mapM concat] in *.
  rewrite <- !app_assoc in EA.
  rewrite EC at 1. rewrite getitem_middle. cbn [bind].
  rewrite EA at 1. rewrite <- (fa_length s) at 1. rewrite index_range. cbn [bind].
  rewrite ET at 1. rewrite <- EL, getitem_middle. cbn [bind].
  pose proof (IH ctx actors tgt (preC ++ [fc s]) (preA ++ fa s) postA (preT ++ [tg s])) as IH'.
  rewrite !length_app, fa_length in IH'. cbn [length] in IH'.
  rewrite !Nat.add_1_r in IH'.
  rewrite EL. rewrite IH'.
  - reflexivity.
  - rewrite EC, <- app_assoc. reflexivity.
  - rewrite EA, <- !app_assoc. reflexivity.
  - rewrite ET, <- app_assoc. reflexivity.
  - lia.
Qed.

Lemma tgt_rows (scenes : list scene_t) :
  map (fun p => proj_tgt net (fst p) (snd p))
      (combine (map (lane_enc net) (map s_tgt scenes)) (map s_tgt_rpe scenes))
  = map tg scenes.
Proof. induction scenes as [|s rest IH]; cbn; [reflexivity | now rewrite IH]. Qed.

(** A batch of scenes that have at least two lanes each: the results are
    those of the scenes, each from its own rows, in the order of the
    scenes. *)
Lemma ScenePredNet_forward_batch (scenes : list scene_t) :
  scenes <> [] -> (forall s, In s scenes -> 2 <= length (s_lanes s)) ->
  ScenePredNet_forward net (batch_of scenes)
  = Ok (map (fun s => fst (fst (scene_out net s))) scenes,
        map (fun s => snd (fst (scene_out net s))) scenes,
        map (fun s => snd (scene_out net s)) scenes).
Proof.
  intros Hne Hall. unfold ScenePredNet_forward, batch_of. cbv zeta.
  cbn [ACTORS ACTOR_IDCS LANES LANE_IDCS RPE TGT_NODES TGT_RPE].
  rewrite (LaneNet_forward_rows (concat (map s_lanes scenes)))
    by now apply lanes_not_single.
  match goal with
  | |- bind ?c _ = _ =>
      assert (HF : c = Ok (concat (map fa scenes), concat (map fl scenes), map fc scenes))
        by exact (FusionNet_forward_batch Hne);
      rewrite HF
  end.
  cbn [bind].
  unfold SceneDecoder_forward. cbv zeta.
  rewrite LaneNet_forward_unsqueezed, !length_map, Nat.eqb_refl. cbn [bind].
  rewrite tgt_rows, ranges_length, length_map.
  rewrite (@decoder_loop scenes _ _ _ [] [] [] []); try reflexivity.
  - cbn [bind]. now rewrite !map_map.
  - cbn [app]. now rewrite app_nil_r.
Qed.

(** The same scene run alone. *)
Lemma ScenePredNet_forward_alone (s : scene_t) :
  2 <= length (s_lanes s) ->
  ScenePredNet_forward net (batch_of [s])
  = Ok ([fst (fst (scene_out net s))], [snd (fst (scene_out net s))], [snd (scene_out net s)]).
Proof.
  intros H. apply (ScenePredNet_forward_batch (scenes := [s])); [discriminate|].
  intros s' [<- | []]. assumption.
Qed.

(** A scene with a single lane, run alone: the squeezed lane encoding
    cannot be concatenated with the actors. *)
Lemma ScenePredNet_forward_alone_single_lane (s : scene_t) :
  length (s_lanes s) = 1 ->
  ScenePredNet_forward net (batch_of [s]) = Raise RuntimeError.
Proof.
  intros H. unfold ScenePredNet_forward, batch_of. cbv zeta.
  cbn [ACTORS ACTOR_IDCS LANES LANE_IDCS RPE TGT_NODES TGT_RPE map concat ranges].
  rewrite !app_nil_r, H.
  destruct (s_lanes s) as [|l [|l' r]]; try discriminate.
  cbn [LaneNet_forward]. unfold FusionNet_forward. cbv zeta.
  cbn [Shape.zip3 mapM seq]. unfold FusionNet_scene.
  pose proof (index_range (map (proj_actor net) (map (actor_enc net) (s_actors s))) [] [])
    as HI.
  rewrite app_nil_r, !length_map in HI. cbn [app length] in HI.
  rewrite HI. reflexivity.
Qed.

End ScenesInOrder.

(** * The contract of the forward computation *)

(** ** Relational fusion: the edge tensor *)



(** ** The mode probabilities *)

Section Probabilities.

Import Num NumFacts Classification.
Local Open Scope R_scope.

Lemma concat_singles (l : list vec) :
  Forall (fun v => length v = 1%nat) l -> concat l = map (fun v => nth 0 v 0) l.
Proof.
  induction 1 as [|v l Hv _ IH]; [reflexivity|].
  cbn [concat map]. rewrite IH.
  destruct v as [|x [|y v]]; try discriminate. reflexivity.
Qed.

Lemma rows_of_one (t : vec) :
  map (fun i => firstn 1 (skipn i t)) (seq 0 (length t)) = map (fun x => [x]) t.
Proof.
  induction t as [|x t IH]; [reflexivity|].
  cbn [length seq map]. f_equal.
  rewrite <- seq_shift, map_map. exact IH.
Qed.

Lemma view_rows_column (K : nat) (t : vec) :
  (1 <= K)%nat -> length t = K -> view_rows K t = Ok (map (fun x => [x]) t).
Proof.
  intros HK HL. unfold view_rows. rewrite HL.
  replace (0 <? K)%nat with true by (symmetry; apply Nat.ltb_lt; lia).
  rewrite Nat.Div0.mod_same, Nat.div_same by lia.
  cbn [andb Nat.eqb assert bind]. f_equal.
  rewrite <- HL, <- rows_of_one. apply map_ext. intros i.
  now rewrite Nat.mul_1_r.
Qed.

Lemma cls_embed_of_modes (self : SceneDecoder) (K H : nat) (_ctx : vec) :
  (1 <= K)%nat -> (1 <= H)%nat -> length (ctx_proj self _ctx) = (K * H)%nat ->
  cls_embed_of self K H _ctx
  = Ok (ctx_sat self (map (fun i => firstn H (skipn (i * H) (ctx_proj self _ctx)))
                          (seq 0 K))).
Proof.
  intros HK HH HL. unfold cls_embed_of, view_modes. rewrite HL, Nat.eqb_refl.
  replace (0 <? K * H)%nat with true by (symmetry; apply Nat.ltb_lt; nia).
  reflexivity.
Qed.

(** The logits of the modes, in order. *)
Lemma logits_of_modes (self : SceneDecoder) (K : nat) (cls_embed : list vec) :
  length cls_embed = K ->
  map (fun v => nth 0 v 0) (map (cls self) cls_embed)
  = map (fun k => nth 0 (cls self (nth k cls_embed [])) 0) (seq 0 K).
Proof.
  intros HL. subst K. rewrite map_map.
  induction cls_embed as [|v l IH]; [reflexivity|].
  cbn [length seq map nth]. f_equal.
  rewrite <- seq_shift, map_map. exact IH.
Qed.

(** C8: the mode probabilities of every target-actor group are the softmax
    with temperature 1.0 of the logits that the classification head gives
    for the mode embeddings of the context path, and they sum to 1.  For
    [K >= 1] modes, a hidden size [H >= 1] and any learned modules (a
    projection to [K * H] features, an encoder that keeps the number of
    mode embeddings, a head with one output feature): the mode embeddings
    are the encoder's output for the [K] slices of the projected context,
    the logit of mode [k] is the head's output for the [k]-th of them, and
    the forward pass emits one row [p] of [K] probabilities with
    [p[k] = exp(logit k * 1.0) / sum_j exp(logit j * 1.0)], whose sum is
    1, hence within [1e-5] of 1. *)
Theorem probabilities_sum_to_one (self : SceneDecoder) (K H : nat) (_ctx : vec) :
  (1 <= K)%nat -> (1 <= H)%nat ->
  length (ctx_proj self _ctx) = (K * H)%nat ->
  (forall e, length (ctx_sat self e) = length e) ->
  (forall v, length (cls self v) = 1%nat) ->
  let cls_embed :=
    ctx_sat self (map (fun i => firstn H (skipn (i * H) (ctx_proj self _ctx))) (seq 0 K)) in
  let logit k := nth 0 (cls self (nth k cls_embed [])) 0 in
  exists p,
    cls_embed_of self K H _ctx = Ok cls_embed /\
    probabilities_of self K H _ctx = Ok [p] /\
    length p = K /\
    (forall k, (k < K)%nat ->
       nth k p 0 = exp (logit k * 1) / sum (map (fun j => exp (logit j * 1)) (seq 0 K))) /\
    sum p = 1 /\
    Rabs (sum p - 1) <= 1 / 100000.
Proof.
  intros HK HH Hproj Hsat Hcls cls_embed logit.
  assert (HE : length cls_embed = K)
    by (unfold cls_embed; now rewrite Hsat, length_map, length_seq).
  set (logits := map logit (seq 0 K)).
  assert (Hrows : view_rows K (concat (map (cls self) cls_embed))
                  = Ok (map (fun x => [x]) logits)).
  { rewrite concat_singles by (apply Forall_map, Forall_forall; intros; apply Hcls).
    rewrite (@logits_of_modes self K cls_embed HE).
    apply view_rows_column; [assumption|]. unfold logits. now rewrite length_map, length_seq. }
  assert (HM : is_matrix K 1 (map (fun x => [x]) logits)).
  { split; [unfold logits; now rewrite !length_map, length_seq|].
    apply Forall_map, Forall_forall. reflexivity. }
  destruct (probabilities_rows HK HM) as [HL HF].
  destruct (probabilities (map (fun x => [x]) logits)) as [|p [|q r]] eqn:EP;
    try discriminate.
  apply Forall_inv in HF. destruct HF as [Hlen Hsum].
  exists p. split; [exact (@cls_embed_of_modes self K H _ctx HK HH Hproj)|].
  split.
  { unfold probabilities_of.
    rewrite (@cls_embed_of_modes self K H _ctx HK HH Hproj). cbn [bind].
    fold cls_embed. rewrite Hrows. cbn [bind]. now rewrite EP. }
  split; [assumption|]. split; [|split; [assumption|]].
  - intros k Hk.
    assert (H0 : (0 < 1)%nat) by lia.
    pose proof (probabilities_entry HK HM H0 Hk) as E.
    rewrite EP in E. unfold row at 1 in E. cbn [nth] in E. rewrite E.
    assert (Hcol : column 0 (map (fun x => [x]) logits) = logits)
      by (unfold column; rewrite map_map; apply map_id).
    assert (Hrow : nth 0 (row (map (fun x => [x]) logits) k) 0 = logit k).
    { rewrite <- column_nth, Hcol. unfold logits.
      now apply nth_map_seq. }
    rewrite Hcol, Hrow. unfold logits. now rewrite !map_map.
  - rewrite Hsum. replace (1 - 1) with 0 by ring. rewrite Rabs_R0. lra.
Qed.

Lemma probabilities_sum_to_one_witness :
  let cls_embed :=
    ctx_sat example_decoder
      (map (fun i => firstn 1 (skipn (i * 1) (ctx_proj example_decoder [1]))) (seq 0 2)) in
  let logit k := nth 0 (cls example_decoder (nth k cls_embed [])) 0 in
  exists p,
    cls_embed_of example_decoder 2 1 [1] = Ok cls_embed /\
    probabilities_of example_decoder 2 1 [1] = Ok [p] /\
    length p = 2%nat /\
    (forall k, (k < 2)%nat ->
       nth k p 0 = exp (logit k * 1) / sum (map (fun j => exp (logit j * 1)) (seq 0 2))) /\
    sum p = 1 /\
    Rabs (sum p - 1) <= 1 / 100000.
Proof.
  apply (@probabilities_sum_to_one example_decoder 2 1 [1]).
  - lia.
  - lia.
  - reflexivity.
  - reflexivity.
  - reflexivity.
Defined.

End Probabilities.

(** ** The decoder's arithmetic *)

Section Arithmetic.

Import Num NumFacts.
Local Open Scope R_scope.

(** C10: under ['bezier'] the emitted velocity is the analytic derivative
    of the Bezier position curve at the same sample time, divided by
    [future_steps * 0.1].  For every regression output, actor, mode, future
    step [j] and position channel [c], the emitted position is the curve
    of the channel's eight control values at [ts[j]], and the emitted
    velocity is the derivative of that curve at [ts[j]] over [future_steps
    * 0.1]. *)
Theorem bezier_velocity_is_derivative
  (S K n : nat) (param : tensor4) (a k j c : nat) :
  has_shape4 K n 8 5 param -> (a < n)%nat -> (k < K)%nat ->
  (j < S)%nat -> (c < 2)%nat ->
  let P := column c (entry4 param k a) in
  let t := nth j (linspace 0 1 S) 0 in
  let reg := fst (regress_bezier S param) in
  let vel := fst (fst (snd (regress_bezier S param))) in
  nth c (row (entry4 reg a k) j) 0 = bezier_curve P t /\
  exists d,
    derivable_pt_lim (bezier_curve P) t d /\
    nth c (row (entry4 vel a k) j) 0 = d / (INR S * (1 / 10)).
Proof.
  intros Hp Ha Hk Hj Hc. cbv zeta. split.
  - pose proof (bezier_position_row Hp Ha Hk Hj) as E.
    assert (E' := f_equal (fun v => nth c v 0) E). cbv beta in E'.
    assert (Hn : nth c (firstn 2 (row (entry4 (fst (regress_bezier S param)) a k) j)) 0
                 = nth c (row (entry4 (fst (regress_bezier S param)) a k) j) 0).
    { generalize (row (entry4 (fst (regress_bezier S param)) a k) j). intros v.
      destruct c as [|[|c]]; [| |lia]; destruct v as [|x [|y v]]; reflexivity. }
    rewrite <- Hn, E'.
    destruct c as [|[|c]]; [reflexivity | reflexivity | lia].
  - exact (bezier_velocity Hp Ha Hk Hj Hc).
Qed.

Lemma bezier_velocity_is_derivative_witness :
  let P := column 0 (entry4 example_param 0 0) in
  let t := nth 1 (linspace 0 1 4) 0 in
  nth 0 (row (entry4 (fst (regress_bezier 4 example_param)) 0 0) 1) 0 = bezier_curve P t /\
  exists d,
    derivable_pt_lim (bezier_curve P) t d /\
    nth 0 (row (entry4 (fst (fst (snd (regress_bezier 4 example_param)))) 0 0) 1) 0
    = d / (INR 4 * (1 / 10)).
Proof.
  apply (@bezier_velocity_is_derivative 4 1 1 example_param 0 0 1 0); try lia.
  split; [reflexivity|].
  repeat constructor.
Defined.

(** C5, as the code has it: for every regression output, actor and mode,
    the position at the first future step equals the position of the
    first control point under both bases (one future step suffices);
    with at least two future steps, so that [t = 1] is sampled, the
    position at the last future step equals the position of the last
    control point under ['bezier'], and the sum of the positions of all
    control points under ['monomial']. *)
Theorem basis_boundary_positions (S K n : nat) (param : tensor4) (a k : nat) :
  has_shape4 K n 8 5 param -> (a < n)%nat -> (k < K)%nat ->
  let ctrl := entry4 param k a in
  let bezier := entry4 (fst (regress_bezier S param)) a k in
  let monomial := entry4 (fst (regress_monomial S param)) a k in
  ((1 <= S)%nat ->
   firstn 2 (row bezier 0) = firstn 2 (row ctrl 0) /\
   firstn 2 (row monomial 0) = firstn 2 (row ctrl 0)) /\
  ((2 <= S)%nat ->
   firstn 2 (row bezier (S - 1)) = firstn 2 (row ctrl N_ORDER) /\
   firstn 2 (row monomial (S - 1)) = [sum (column 0 ctrl); sum (column 1 ctrl)]).
Proof.
  intros Hp Ha Hk. cbv zeta. split; intros HS; split.
  - exact (bezier_first_position Hp Ha Hk HS).
  - exact (monomial_first_position Hp Ha Hk HS).
  - exact (bezier_last_position Hp Ha Hk HS).
  - exact (monomial_last_position Hp Ha Hk HS).
Qed.

Lemma example_param_shape : has_shape4 1 1 8 5 example_param.
Proof. split; [reflexivity|]. repeat constructor. Qed.

Lemma basis_boundary_positions_witness :
  let ctrl := entry4 example_param 0 0 in
  let bezier := entry4 (fst (regress_bezier 4 example_param)) 0 0 in
  let monomial := entry4 (fst (regress_monomial 4 example_param)) 0 0 in
  (firstn 2 (row bezier 0) = firstn 2 (row ctrl 0) /\
   firstn 2 (row monomial 0) = firstn 2 (row ctrl 0)) /\
  (firstn 2 (row bezier (4 - 1)) = firstn 2 (row ctrl N_ORDER) /\
   firstn 2 (row monomial (4 - 1)) = [sum (column 0 ctrl); sum (column 1 ctrl)]).
Proof.
  assert (Hp : has_shape4 1 1 8 5 example_param)
    by (split; [reflexivity | repeat constructor]).
  assert (H0 : (0 < 1)%nat) by lia.
  split.
  - apply (proj1 (@basis_boundary_positions 4 1 1 example_param 0 0 Hp H0 H0)). lia.
  - apply (proj2 (@basis_boundary_positions 4 1 1 example_param 0 0 Hp H0 H0)). lia.
Defined.

(** Under ['monomial'] with two future steps and the control points
    [example_ctrl], the position at the last step is [(1, 0)], the sum of
    the control points, while the last control point is at [(0, 0)]. *)
Lemma monomial_last_position_counterexample :
  firstn 2 (row (entry4 (fst (regress_monomial 2 example_param)) 0 0) (2 - 1))
  <> firstn 2 (row (entry4 example_param 0 0) N_ORDER).
Proof.
  assert (H0 : (0 < 1)%nat) by lia.
  rewrite (monomial_last_position example_param_shape H0 H0) by lia.
  cbn. intros [= H]. lra.
Qed.

End Arithmetic.

(** ** Shapes of the forward pass *)

Section Shapes.

Import Shape ShapeFacts.

(** C6, at a single lane segment: the lane encoder returns a tensor of
    shape [(hidden_size,)], not [(1, hidden_size)], for an input of shape
    [(1, 10, F)]; the final [squeeze()] of the aggregation block removes
    the lane dimension together with the pooled point dimension. *)
Theorem lane_encoder_single_segment (in_size hidden_size : nat) :
  2 <= hidden_size ->
  LaneNet_forward in_size hidden_size [1; 10; in_size] = Ok [hidden_size] /\
  LaneNet_forward in_size hidden_size [1; 10; in_size] <> Ok [1; hidden_size].
Proof.
  intros HH. rewrite (LaneNet_forward_one in_size HH). split; [reflexivity | discriminate].
Qed.

Lemma lane_encoder_single_segment_witness :
  LaneNet_forward 10 8 [1; 10; 10] = Ok [8] /\
  LaneNet_forward 10 8 [1; 10; 10] <> Ok [1; 8].
Proof. apply (@lane_encoder_single_segment 10 8). lia. Defined.

(** C4, at eleven features: the decoder rejects a [TGT_RPE] tensor with 11
    features per target; its first statement applies [proj_rpe], whose
    [Linear] layer has [5 * 2 * 2 = 20] input features. *)
Theorem tgt_rpe_11_rejected (self : SceneDecoder) (ctx actors : shape)
  (actor_idcs : list (list nat)) (tgt_feat : shape) (B : nat) :
  SceneDecoder_forward self ctx actors actor_idcs tgt_feat [B; 11] = Raise RuntimeError.
Proof. apply SceneDecoder_forward_rpe. discriminate. Qed.

(** C3, on every well-shaped input: a decoder constructed with
    [param_out = 'none'] raises [AttributeError] in its forward pass as
    soon as there is one scene; the ['none'] branch of the loop reads
    [self.N_ORDER], which the ['none'] branch of the constructor never
    assigns. *)
Theorem none_forward_raises (self : SceneDecoder)
  (H S K B A : nat) (actor_idcs : list (list nat)) (tgt_feat : shape) :
  SceneDecoder_init "none" H S K = Ok self ->
  0 < K -> 0 < length actor_idcs <= B ->
  Forall (Forall (fun i => i < A)) actor_idcs ->
  tgt_feat_of B H tgt_feat ->
  SceneDecoder_forward self [B; H] [A; H] actor_idcs tgt_feat [B; 20]
  = Raise AttributeError.
Proof. apply SceneDecoder_forward_none. Qed.

Lemma none_forward_raises_witness :
  exists self,
    SceneDecoder_init "none" 8 4 2 = Ok self /\
    SceneDecoder_forward self [1; 8] [2; 8] [[0; 1]] [8] [1; 20] = Raise AttributeError.
Proof.
  eexists. split; [reflexivity|].
  apply (@none_forward_raises _ 8 4 2 1 2 [[0; 1]] [8]).
  - reflexivity.
  - lia.
  - cbn. lia.
  - repeat constructor.
  - right. split; reflexivity.
Defined.

(** C7, at a scene with a single lane: in a batch of two scenes with
    (3 actors, 2 lanes) and (2 actors, 1 lane) the forward pass returns an
    entry for each scene, in the order of the scenes; run on the second
    scene alone it raises, because the lane encoder squeezes the single
    lane away and the fusion network cannot concatenate the result with
    the actors. *)
Theorem single_lane_scene_alone_raises :
  run (example_cfg "bezier") batch_data
  = Ok ([[1; 2]; [1; 2]],
        [[3; 2; 4; 5]; [2; 2; 4; 5]],
        [([3; 2; 4; 2], [3; 2; 4; 3], Some [2; 3; 8; 5]);
         ([2; 2; 4; 2], [2; 2; 4; 3], Some [2; 2; 8; 5])]) /\
  run (example_cfg "bezier") second_scene_data = Raise RuntimeError.
Proof. split; vm_compute; reflexivity. Qed.

(** C2: the end-to-end example does not return.  A model constructed with
    hidden size 8, one pyramid stage, two modes, four future steps and
    [param_out = 'none'], fed one scene with two actors ([C = 3],
    [T = 5]), one lane segment and one target, raises [RuntimeError],
    whatever the number of features of [TGT_RPE] is: the lane encoder
    returns the 1-D shape [(8,)] for the single lane, the fusion network
    indexes it to shape [(1,)], and its [torch.cat] of the two actors
    [(2, 8)] with these lanes fails before the decoder is reached. *)
Theorem end_to_end_example_raises :
  LaneNet_forward 10 8 [1; 10; 10] = Ok [8] /\
  index [0] [8] = Ok [1] /\
  cat [[2; 8]; [1]] 0 = Raise RuntimeError /\
  forall d_tgt_rpe : nat,
    run (example_cfg "none") (example_data 1 d_tgt_rpe) = Raise RuntimeError.
Proof.
  split; [vm_compute; reflexivity|].
  split; [vm_compute; reflexivity|].
  split; [vm_compute; reflexivity|].
  intros d_tgt_rpe. vm_compute. reflexivity.
Qed.

(** With two lane segments and a basis parameterisation the same example
    returns: one row of two probabilities and trajectories of shape
    [(2, 2, 4, 5)]. *)
Lemma example_with_two_lanes (po : string) :
  basis po ->
  run (example_cfg po) (example_data 2 20)
  = Ok ([[1; 2]], [[2; 2; 4; 5]], [([2; 2; 4; 2], [2; 2; 4; 3], Some [2; 2; 8; 5])]).
Proof. intros [-> | ->]; vm_compute; reflexivity. Qed.

(** A decoder with the ['bezier'] basis, one scene of two actors: the
    trajectories have five channels. *)
Lemma trajectory_channels_counterexample :
  exists self,
    SceneDecoder_init "bezier" 8 4 2 = Ok self /\
    SceneDecoder_forward self [1; 8] [2; 8] [[0; 1]] [8] [1; 20]
    = Ok ([[1; 2]], [[2; 2; 4; 5]], [([2; 2; 4; 2], [2; 2; 4; 3], Some [2; 2; 8; 5])]) /\
    ~ Forall (fun s => last s 0 = 4) [[2; 2; 4; 5]].
Proof.
  eexists. split; [reflexivity|]. split; [vm_compute; reflexivity|].
  intros F. inversion F as [|? ? E _]. cbn in E. discriminate.
Qed.

End Shapes.

(** ** Trajectories: shape and channels *)

Section Trajectories.

Import Num NumFacts.
Local Open Scope R_scope.

(** C1, as the code has it: under ['bezier'] and ['monomial'] every entry
    of the second output list has shape [(n, K, future_steps, 5)] for the
    [n] actors of its scene: per actor, mode and future step five
    channels, the two position channels followed by the exponentials of
    the three remaining channels of the regression output. *)
Theorem trajectory_channels :
  (forall (self : Shape.SceneDecoder) (po : string) (H S K B A : nat)
          (actor_idcs : list (list nat)) (tgt_feat : Shape.shape),
     Shape.basis po -> Shape.SceneDecoder_init po H S K = Ok self ->
     (0 < K)%nat -> (length actor_idcs <= B)%nat ->
     Forall (Forall (fun i => (i < A)%nat)) actor_idcs ->
     Shape.tgt_feat_of B H tgt_feat ->
     exists res_cls res_aux,
       Shape.SceneDecoder_forward self [B; H] [A; H] actor_idcs tgt_feat [B; 20%nat]
       = Ok (res_cls,
             map (fun a_idcs => [length a_idcs; K; S; 5%nat]) actor_idcs,
             res_aux)) /\
  (forall (S K n : nat) (param : tensor4) (a k j : nat),
     has_shape4 K n 8 5 param -> (a < n)%nat -> (k < K)%nat -> (j < S)%nat ->
     let ctrl := entry4 param k a in
     let Tb := _get_T_matrix_bezier N_ORDER S in
     let Tm := _get_T_matrix_monomial N_ORDER S in
     (row (entry4 (fst (regress_bezier S param)) a k) j
      = row (position Tb ctrl) j ++ map exp (row (log_variance Tb ctrl) j) /\
      length (row (position Tb ctrl) j) = 2%nat /\
      length (row (log_variance Tb ctrl) j) = 3%nat) /\
     (row (entry4 (fst (regress_monomial S param)) a k) j
      = row (position Tm ctrl) j ++ map exp (row (log_variance Tm ctrl) j) /\
      length (row (position Tm ctrl) j) = 2%nat /\
      length (row (log_variance Tm ctrl) j) = 3%nat)).
Proof.
  split.
  - intros self po H S K B A actor_idcs tgt_feat Hpo Hinit HK HB Hall Htgt.
    eexists. eexists.
    eapply ShapeFacts.SceneDecoder_forward_basis; eassumption.
  - intros S K n param a k j Hp Ha Hk Hj. cbv zeta.
    destruct (has_shape4_entry Hp Hk Ha) as [_ Hc].
    assert (H8 : (0 < 8)%nat) by lia.
    assert (Hb : (j < length (_get_T_matrix_bezier N_ORDER S))%nat)
      by now rewrite T_bezier_length.
    assert (Hm : (j < length (_get_T_matrix_monomial N_ORDER S))%nat)
      by now rewrite T_monomial_length.
    split; split.
    + rewrite regress_bezier_reg. exact (trajectory_row _ Hp H8 Ha Hk Hb).
    + split.
      * exact (is_matrix_row (position_is_matrix _ Hc H8) Hb).
      * exact (is_matrix_row (log_variance_is_matrix _ Hc H8) Hb).
    + rewrite regress_monomial_reg. exact (trajectory_row _ Hp H8 Ha Hk Hm).
    + split.
      * exact (is_matrix_row (position_is_matrix _ Hc H8) Hm).
      * exact (is_matrix_row (log_variance_is_matrix _ Hc H8) Hm).
Qed.

Lemma trajectory_channels_witness :
  (exists self res_cls res_aux,
     Shape.SceneDecoder_init "bezier" 8 4 2 = Ok self /\
     Shape.SceneDecoder_forward self [1; 8]%nat [2; 8]%nat [[0; 1]]%nat [8]%nat
                                [1; 20]%nat
     = Ok (res_cls, [[2; 2; 4; 5]]%nat, res_aux)) /\
  length (row (entry4 (fst (regress_bezier 4 example_param)) 0 0) 1) = 5%nat.
Proof.
  destruct trajectory_channels as [Hshape Hvalue]. split.
  - eexists.
    destruct (Hshape _ "bezier"%string 8%nat 4%nat 2%nat 1%nat 2%nat
                [[0; 1]]%nat [8]%nat (or_introl eq_refl) eq_refl) as (c & x & E).
    + lia.
    + cbn. lia.
    + repeat constructor.
    + right. split; reflexivity.
    + exists c, x. split; [reflexivity | exact E].
  - assert (Hp : has_shape4 1 1 8 5 example_param)
      by (split; [reflexivity | repeat constructor]).
    assert (H0 : (0 < 1)%nat) by lia.
    assert (H1 : (1 < 4)%nat) by lia.
    destruct (Hvalue 4%nat 1%nat 1%nat example_param 0%nat 0%nat 1%nat Hp H0 H0 H1)
      as [(E & L2 & L3) _].
    rewrite E, length_app, length_map, L2, L3. reflexivity.
Defined.

End Trajectories.

(** * Further properties of the forward computation *)

(** ** Encoders and fusion, on shapes *)

Module ShapeProperties.
Import Shape ShapeFacts.

#[local] Arguments Nat.eqb !_ !_ : simpl nomatch.
#[local] Arguments Nat.leb !_ !_ : simpl nomatch.
#[local] Arguments Nat.ltb !_ !_ : simpl nomatch.
#[local] Arguments Nat.mul !_ !_ : simpl nomatch.
#[local] Arguments Nat.add !_ !_ : simpl nomatch.
#[local] Arguments Nat.div !_ !_ : simpl nomatch.
#[local] Arguments Nat.modulo !_ !_ : simpl nomatch.
#[local] Arguments norm_dim : simpl never.
#[local] Arguments view : simpl never.
#[local] Arguments index : simpl never.
#[local] Arguments clamp_bound : simpl never.

(** X1: the lane encoder maps [L >= 2] lane segments of [P >= 1] points
    with [in_size] features each to one embedding per segment, of shape
    [(L, hidden_size)], whatever the number of points. *)
Theorem lane_encoder_shape (in_size hidden_size L P : nat) :
  2 <= L -> 1 <= P -> 2 <= hidden_size ->
  LaneNet_forward in_size hidden_size [L; P; in_size] = Ok [L; hidden_size].
Proof.
  intros HL HP HH.
  unfold LaneNet_forward, PointAggregateBlock_forward, _global_maxpool_aggre.
  shape_run. reflexivity.
Qed.

Lemma lane_encoder_shape_witness :
  LaneNet_forward 10 128 [3; 10; 10] = Ok [3; 128].
Proof. apply (@lane_encoder_shape 10 128 3 10); lia. Defined.

Lemma RelaFusionLayer_shape (d_edge d_model d_ffn N : nat) (flag : bool) :
  2 <= N -> 2 <= d_model ->
  RelaFusionLayer_forward torch_shape (RelaFusionLayer_init d_edge d_model d_ffn flag)
                          [N; d_model] [N; N; d_edge]
  = Ok ([N; d_model], [N; N; d_edge]).
Proof.
  intros HN Hd.
  unfold RelaFusionLayer_forward, _build_memory, _mha_block, _ff_block,
    RelaFusionLayer_init, torch_shape.
  destruct flag; shape_run; reflexivity.
Qed.

Lemma RelaFusionNet_layers_shape (d_edge d_model d_ffn N : nat)
  (fusion : list (RelaFusionLayer shape)) :
  2 <= N -> 2 <= d_model ->
  Forall (fun l => exists flag, l = RelaFusionLayer_init d_edge d_model d_ffn flag) fusion ->
  foldM (fun '(x, edge) mod_ => RelaFusionLayer_forward torch_shape mod_ x edge)
        fusion ([N; d_model], [N; N; d_edge])
  = Ok ([N; d_model], [N; N; d_edge]).
Proof.
  intros HN Hd HF. induction HF as [|l fusion [flag ->] _ IH]; [reflexivity|].
  cbn [foldM]. rewrite RelaFusionLayer_shape by assumption. exact IH.
Qed.

Lemma RelaFusionNet_init_layers (d_edge d_model d_ffn n_layer : nat) (ue : bool) :
  Forall (fun l => exists flag, l = RelaFusionLayer_init d_edge d_model d_ffn flag)
         (RelaFusionNet_init (fun _ flag => RelaFusionLayer_init d_edge d_model d_ffn flag)
                             n_layer ue).
Proof.
  unfold RelaFusionNet_init. apply Forall_map, Forall_forall. intros i _. eauto.
Qed.

Lemma RelaFusionNet_shape (d_edge d_model n_layer N : nat) (ue : bool) :
  2 <= N -> 2 <= d_model ->
  RelaFusionNet_forward torch_shape
    (RelaFusionNet_init (fun _ flag => RelaFusionLayer_init d_edge d_model (d_model * 2) flag)
                        n_layer ue)
    [N; d_model] [N; N; d_edge]
  = Ok [N; d_model].
Proof.
  intros HN Hd. unfold RelaFusionNet_forward.
  match goal with
  | |- bind ?c _ = _ =>
      assert (E : c = Ok ([N; d_model], [N; N; d_edge]))
        by exact (RelaFusionNet_layers_shape (d_ffn := d_model * 2) HN Hd
                    (RelaFusionNet_init_layers d_edge d_model (d_model * 2) n_layer ue));
      rewrite E
  end.
  reflexivity.
Qed.

(** X2: the stacked fusion layers keep the shape of the nodes.  For any
    number of layers and either setting of [update_edge], [N >= 2] tokens
    of width [d_model >= 2] with edges [(N, N, d_edge)] come back as
    [(N, d_model)]. *)
Theorem fusion_layers_keep_node_shape (d_edge d_model n_layer N : nat) (ue : bool) :
  2 <= N -> 2 <= d_model ->
  RelaFusionNet_forward torch_shape
    (RelaFusionNet_init (fun _ flag => RelaFusionLayer_init d_edge d_model (d_model * 2) flag)
                        n_layer ue)
    [N; d_model] [N; N; d_edge]
  = Ok [N; d_model].
Proof. apply RelaFusionNet_shape. Qed.

Lemma fusion_layers_keep_node_shape_witness :
  RelaFusionNet_forward torch_shape
    (RelaFusionNet_init (fun _ flag => RelaFusionLayer_init 128 128 (128 * 2) flag) 6 true)
    [40; 128] [40; 40; 128]
  = Ok [40; 128].
Proof. apply (@fusion_layers_keep_node_shape 128 128 6 40 true); lia. Defined.

Lemma RelaFusionLayer_single_token (d_edge d_model d_ffn : nat) (flag : bool) :
  2 <= d_model ->
  RelaFusionLayer_forward torch_shape (RelaFusionLayer_init d_edge d_model d_ffn flag)
                          [1; d_model] [1; 1; d_edge]
  = Ok ([d_model], [1; 1; d_edge]).
Proof.
  intros Hd.
  unfold RelaFusionLayer_forward, _build_memory, _mha_block, _ff_block,
    RelaFusionLayer_init, torch_shape.
  destruct flag; shape_run; reflexivity.
Qed.

Lemma RelaFusionLayer_flat_node (d_edge d_model d_ffn : nat) (flag : bool) :
  2 <= d_model ->
  RelaFusionLayer_forward torch_shape (RelaFusionLayer_init d_edge d_model d_ffn flag)
                          [d_model] [1; 1; d_edge]
  = Raise RuntimeError.
Proof.
  intros Hd.
  unfold RelaFusionLayer_forward, _build_memory, _mha_block, _ff_block,
    RelaFusionLayer_init, torch_shape.
  destruct flag; shape_run; reflexivity.
Qed.

(** X3: a single token is squeezed away.  On one token ([N = 1], a scene
    without actors and lanes, which leaves the CLS token alone) of width
    [d_model >= 2], a network of one layer returns a 1-D tensor of shape
    [(d_model,)] instead of [(1, d_model)], and a network of two or more
    layers raises [RuntimeError] in its second layer. *)
Theorem fusion_single_token (d_edge d_model n_layer : nat) (ue : bool) :
  2 <= d_model ->
  let net n := RelaFusionNet_init
                 (fun _ flag => RelaFusionLayer_init d_edge d_model (d_model * 2) flag) n ue in
  RelaFusionNet_forward torch_shape (net 1) [1; d_model] [1; 1; d_edge] = Ok [d_model] /\
  (2 <= n_layer ->
   RelaFusionNet_forward torch_shape (net n_layer) [1; d_model] [1; 1; d_edge]
   = Raise RuntimeError).
Proof.
  intros Hd net. split.
  - unfold RelaFusionNet_forward, net, RelaFusionNet_init. cbn [seq map foldM].
    rewrite RelaFusionLayer_single_token by assumption. reflexivity.
  - intros Hn. destruct n_layer as [|[|n]]; try lia.
    unfold RelaFusionNet_forward, net, RelaFusionNet_init. cbn [seq map foldM].
    rewrite RelaFusionLayer_single_token by assumption. cbn [bind].
    rewrite RelaFusionLayer_flat_node by assumption. reflexivity.
Qed.

Lemma fusion_single_token_witness :
  let net n := RelaFusionNet_init
                 (fun _ flag => RelaFusionLayer_init 8 8 (8 * 2) flag) n true in
  RelaFusionNet_forward torch_shape (net 1) [1; 8] [1; 1; 8] = Ok [8] /\
  RelaFusionNet_forward torch_shape (net 6) [1; 8] [1; 1; 8] = Raise RuntimeError.
Proof.
  intros net.
  assert (H2 : 2 <= 8) by lia.
  split.
  - apply (proj1 (@fusion_single_token 8 8 6 true H2)).
  - apply (proj2 (@fusion_single_token 8 8 6 true H2)). lia.
Defined.

#[local] Arguments RelaFusionNet_forward : simpl never.

(** The layers that [FusionNet.__init__] stacks. *)
Lemma FusionNet_init_layers (config : Config) (fuse : list (RelaFusionLayer shape)) :
  FusionNet_init config = Ok fuse ->
  fuse = RelaFusionNet_init
           (fun _ flag => RelaFusionLayer_init (d_rpe config) (d_embed config)
                                               (d_embed config * 2) flag)
           (n_scene_layer config) (cfg_update_edge config).
Proof.
  unfold FusionNet_init. intros H.
  destruct (if n_scene_layer config =? 0 then Ok tt
            else MultiheadAttention_init (d_embed config) (n_scene_head config));
    cbn [bind] in H; [|discriminate].
  now inversion H.
Qed.

Lemma FusionNet_scene_shape (config : Config) (fuse : list (RelaFusionLayer shape))
  (A L : nat) (a_idcs l_idcs : list nat) :
  FusionNet_init config = Ok fuse ->
  2 <= d_embed config ->
  Forall (fun i => i < A) a_idcs -> Forall (fun i => i < L) l_idcs ->
  1 <= length a_idcs + length l_idcs ->
  FusionNet_scene config fuse [A; d_embed config] [L; d_embed config] a_idcs l_idcs
                  [d_rpe_in config; length a_idcs + length l_idcs;
                   length a_idcs + length l_idcs]
  = Ok ([length a_idcs; d_embed config], [length l_idcs; d_embed config],
        [1; d_embed config]).
Proof.
  intros Hinit Hd Ha Hl Hn. rewrite (FusionNet_init_layers _ Hinit).
  unfold FusionNet_scene.
  rewrite (index_rows _ Ha), (index_rows _ Hl).
  remember (length a_idcs) as na. remember (length l_idcs) as nl.
  clear Heqna Heqnl Ha Hl.
  shape_run.
  rewrite RelaFusionNet_shape by lia.
  shape_run. rewrite norm_dim_last by lia. shape_run.
  repeat f_equal; lia.
Qed.

Lemma cat_rows {A : Type} (f : A -> nat) (d : nat) (l : list A) :
  l <> [] ->
  cat (map (fun x => [f x; d]) l) 0
  = Ok [total f l; d].
Proof.
  intros Hl. destruct l as [|x l]; [congruence|]. clear Hl.
  unfold cat, total.
  assert (HF : forall l' : list A,
             filter (fun s => negb (shape_eqb s [0])) (map (fun x => [f x; d]) l')
             = map (fun x => [f x; d]) l').
  { induction l' as [|y l' IH]; [reflexivity|].
    cbn [map filter shape_eqb]. rewrite andb_false_r. cbn [negb]. now rewrite IH. }
  rewrite HF. cbn [map]. eval_dims. cbn [bind].
  assert (HA : forallb (fun s => shape_eqb (replace_nth 0 0 s) (replace_nth 0 0 [f x; d]))
                       (map (fun x => [f x; d]) l) = true).
  { apply forallb_forall. intros s Hs. apply in_map_iff in Hs.
    destruct Hs as (y & <- & _). cbn. now rewrite Nat.eqb_refl. }
  rewrite HA. cbn [assert bind]. cbn [replace_nth]. do 2 f_equal.
  cbn [fold_right nth]. f_equal. clear HA.
  induction l as [|y l IH]; [reflexivity|]. cbn [map fold_right nth]. now rewrite IH.
Qed.

Section FusionLoop.

Variables (config : Config) (fuse : list (RelaFusionLayer shape)) (A L : nat).
Hypothesis Hinit : FusionNet_init config = Ok fuse.
Hypothesis Hd : 2 <= d_embed config.

Lemma FusionNet_loop_shape (scenes : list (list nat * list nat)) :
  Forall (scene_ok A L) scenes ->
  mapM (fun '(a_idcs, l_idcs, rpes) =>
          FusionNet_scene config fuse [A; d_embed config] [L; d_embed config]
                          a_idcs l_idcs rpes)
       (zip3 (map fst scenes) (map snd scenes) (map (rpe_of config) scenes))
  = Ok (map (fun s => ([length (fst s); d_embed config],
                       [length (snd s); d_embed config],
                       [1; d_embed config])) scenes).
Proof.
  induction 1 as [|[a l] scenes (Ha & Hl & Hn) _ IH]; [reflexivity|].
  cbn [map zip3 mapM fst snd] in *. unfold rpe_of at 1. cbn [fst snd].
  rewrite (@FusionNet_scene_shape config fuse A L a l Hinit Hd Ha Hl Hn). cbn [bind].
  now rewrite IH.
Qed.

End FusionLoop.


Lemma total_ones {A : Type} (l : list A) : total (fun _ => 1) l = length l.
Proof. induction l as [|x l IH]; cbn; [reflexivity | now rewrite <- IH]. Qed.

Lemma FusionNet_forward_shape (config : Config) (fuse : list (RelaFusionLayer shape))
  (A L : nat) (scenes : list (list nat * list nat)) :
  FusionNet_init config = Ok fuse -> 2 <= d_embed config ->
  scenes <> [] -> Forall (scene_ok A L) scenes ->
  FusionNet_forward config fuse [A; d_actor config] (map fst scenes)
                    [L; d_lane config] (map snd scenes) (map (rpe_of config) scenes)
  = Ok ([total (fun s => length (fst s)) scenes; d_embed config],
        [total (fun s => length (snd s)) scenes; d_embed config],
        [length scenes; d_embed config]).
Proof.
  intros Hinit Hd Hne Hall. unfold FusionNet_forward.
  assert (EA : proj_block (d_actor config) (d_embed config) [A; d_actor config]
               = Ok [A; d_embed config]) by (shape_run; reflexivity).
  assert (EL : proj_block (d_lane config) (d_embed config) [L; d_lane config]
               = Ok [L; d_embed config]) by (shape_run; reflexivity).
  rewrite EA, EL. cbn [bind].
  match goal with
  | |- bind ?c _ = _ =>
      assert (E : c = Ok (map (fun s => ([length (fst s); d_embed config],
                                         [length (snd s); d_embed config],
                                         [1; d_embed config])) scenes))
        by exact (@FusionNet_loop_shape config fuse A L Hinit Hd scenes Hall);
      rewrite E
  end.
  cbn [bind]. rewrite !map_map. cbn [fst snd].
  rewrite (cat_rows (fun s : list nat * list nat => length (fst s)) _ Hne).
  rewrite (cat_rows (fun s : list nat * list nat => length (snd s)) _ Hne).
  rewrite (cat_rows (fun _ : list nat * list nat => 1) _ Hne).
  cbn [bind]. now rewrite total_ones.
Qed.

(** X4: the shapes that [FusionNet.forward] returns.  For a batch of at
    least one scene, each with in-range actor and lane indices, at least
    one token and an RPE tensor [(d_rpe_in, n, n)] over its [n] tokens,
    and an embedding width of at least 2: the fused actors have one row
    per actor index of the batch, the fused lanes one row per lane index,
    and the summary has one row per scene, all of width [d_embed]. *)
Theorem fusion_output_shapes (config : Config) (fuse : list (RelaFusionLayer shape))
  (A L : nat) (scenes : list (list nat * list nat)) :
  FusionNet_init config = Ok fuse -> 2 <= d_embed config ->
  scenes <> [] -> Forall (scene_ok A L) scenes ->
  FusionNet_forward config fuse [A; d_actor config] (map fst scenes)
                    [L; d_lane config] (map snd scenes) (map (rpe_of config) scenes)
  = Ok ([total (fun s => length (fst s)) scenes; d_embed config],
        [total (fun s => length (snd s)) scenes; d_embed config],
        [length scenes; d_embed config]).
Proof. apply FusionNet_forward_shape. Qed.

Lemma fusion_output_shapes_witness :
  exists fuse,
    FusionNet_init (example_cfg "bezier") = Ok fuse /\
    FusionNet_forward (example_cfg "bezier") fuse [5; 8] [[0; 1; 2]; [3; 4]]
                      [3; 8] [[0; 1]; [2]] [[5; 5; 5]; [5; 3; 3]]
    = Ok ([5; 8], [3; 8], [2; 8]).
Proof.
  eexists. split; [reflexivity|].
  apply (@fusion_output_shapes (example_cfg "bezier") _ 5 3
           [([0; 1; 2], [0; 1]); ([3; 4], [2])]).
  - reflexivity.
  - cbn. lia.
  - discriminate.
  - repeat constructor; cbn; lia.
Defined.

Lemma zip3_firstn {A B C : Type} (a : list A) (b : list B) (c : list C) :
  let m := Nat.min (length a) (Nat.min (length b) (length c)) in
  zip3 (firstn m a) (firstn m b) (firstn m c) = zip3 a b c.
Proof.
  cbv zeta. revert b c.
  induction a as [|x a IH]; intros [|y b] [|z c]; cbn [length Nat.min firstn zip3];
    try reflexivity.
  now rewrite IH.
Qed.

(** X5: the loop of [FusionNet.forward] runs over [zip(actor_idcs,
    lane_idcs, rpe_prep)], so the lists are cut to the shortest of the
    three: entries past it are ignored, without an exception. *)
Theorem fusion_zip_truncates (config : Config) (fuse : list (RelaFusionLayer shape))
  (actors lanes : shape) (actor_idcs lane_idcs : list (list nat)) (rpe_prep : list shape) :
  let m := Nat.min (length actor_idcs) (Nat.min (length lane_idcs) (length rpe_prep)) in
  FusionNet_forward config fuse actors (firstn m actor_idcs)
                    lanes (firstn m lane_idcs) (firstn m rpe_prep)
  = FusionNet_forward config fuse actors actor_idcs lanes lane_idcs rpe_prep.
Proof.
  intros m. unfold FusionNet_forward.
  destruct (proj_block (d_actor config) (d_embed config) actors); [|reflexivity].
  destruct (proj_block (d_lane config) (d_embed config) lanes); [|reflexivity].
  cbn [bind]. unfold m. now rewrite zip3_firstn.
Qed.

(** X6: an empty batch.  When one of the three per-scene lists is empty
    and the actors and lanes have the widths of the configuration,
    [FusionNet.forward] does not return: the loop does not run and
    [torch.cat] refuses the empty list it is given.  The class of the
    exception is left open, since it depends on the version of torch. *)
Theorem fusion_empty_batch_raises (config : Config) (fuse : list (RelaFusionLayer shape))
  (A L : nat) (actor_idcs lane_idcs : list (list nat)) (rpe_prep : list shape) :
  actor_idcs = [] \/ lane_idcs = [] \/ rpe_prep = [] ->
  exists e, FusionNet_forward config fuse [A; d_actor config] actor_idcs
                              [L; d_lane config] lane_idcs rpe_prep
            = Raise e.
Proof.
  intros H. exists RuntimeError. unfold FusionNet_forward.
  assert (EA : proj_block (d_actor config) (d_embed config) [A; d_actor config]
               = Ok [A; d_embed config]) by (shape_run; reflexivity).
  assert (EL : proj_block (d_lane config) (d_embed config) [L; d_lane config]
               = Ok [L; d_embed config]) by (shape_run; reflexivity).
  rewrite EA, EL. cbn [bind].
  assert (EZ : zip3 actor_idcs lane_idcs rpe_prep = []).
  { destruct H as [-> | [-> | ->]]; [reflexivity | |].
    - now destruct actor_idcs.
    - destruct actor_idcs; [reflexivity|]. now destruct lane_idcs. }
  rewrite EZ. reflexivity.
Qed.

Lemma fusion_empty_batch_raises_witness :
  exists e, FusionNet_forward (example_cfg "bezier") [] [0; 8] [] [0; 8] [] [] = Raise e.
Proof.
  apply (@fusion_empty_batch_raises (example_cfg "bezier") [] 0 0 [] [] []).
  left. reflexivity.
Defined.

(** ** The decoder, on shapes *)

(** X7: everything the decoder returns under ['bezier'] and ['monomial'].
    For [B] scenes with in-range actor groups, every scene gets one row of
    [K] probabilities, whatever the number [n] of its actors; the
    velocities have shape [(n, K, future_steps, 2)], the variance
    velocities [(n, K, future_steps, 3)], and the raw parameters are
    returned mode-first, as [(K, n, 8, 5)]. *)
Theorem decoder_output_shapes (self : SceneDecoder) (po : string)
  (H S K B A : nat) (actor_idcs : list (list nat)) (tgt_feat : shape) :
  basis po -> SceneDecoder_init po H S K = Ok self ->
  0 < K -> length actor_idcs <= B ->
  Forall (Forall (fun i => i < A)) actor_idcs ->
  tgt_feat_of B H tgt_feat ->
  SceneDecoder_forward self [B; H] [A; H] actor_idcs tgt_feat [B; 20]
  = Ok (map (fun _ => [1; K]) actor_idcs,
        map (fun a => [length a; K; S; 5]) actor_idcs,
        map (fun a => ([length a; K; S; 2], [length a; K; S; 3],
                       Some [K; length a; 8; 5])) actor_idcs).
Proof. apply SceneDecoder_forward_basis. Qed.

Lemma decoder_output_shapes_witness :
  exists self,
    SceneDecoder_init "monomial" 128 30 6 = Ok self /\
    SceneDecoder_forward self [2; 128] [5; 128] [[0; 1; 2]; [3; 4]] [2; 128] [2; 20]
    = Ok ([[1; 6]; [1; 6]],
          [[3; 6; 30; 5]; [2; 6; 30; 5]],
          [([3; 6; 30; 2], [3; 6; 30; 3], Some [6; 3; 8; 5]);
           ([2; 6; 30; 2], [2; 6; 30; 3], Some [6; 2; 8; 5])]).
Proof.
  eexists. split; [reflexivity|].
  apply (@decoder_output_shapes _ "monomial" 128 30 6 2 5 [[0; 1; 2]; [3; 4]] [2; 128]).
  - right. reflexivity.
  - reflexivity.
  - lia.
  - cbn. lia.
  - repeat constructor.
  - left. reflexivity.
Defined.

Lemma norm_dim_out (d i : nat) : d <= i -> norm_dim d (Z.of_nat i) = Raise IndexError.
Proof.
  intros H. unfold norm_dim.
  replace ((Z.of_nat i <? Z.of_nat d)%Z) with false by (symmetry; apply Z.ltb_ge; lia).
  replace ((Z.of_nat i <? 0)%Z) with false by (symmetry; apply Z.ltb_ge; lia).
  now rewrite andb_false_r.
Qed.

Lemma index_out_of_range (idcs : list nat) (A : nat) (r : shape) :
  Exists (fun i => A <= i) idcs -> index idcs (A :: r) = Raise IndexError.
Proof.
  intros H. unfold index.
  replace (forallb (fun i => i <? A) idcs) with false; [reflexivity|].
  symmetry. apply not_true_is_false. intros HF.
  apply Exists_exists in H. destruct H as (i & Hi & Hge).
  pose proof (proj1 (forallb_forall _ _) HF i Hi) as Hlt.
  apply Nat.ltb_lt in Hlt. lia.
Qed.

Lemma SceneDecoder_scene_index_error (self : SceneDecoder) (B H A idx : nat)
  (a_idcs : list nat) :
  B <= idx \/ Exists (fun i => A <= i) a_idcs ->
  SceneDecoder_scene self [B; H] [A; H] [B; H] idx a_idcs = Raise IndexError.
Proof.
  intros Hbad. unfold SceneDecoder_scene.
  destruct (Nat.le_gt_cases B idx) as [Hge | Hlt].
  - unfold select. eval_dims. cbn [bind nth].
    now rewrite (norm_dim_out Hge).
  - destruct Hbad as [Hge | Hex]; [lia|].
    unfold select at 1. eval_dims. cbn [bind nth remove_nth].
    rewrite (norm_dim_nat Hlt). cbn [bind]. unfold unsqueeze at 1. cbn.
    now rewrite (index_out_of_range _ Hex).
Qed.

Lemma SceneDecoder_loop_index_error (self : SceneDecoder) (po : string)
  (H S K B A : nat) :
  basis po -> SceneDecoder_init po H S K = Ok self -> 0 < K ->
  forall (actor_idcs : list (list nat)) (k : nat),
    k <= B ->
    B < k + length actor_idcs \/ Exists (Exists (fun i => A <= i)) actor_idcs ->
    mapM (fun '(idx, a_idcs) => SceneDecoder_scene self [B; H] [A; H] [B; H] idx a_idcs)
         (combine (seq k (length actor_idcs)) actor_idcs)
    = Raise IndexError.
Proof.
  intros Hpo Hinit HK.
  induction actor_idcs as [|a l IH]; intros k Hk Hbad.
  - destruct Hbad as [Hlen | Hex]; [cbn in Hlen; lia | inversion Hex].
  - cbn [length seq combine mapM].
    destruct (Forall_Exists_dec (fun i => i < A) (fun i => lt_dec i A) a) as [Hgood | Hex].
    + destruct (Nat.eq_dec k B) as [-> | Hne].
      * rewrite SceneDecoder_scene_index_error by (left; lia). reflexivity.
      * erewrite SceneDecoder_scene_basis by (eauto; lia).
        cbn [bind]. rewrite IH; [reflexivity | lia |].
        destruct Hbad as [Hlen | Hex]; [left; cbn in Hlen; lia|].
        right. inversion Hex as [? ? Hh | ? ? Ht]; subst; [|assumption].
        exfalso. apply Exists_exists in Hh. destruct Hh as (i & Hi & Hge).
        pose proof (proj1 (Forall_forall _ _) Hgood i Hi) as Hlt.
        cbv beta in Hlt. lia.
    + rewrite SceneDecoder_scene_index_error; [reflexivity|].
      right. eapply Exists_impl; [|exact Hex]. cbn. intros i Hi. lia.
Qed.

(** X8: bounds of the decoder's indexing.  Under ['bezier'] and
    ['monomial'], when there are more actor groups than rows of [ctx] (and
    of the targets), or when some actor index is out of range of the
    fused actors, the forward pass raises [IndexError]. *)
Theorem decoder_index_errors (self : SceneDecoder) (po : string)
  (H S K B A : nat) (actor_idcs : list (list nat)) (tgt_feat : shape) :
  basis po -> SceneDecoder_init po H S K = Ok self -> 0 < K ->
  tgt_feat_of B H tgt_feat ->
  B < length actor_idcs \/ Exists (Exists (fun i => A <= i)) actor_idcs ->
  SceneDecoder_forward self [B; H] [A; H] actor_idcs tgt_feat [B; 20]
  = Raise IndexError.
Proof.
  intros Hpo Hinit HK Htgt Hbad.
  pose proof (SceneDecoder_init_basis _ _ _ Hpo Hinit) as (H0 & EH & _).
  unfold SceneDecoder_forward. rewrite EH.
  pose proof (SceneDecoder_tgt Htgt) as Et.
  destruct (proj_block (5 * 2 * 2) H [B; 20]) as [rp|]; [|discriminate].
  cbn [bind] in *.
  destruct (if length tgt_feat =? 1 then unsqueeze 0 tgt_feat else Ok tgt_feat)
    as [tf|]; [|discriminate].
  cbn [bind] in *. rewrite Et. cbn [bind].
  erewrite SceneDecoder_loop_index_error; [reflexivity | eauto .. | lia | exact Hbad].
Qed.

Lemma decoder_index_errors_witness :
  exists self,
    SceneDecoder_init "bezier" 8 4 2 = Ok self /\
    SceneDecoder_forward self [1; 8] [2; 8] [[0; 1]; [0]] [8] [1; 20] = Raise IndexError /\
    SceneDecoder_forward self [1; 8] [2; 8] [[0; 2]] [8] [1; 20] = Raise IndexError.
Proof.
  eexists. split; [reflexivity|]. split.
  - apply (@decoder_index_errors _ "bezier" 8 4 2 1 2 [[0; 1]; [0]] [8]).
    + left. reflexivity.
    + reflexivity.
    + lia.
    + right. split; reflexivity.
    + left. cbn. lia.
  - apply (@decoder_index_errors _ "bezier" 8 4 2 1 2 [[0; 2]] [8]).
    + left. reflexivity.
    + reflexivity.
    + lia.
    + right. split; reflexivity.
    + right. constructor. apply Exists_cons_tl. constructor. lia.
Defined.

(** X9: what [SceneDecoder.__init__] accepts, for positive [future_steps]
    and [num_modes].  With a hidden size that is
    a positive multiple of the four attention heads, the three names
    ['bezier'], ['monomial'] and ['none'] construct a decoder and every
    other name raises [NotImplementedError]; with a positive hidden size
    that is not a multiple of 4 the constructor raises [AssertionError]
    before it looks at the name. *)
Theorem decoder_constructor (po : string) (H S K : nat) :
  0 < H -> 0 < S -> 0 < K ->
  (H mod 4 = 0 ->
   ((po = "bezier" \/ po = "monomial" \/ po = "none")%string ->
    exists self, SceneDecoder_init po H S K = Ok self /\
                 hidden_size self = H /\ future_steps self = S /\
                 num_modes self = K /\ param_out self = po) /\
   (~ (po = "bezier" \/ po = "monomial" \/ po = "none")%string ->
    SceneDecoder_init po H S K = Raise NotImplementedError)) /\
  (H mod 4 <> 0 -> SceneDecoder_init po H S K = Raise AssertionError).
Proof.
  intros H0 _ _. unfold SceneDecoder_init, MultiheadAttention_init, assert.
  replace (0 <? H) with true by (symmetry; apply Nat.ltb_lt; lia).
  cbn [andb Nat.ltb Nat.leb bind].
  replace (0 <? 4) with true by reflexivity. cbn [bind].
  split.
  - intros H4. rewrite H4. cbn [Nat.eqb bind]. split.
    + intros [-> | [-> | ->]]; cbn; eexists; repeat split; reflexivity.
    + intros Hno.
      destruct (String.eqb_spec po "bezier"); [exfalso; auto|].
      destruct (String.eqb_spec po "monomial"); [exfalso; auto|].
      destruct (String.eqb_spec po "none"); [exfalso; auto|].
      reflexivity.
  - intros H4. replace (H mod 4 =? 0) with false by (symmetry; now apply Nat.eqb_neq).
    reflexivity.
Qed.

Lemma decoder_constructor_witness :
  (exists self, SceneDecoder_init "none" 128 30 6 = Ok self /\
                hidden_size self = 128 /\ future_steps self = 30 /\
                num_modes self = 6 /\ param_out self = "none"%string) /\
  SceneDecoder_init "spline" 128 30 6 = Raise NotImplementedError /\
  SceneDecoder_init "bezier" 10 30 6 = Raise AssertionError.
Proof.
  assert (H128 : 0 < 128) by lia.
  assert (H10 : 0 < 10) by lia.
  assert (H30 : 0 < 30) by lia.
  assert (H6 : 0 < 6) by lia.
  split; [|split].
  - apply (proj1 (@decoder_constructor "none" 128 30 6 H128 H30 H6)); [reflexivity|].
    right. right. reflexivity.
  - apply (proj1 (@decoder_constructor "spline" 128 30 6 H128 H30 H6)); [reflexivity|].
    intros [E | [E | E]]; discriminate.
  - apply (proj2 (@decoder_constructor "bezier" 10 30 6 H10 H30 H6)). discriminate.
Defined.

End ShapeProperties.

(** ** The decoder's arithmetic, continued *)

Module NumProperties.
Import Num NumFacts.
Local Open Scope R_scope.

#[local] Arguments sum : simpl never.

Lemma skipn_app_length {A : Type} (u v : list A) : skipn (length u) (u ++ v) = v.
Proof. induction u as [|x u IH]; [reflexivity | exact IH]. Qed.

Lemma variance_channels (T : matrix) (K n : nat) (param : tensor4) (a k j : nat) :
  has_shape4 K n 8 5 param -> (a < n)%nat -> (k < K)%nat -> (j < length T)%nat ->
  skipn 2 (row (entry4 (cat_exp (matmul4 T (permute_1023 (slice_last_to 2 param)))
                                (matmul4 T (permute_1023 (slice_last_from 2 param)))) a k) j)
  = map exp (row (log_variance T (entry4 param k a)) j) /\
  length (row (log_variance T (entry4 param k a)) j) = 3%nat.
Proof.
  intros Hp Ha Hk Hj.
  assert (H8 : (0 < 8)%nat) by lia.
  rewrite (trajectory_row T Hp H8 Ha Hk Hj).
  destruct (has_shape4_entry Hp Hk Ha) as [_ Hc].
  pose proof (is_matrix_row (position_is_matrix T Hc H8) Hj) as L2.
  pose proof (is_matrix_row (log_variance_is_matrix T Hc H8) Hj) as L3.
  split; [|exact L3].
  rewrite <- L2 at 1. apply skipn_app_length.
Qed.

Lemma Forall_exp_pos (v : vec) : Forall (fun x => 0 <= x) (map exp v).
Proof. apply Forall_map, Forall_forall. intros x _. left. apply exp_pos. Qed.

(** X10: no emitted variance is negative.  Under ['bezier'] and
    ['monomial'], for every regression output, actor, mode and future
    step, the channels after the two position channels are three in
    number and not negative, being exponentials.  (Over the reals they
    are positive; the statement is the one that rounding keeps, since a
    very negative log-variance underflows to zero in single precision.) *)
Theorem variances_are_not_negative (S K n : nat) (param : tensor4) (a k j : nat) :
  has_shape4 K n 8 5 param -> (a < n)%nat -> (k < K)%nat -> (j < S)%nat ->
  let var_b := skipn 2 (row (entry4 (fst (regress_bezier S param)) a k) j) in
  let var_m := skipn 2 (row (entry4 (fst (regress_monomial S param)) a k) j) in
  (length var_b = 3%nat /\ Forall (fun v => 0 <= v) var_b) /\
  (length var_m = 3%nat /\ Forall (fun v => 0 <= v) var_m).
Proof.
  intros Hp Ha Hk Hj. cbv zeta.
  assert (Hb : (j < length (_get_T_matrix_bezier N_ORDER S))%nat)
    by now rewrite T_bezier_length.
  assert (Hm : (j < length (_get_T_matrix_monomial N_ORDER S))%nat)
    by now rewrite T_monomial_length.
  rewrite regress_bezier_reg, regress_monomial_reg.
  destruct (variance_channels _ Hp Ha Hk Hb) as [-> Lb].
  destruct (variance_channels _ Hp Ha Hk Hm) as [-> Lm].
  rewrite !length_map. repeat split; auto using Forall_exp_pos.
Qed.

Lemma variances_are_not_negative_witness :
  let var_b := skipn 2 (row (entry4 (fst (regress_bezier 4 example_param)) 0 0) 1) in
  let var_m := skipn 2 (row (entry4 (fst (regress_monomial 4 example_param)) 0 0) 1) in
  (length var_b = 3%nat /\ Forall (fun v => 0 <= v) var_b) /\
  (length var_m = 3%nat /\ Forall (fun v => 0 <= v) var_m).
Proof.
  apply (@variances_are_not_negative 4 1 1 example_param 0 0 1); try lia.
  split; [reflexivity | repeat constructor].
Defined.

Lemma exp_le_sum (x : vec) (xi : R) : In xi x -> exp xi <= sum (map exp x).
Proof.
  induction x as [|y x IH]; intros Hin; [inversion Hin|].
  cbn [map]. rewrite sum_cons.
  assert (H0 : 0 <= sum (map exp x)).
  { clear. induction x as [|b x IH]; cbn [map]; rewrite ?sum_cons, ?sum_nil; [lra|].
    pose proof (exp_pos b). lra. }
  pose proof (exp_pos y).
  destruct Hin as [-> | Hin]; [lra|]. specialize (IH Hin). lra.
Qed.

Lemma softmax_range (x : vec) : Forall (fun p => 0 <= p <= 1) (softmax x).
Proof.
  unfold softmax. apply Forall_map, Forall_forall. intros xi Hin.
  assert (Hne : x <> []) by (intros ->; inversion Hin).
  pose proof (sum_exp_pos Hne) as HD.
  pose proof (exp_le_sum _ _ Hin) as Hle.
  pose proof (exp_pos xi) as Hpos.
  split.
  - left. apply Rdiv_lt_0_compat; assumption.
  - apply (Rmult_le_reg_r (sum (map exp x))); [assumption|].
    unfold Rdiv. rewrite Rmult_assoc, Rinv_l by lra. lra.
Qed.

(** X11: every probability that the decoder emits lies between 0 and 1,
    for any output of the classification head.  (Over the reals none is
    0; the statement is the one that rounding keeps, since the
    probability of a logit far below the largest underflows to zero in
    single precision.) *)
Theorem probabilities_in_range (cls : matrix) :
  Forall (Forall (fun p => 0 <= p <= 1)) (probabilities cls).
Proof.
  unfold probabilities, softmax_dim1. apply Forall_map, Forall_forall.
  intros x _. apply softmax_range.
Qed.

(** *** The derivative basis on either slice of the regression output *)

Lemma derived_entry (Tp : matrix) (q : R) (g : matrix -> matrix) (h : vec -> vec)
  (w K n r : nat) (param : tensor4) (a k : nat) :
  has_shape4 K n r 5 param -> (forall v, length v = 5%nat -> length (h v) = w) ->
  (a < n)%nat -> (k < K)%nat ->
  entry4 (div4 (matmul4 Tp (map (map g) (permute_1023 (map (map (map h)) param)))) q) a k
  = map (map (fun x => x / q)) (matmul Tp (g (map h (entry4 param k a)))).
Proof.
  intros Hp Hh Ha Hk.
  assert (H2 : has_shape4 K n r w (map (map (map h)) param)).
  { apply (has_shape4_map (map h) Hp). intros m Hm. exact (is_matrix_map h Hm Hh). }
  assert (P2 := has_shape4_dims2 (has_shape4_permute H2 ltac:(lia))).
  assert (G2 := has_dims2_map g P2).
  assert (M2 := has_dims2_map (matmul Tp) G2).
  unfold div4, matmul4.
  etransitivity; [exact (entry4_map_dims (map (map (fun x => x / q))) M2 Ha Hk)|].
  f_equal.
  etransitivity; [exact (entry4_map_dims (matmul Tp) G2 Ha Hk)|].
  f_equal.
  etransitivity; [exact (entry4_map_dims g P2 Ha Hk)|].
  f_equal.
  rewrite (entry4_permute H2 Ha Hk).
  exact (entry4_map_dims (map h) (has_shape4_dims2 Hp) Hk Ha).
Qed.

Lemma nth_skipn_shift {A : Type} (k c : nat) (v : list A) (d : A) :
  nth c (skipn k v) d = nth (k + c) v d.
Proof.
  revert v. induction k as [|k IH]; intros v; [reflexivity|].
  destruct v as [|x v]; [now destruct c | exact (IH v)].
Qed.

Lemma column_skipn (k c : nat) (M : matrix) :
  column c (map (skipn k) M) = column (k + c) M.
Proof.
  unfold column. rewrite map_map. apply map_ext. intros r. apply nth_skipn_shift.
Qed.

Lemma column_tail (c i : nat) (M : matrix) :
  nth i (column c (skipn 1 M)) 0 = nth (S i) (column c M) 0.
Proof. unfold column. rewrite <- skipn_map. apply (nth_skipn_shift 1). Qed.

Lemma is_matrix_tail (r w : nat) (M : matrix) :
  is_matrix r w M -> is_matrix (r - 1) w (skipn 1 M).
Proof.
  intros [HL HF]. split; [rewrite length_skipn; unfold matrix, vec in *; lia|].
  destruct M as [|x M]; [constructor | now inversion HF].
Qed.

Lemma Tp_monomial_length (n n_step : nat) :
  length (_get_Tp_matrix_monomial n n_step) = n_step.
Proof. apply basis_length. Qed.

Lemma Tp_monomial_entry (n w n_step : nat) (P : matrix) (j c : nat) :
  is_matrix n w P -> (0 < n)%nat -> (j < n_step)%nat -> (c < w)%nat ->
  nth c (row (matmul (_get_Tp_matrix_monomial n n_step) P) j) 0
  = sum (map (fun i => INR (i + 1) * nth j (linspace 0 1 n_step) 0 ^ i
                       * nth i (column c P) 0)
             (seq 0 n)).
Proof.
  intros HP Hn Hj Hc. unfold _get_Tp_matrix_monomial.
  exact (basis_entry (fun i t => INR (i + 1) * t ^ i) HP Hn Hj Hc).
Qed.

(** The derivative of a polynomial in the power basis. *)
Lemma monomial_curve_derivable (P : vec) (t : R) :
  derivable_pt_lim (monomial_curve P) t
    (sum (map (fun i => INR (i + 1) * t ^ i * nth (S i) P 0) (seq 0 (length P - 1)))).
Proof.
  assert (D : derivable_pt_lim (monomial_curve P) t
                (sum (map (fun i => INR i * t ^ pred i * nth i P 0) (seq 0 (length P))))).
  { apply (sum_derivable (fun i x => x ^ i * nth i P 0)).
    intros i _.
    pose proof (derivable_pt_lim_mult _ _ _ _ _
                  (derivable_pt_lim_pow t i)
                  (derivable_pt_lim_const (nth i P 0) t)) as D.
    match type of D with derivable_pt_lim _ _ ?l =>
      match goal with |- derivable_pt_lim _ _ ?l' => replace l' with l end
    end.
    - exact D.
    - unfold fct_cte. ring. }
  match type of D with derivable_pt_lim _ _ ?l =>
    match goal with |- derivable_pt_lim _ _ ?l' => replace l' with l; [exact D|] end
  end.
  destruct (length P) as [|m]; [reflexivity|].
  rewrite sum_seq_first. cbn [INR pred]. replace (S m - 1)%nat with m by lia.
  rewrite Rmult_0_l, Rmult_0_l, Rplus_0_l.
  apply sum_map_ext. intros i _. now replace (i + 1)%nat with (S i) by lia.
Qed.

Lemma firstn_width (v : vec) : length v = 5%nat -> length (firstn 2 v) = 2%nat.
Proof. intros H. rewrite length_firstn. lia. Qed.

Lemma skipn_width (v : vec) : length v = 5%nat -> length (skipn 2 v) = 3%nat.
Proof. intros H. rewrite length_skipn. lia. Qed.

Section Derivatives.

Variables (steps K n : nat) (param : tensor4) (a k : nat).
Hypothesis Hp : has_shape4 K n 8 5 param.
Hypothesis Ha : (a < n)%nat.
Hypothesis Hk : (k < K)%nat.

Let ctrl : matrix := entry4 param k a.
Let t (j : nat) : R := nth j (linspace 0 1 steps) 0.

Lemma ctrl_matrix : is_matrix 8 5 ctrl.
Proof. exact (proj2 (has_shape4_entry Hp Hk Ha)). Qed.

Lemma monomial_velocity (j c : nat) :
  (j < steps)%nat -> (c < 2)%nat ->
  exists d,
    derivable_pt_lim (monomial_curve (column c ctrl)) (t j) d /\
    nth c (row (entry4 (fst (fst (snd (regress_monomial steps param)))) a k) j) 0
    = d / (INR steps * (1 / 10)).
Proof.
  intros Hj Hc.
  pose proof ctrl_matrix as Hm.
  assert (H2 : is_matrix 8 2 (map (firstn 2) ctrl)) by exact (is_matrix_map _ Hm firstn_width).
  assert (H7 : is_matrix N_ORDER 2 (skipn 1 (map (firstn 2) ctrl)))
    by exact (is_matrix_tail H2).
  assert (HN : (0 < N_ORDER)%nat) by (unfold N_ORDER; lia).
  exists (nth c (row (matmul (_get_Tp_matrix_monomial N_ORDER steps)
                        (skipn 1 (map (firstn 2) ctrl))) j) 0).
  split.
  - rewrite (Tp_monomial_entry H7 HN Hj Hc).
    pose proof (monomial_curve_derivable (column c ctrl) (t j)) as D.
    rewrite column_length, (proj1 Hm) in D.
    match type of D with derivable_pt_lim _ _ ?l =>
      match goal with |- derivable_pt_lim _ _ ?l' => replace l' with l; [exact D|] end
    end.
    apply sum_map_ext. intros i _.
    now rewrite column_tail, (column_firstn (k := 2) ctrl Hc).
  - change (fst (fst (snd (regress_monomial steps param))))
      with (div4 (matmul4 (_get_Tp_matrix_monomial N_ORDER steps)
                    (map (map (skipn 1))
                       (permute_1023 (map (map (map (firstn 2))) param))))
                 (INR steps * (1 / 10))).
    rewrite (derived_entry _ _ (skipn 1) (firstn 2) Hp firstn_width Ha Hk).
    assert (HM : is_matrix steps 2 (matmul (_get_Tp_matrix_monomial N_ORDER steps)
                                      (skipn 1 (map (firstn 2) ctrl)))).
    { rewrite <- (Tp_monomial_length N_ORDER steps) at 1.
      exact (is_matrix_matmul _ H7 HN). }
    exact (scaled_entry _ HM Hj Hc).
Qed.

Lemma bezier_log_variance (j c : nat) :
  (j < steps)%nat -> (c < 3)%nat ->
  nth (2 + c) (row (entry4 (fst (regress_bezier steps param)) a k) j) 0
  = exp (bezier_curve (column (2 + c) ctrl) (t j)).
Proof.
  intros Hj Hc.
  pose proof ctrl_matrix as Hm.
  assert (HT : (j < length (_get_T_matrix_bezier N_ORDER steps))%nat)
    by now rewrite T_bezier_length.
  assert (H8 : (0 < 8)%nat) by lia.
  rewrite regress_bezier_reg, (trajectory_row _ Hp H8 Ha Hk HT).
  pose proof (is_matrix_row (position_is_matrix _ Hm H8) HT) as L2.
  pose proof (is_matrix_row (log_variance_is_matrix _ Hm H8) HT) as L3.
  fold ctrl. fold ctrl in L2, L3.
  rewrite app_nth2 by (rewrite L2; lia).
  rewrite L2. replace (2 + c - 2)%nat with c by lia.
  rewrite (nth_map_in exp _ 0 0) by (rewrite L3; lia).
  f_equal. unfold log_variance.
  assert (H3 : is_matrix (N_ORDER + 1) 3 (map (skipn 2) ctrl))
    by exact (is_matrix_map _ Hm skipn_width).
  rewrite (T_bezier_entry N_ORDER H3 Hj Hc). now rewrite column_skipn.
Qed.

Lemma bezier_variance_velocity (j c : nat) :
  (j < steps)%nat -> (c < 3)%nat ->
  exists d,
    derivable_pt_lim (bezier_curve (column (2 + c) ctrl)) (t j) d /\
    nth c (row (entry4 (snd (fst (snd (regress_bezier steps param)))) a k) j) 0
    = d / (INR steps * (1 / 10)).
Proof.
  intros Hj Hc.
  pose proof ctrl_matrix as Hm.
  assert (H3 : is_matrix (N_ORDER + 1) 3 (map (skipn 2) ctrl))
    by exact (is_matrix_map _ Hm skipn_width).
  assert (HN : (0 < N_ORDER)%nat) by (unfold N_ORDER; lia).
  exists (nth c (row (matmul (_get_Tp_matrix_bezier N_ORDER steps)
                        (diff_rows (map (skipn 2) ctrl))) j) 0).
  split.
  - rewrite <- (column_skipn 2 c ctrl).
    exact (Tp_bezier_derivative H3 HN Hj Hc).
  - change (snd (fst (snd (regress_bezier steps param))))
      with (div4 (matmul4 (_get_Tp_matrix_bezier N_ORDER steps)
                    (map (map diff_rows)
                       (permute_1023 (map (map (map (skipn 2))) param))))
                 (INR steps * (1 / 10))).
    rewrite (derived_entry _ _ diff_rows (skipn 2) Hp skipn_width Ha Hk).
    assert (HM : is_matrix steps 3 (matmul (_get_Tp_matrix_bezier N_ORDER steps)
                                      (diff_rows (map (skipn 2) ctrl)))).
    { rewrite <- (Tp_bezier_length N_ORDER steps) at 1.
      assert (H7 : (0 < N_ORDER + 1 - 1)%nat) by (unfold N_ORDER; lia).
      exact (is_matrix_matmul _ (is_matrix_diff_rows H3) H7). }
    exact (scaled_entry _ HM Hj Hc).
Qed.

Lemma monomial_variance_velocity (j c : nat) :
  (j < steps)%nat -> (c < 3)%nat ->
  nth c (row (entry4 (snd (fst (snd (regress_monomial steps param)))) a k) j) 0
  = sum (map (fun i => INR (i + 1) * t j ^ i
                       * (nth (S i) (column (2 + c) ctrl) 0 - nth i (column (2 + c) ctrl) 0))
             (seq 0 N_ORDER))
    / (INR steps * (1 / 10)).
Proof.
  intros Hj Hc.
  pose proof ctrl_matrix as Hm.
  assert (H3 : is_matrix (N_ORDER + 1) 3 (map (skipn 2) ctrl))
    by exact (is_matrix_map _ Hm skipn_width).
  assert (HN : (0 < N_ORDER)%nat) by (unfold N_ORDER; lia).
  pose proof (is_matrix_diff_rows H3) as HD.
  replace (N_ORDER + 1 - 1)%nat with N_ORDER in HD by lia.
  change (snd (fst (snd (regress_monomial steps param))))
    with (div4 (matmul4 (_get_Tp_matrix_monomial N_ORDER steps)
                  (map (map diff_rows)
                     (permute_1023 (map (map (map (skipn 2))) param))))
               (INR steps * (1 / 10))).
  rewrite (derived_entry _ _ diff_rows (skipn 2) Hp skipn_width Ha Hk).
  assert (HM : is_matrix steps 3 (matmul (_get_Tp_matrix_monomial N_ORDER steps)
                                    (diff_rows (map (skipn 2) ctrl)))).
  { rewrite <- (Tp_monomial_length N_ORDER steps) at 1.
    exact (is_matrix_matmul _ HD HN). }
  fold ctrl.
  rewrite (scaled_entry _ HM Hj Hc). f_equal.
  rewrite (Tp_monomial_entry HD HN Hj Hc).
  apply sum_map_ext. intros i Hi%in_seq.
  rewrite (diff_rows_column c H3) by lia.
  now rewrite column_skipn.
Qed.

Lemma monomial_log_variance (j c : nat) :
  (j < steps)%nat -> (c < 3)%nat ->
  nth (2 + c) (row (entry4 (fst (regress_monomial steps param)) a k) j) 0
  = exp (monomial_curve (column (2 + c) ctrl) (t j)).
Proof.
  intros Hj Hc.
  pose proof ctrl_matrix as Hm.
  assert (HT : (j < length (_get_T_matrix_monomial N_ORDER steps))%nat)
    by now rewrite T_monomial_length.
  assert (H8 : (0 < 8)%nat) by lia.
  rewrite regress_monomial_reg, (trajectory_row _ Hp H8 Ha Hk HT).
  pose proof (is_matrix_row (position_is_matrix _ Hm H8) HT) as L2.
  pose proof (is_matrix_row (log_variance_is_matrix _ Hm H8) HT) as L3.
  fold ctrl. fold ctrl in L2, L3.
  rewrite app_nth2 by (rewrite L2; lia).
  rewrite L2. replace (2 + c - 2)%nat with c by lia.
  rewrite (nth_map_in exp _ 0 0) by (rewrite L3; lia).
  f_equal. unfold log_variance.
  assert (H3 : is_matrix (N_ORDER + 1) 3 (map (skipn 2) ctrl))
    by exact (is_matrix_map _ Hm skipn_width).
  rewrite (T_monomial_entry N_ORDER H3 Hj Hc). now rewrite column_skipn.
Qed.

Lemma monomial_position (j c : nat) :
  (j < steps)%nat -> (c < 2)%nat ->
  nth c (row (entry4 (fst (regress_monomial steps param)) a k) j) 0
  = monomial_curve (column c ctrl) (t j).
Proof.
  intros Hj Hc.
  pose proof ctrl_matrix as Hm.
  assert (HT : (j < length (_get_T_matrix_monomial N_ORDER steps))%nat)
    by now rewrite T_monomial_length.
  assert (H8 : (0 < 8)%nat) by lia.
  rewrite regress_monomial_reg, (trajectory_row _ Hp H8 Ha Hk HT).
  pose proof (is_matrix_row (position_is_matrix _ Hm H8) HT) as L2.
  fold ctrl. fold ctrl in L2.
  rewrite app_nth1 by (rewrite L2; lia).
  exact (position_monomial Hm Hj Hc).
Qed.

Lemma bezier_position (j c : nat) :
  (j < steps)%nat -> (c < 2)%nat ->
  nth c (row (entry4 (fst (regress_bezier steps param)) a k) j) 0
  = bezier_curve (column c ctrl) (t j).
Proof.
  intros Hj Hc.
  pose proof ctrl_matrix as Hm.
  assert (HT : (j < length (_get_T_matrix_bezier N_ORDER steps))%nat)
    by now rewrite T_bezier_length.
  assert (H8 : (0 < 8)%nat) by lia.
  rewrite regress_bezier_reg, (trajectory_row _ Hp H8 Ha Hk HT).
  pose proof (is_matrix_row (position_is_matrix _ Hm H8) HT) as L2.
  fold ctrl. fold ctrl in L2.
  rewrite app_nth1 by (rewrite L2; lia).
  exact (position_bezier Hm Hj Hc).
Qed.

End Derivatives.

(** X12: under ['monomial'] the emitted velocity is the analytic
    derivative of the position polynomial at the same sample time, divided
    by [future_steps * 0.1]: for every regression output, actor, mode,
    future step [j] and position channel [c], the emitted position is the
    polynomial with the channel's eight coefficients at [ts[j]], and the
    emitted velocity is the derivative of that polynomial at [ts[j]] over
    [future_steps * 0.1]. *)
Theorem monomial_velocity_is_derivative
  (steps K n : nat) (param : tensor4) (a k j c : nat) :
  has_shape4 K n 8 5 param -> (a < n)%nat -> (k < K)%nat ->
  (j < steps)%nat -> (c < 2)%nat ->
  let P := column c (entry4 param k a) in
  let t := nth j (linspace 0 1 steps) 0 in
  let reg := fst (regress_monomial steps param) in
  let vel := fst (fst (snd (regress_monomial steps param))) in
  nth c (row (entry4 reg a k) j) 0 = monomial_curve P t /\
  exists d,
    derivable_pt_lim (monomial_curve P) t d /\
    nth c (row (entry4 vel a k) j) 0 = d / (INR steps * (1 / 10)).
Proof.
  intros Hp Ha Hk Hj Hc. cbv zeta. split.
  - exact (monomial_position Hp Ha Hk Hj Hc).
  - exact (monomial_velocity Hp Ha Hk Hj Hc).
Qed.

Lemma monomial_velocity_is_derivative_witness :
  let P := column 0 (entry4 example_param 0 0) in
  let t := nth 1 (linspace 0 1 4) 0 in
  nth 0 (row (entry4 (fst (regress_monomial 4 example_param)) 0 0) 1) 0
  = monomial_curve P t /\
  exists d,
    derivable_pt_lim (monomial_curve P) t d /\
    nth 0 (row (entry4 (fst (fst (snd (regress_monomial 4 example_param)))) 0 0) 1) 0
    = d / (INR 4 * (1 / 10)).
Proof.
  apply (@monomial_velocity_is_derivative 4 1 1 example_param 0 0 1 0); try lia.
  split; [reflexivity | repeat constructor].
Defined.

(** X13: under ['bezier'] each emitted variance is the exponential of the
    Bezier curve of its log-variance control values, and the variance
    velocity [cov_vel] is the derivative of that log-variance curve (not of
    the variance) at the same sample time, divided by [future_steps *
    0.1]. *)
Theorem bezier_variance_velocity_is_derivative
  (steps K n : nat) (param : tensor4) (a k j c : nat) :
  has_shape4 K n 8 5 param -> (a < n)%nat -> (k < K)%nat ->
  (j < steps)%nat -> (c < 3)%nat ->
  let Q := column (2 + c) (entry4 param k a) in
  let t := nth j (linspace 0 1 steps) 0 in
  let reg := fst (regress_bezier steps param) in
  let cov_vel := snd (fst (snd (regress_bezier steps param))) in
  nth (2 + c) (row (entry4 reg a k) j) 0 = exp (bezier_curve Q t) /\
  exists d,
    derivable_pt_lim (bezier_curve Q) t d /\
    nth c (row (entry4 cov_vel a k) j) 0 = d / (INR steps * (1 / 10)).
Proof.
  intros Hp Ha Hk Hj Hc. cbv zeta. split.
  - exact (bezier_log_variance Hp Ha Hk Hj Hc).
  - exact (bezier_variance_velocity Hp Ha Hk Hj Hc).
Qed.

Lemma bezier_variance_velocity_is_derivative_witness :
  let Q := column 2 (entry4 example_param 0 0) in
  let t := nth 1 (linspace 0 1 4) 0 in
  nth 2 (row (entry4 (fst (regress_bezier 4 example_param)) 0 0) 1) 0
  = exp (bezier_curve Q t) /\
  exists d,
    derivable_pt_lim (bezier_curve Q) t d /\
    nth 0 (row (entry4 (snd (fst (snd (regress_bezier 4 example_param)))) 0 0) 1) 0
    = d / (INR 4 * (1 / 10)).
Proof.
  apply (@bezier_variance_velocity_is_derivative 4 1 1 example_param 0 0 1 0); try lia.
  split; [reflexivity | repeat constructor].
Defined.

(** X14: under ['monomial'] the variance velocity is computed from the
    first differences of the log-variance coefficients ([torch.diff]),
    unlike the position velocity, which uses the coefficients 1..7
    themselves.  It therefore equals the derivative of the log-variance
    polynomial minus [sum_i (i + 1) * t ^ i * q_i] over the first seven
    coefficients [q_i], all divided by [future_steps * 0.1]. *)
Theorem monomial_variance_velocity_uses_differences
  (steps K n : nat) (param : tensor4) (a k j c : nat) :
  has_shape4 K n 8 5 param -> (a < n)%nat -> (k < K)%nat ->
  (j < steps)%nat -> (c < 3)%nat ->
  let Q := column (2 + c) (entry4 param k a) in
  let t := nth j (linspace 0 1 steps) 0 in
  let reg := fst (regress_monomial steps param) in
  let cov_vel := snd (fst (snd (regress_monomial steps param))) in
  nth (2 + c) (row (entry4 reg a k) j) 0 = exp (monomial_curve Q t) /\
  exists d,
    derivable_pt_lim (monomial_curve Q) t d /\
    nth c (row (entry4 cov_vel a k) j) 0
    = (d - sum (map (fun i => INR (i + 1) * t ^ i * nth i Q 0) (seq 0 N_ORDER)))
      / (INR steps * (1 / 10)).
Proof.
  intros Hp Ha Hk Hj Hc. cbv zeta. split.
  - exact (monomial_log_variance Hp Ha Hk Hj Hc).
  - eexists. split; [apply monomial_curve_derivable|].
    rewrite (monomial_variance_velocity Hp Ha Hk Hj Hc). f_equal.
    rewrite column_length, (proj1 (proj2 (has_shape4_entry Hp Hk Ha))).
    change (8 - 1)%nat with N_ORDER.
    rewrite <- sum_map_minus. apply sum_map_ext. intros i _. ring.
Qed.

Lemma monomial_variance_velocity_uses_differences_witness :
  let Q := column 2 (entry4 example_param 0 0) in
  let t := nth 1 (linspace 0 1 4) 0 in
  nth 2 (row (entry4 (fst (regress_monomial 4 example_param)) 0 0) 1) 0
  = exp (monomial_curve Q t) /\
  exists d,
    derivable_pt_lim (monomial_curve Q) t d /\
    nth 0 (row (entry4 (snd (fst (snd (regress_monomial 4 example_param)))) 0 0) 1) 0
    = (d - sum (map (fun i => INR (i + 1) * t ^ i * nth i Q 0) (seq 0 N_ORDER)))
      / (INR 4 * (1 / 10)).
Proof.
  apply (@monomial_variance_velocity_uses_differences 4 1 1 example_param 0 0 1 0);
    try lia.
  split; [reflexivity | repeat constructor].
Defined.

(** *** The Bezier curve stays between its control values *)

Lemma sum_map_nonneg {A : Type} (f : A -> R) (l : list A) :
  (forall i, In i l -> 0 <= f i) -> 0 <= sum (map f l).
Proof.
  induction l as [|x l IH]; cbn [map]; intros H; rewrite ?sum_nil, ?sum_cons; [lra|].
  pose proof (H x (or_introl eq_refl)).
  assert (0 <= sum (map f l)) by (apply IH; intros; apply H; now right). lra.
Qed.

Lemma bernstein_nonneg (n i : nat) (t : R) : 0 <= t <= 1 -> 0 <= bernstein n i t.
Proof.
  intros [H0 H1]. unfold bernstein.
  apply Rmult_le_pos; [apply Rmult_le_pos|].
  - apply pos_INR.
  - apply pow_le. lra.
  - now apply pow_le.
Qed.

Lemma bernstein_0 (n : nat) (t : R) : bernstein (S n) 0 t = (1 - t) * bernstein n 0 t.
Proof. unfold bernstein. rewrite !comb_0_r, !Nat.sub_0_r. cbn. ring. Qed.

Lemma bernstein_S (n i : nat) (t : R) :
  bernstein (S n) (S i) t = t * bernstein n i t + (1 - t) * bernstein n (S i) t.
Proof.
  unfold bernstein. cbn [comb Nat.sub]. rewrite plus_INR.
  destruct (Nat.lt_ge_cases i n) as [Hi | Hi].
  - replace (n - i)%nat with (S (n - S i)) by lia. cbn [pow]. ring.
  - rewrite (comb_gt (n := n) (k := S i)) by lia. cbn [INR pow]. ring.
Qed.

(** The Bernstein polynomials of a degree sum to 1. *)
Lemma bernstein_partition (n : nat) (t : R) :
  sum (map (fun i => bernstein n i t) (seq 0 (S n))) = 1.
Proof.
  induction n as [|n IH].
  - cbn [seq map]. rewrite sum_cons, sum_nil. unfold bernstein. cbn. ring.
  - rewrite sum_seq_first, bernstein_0.
    rewrite (sum_map_ext _ (fun i => t * bernstein n i t + (1 - t) * bernstein n (S i) t))
      by (intros; apply bernstein_S).
    rewrite sum_map_plus, !sum_map_scal, IH.
    rewrite (sum_seq_last (fun i => bernstein n (S i) t) 0 n).
    assert (E : bernstein n (S (0 + n)) t = 0).
    { unfold bernstein. rewrite comb_gt by lia. cbn [INR]. ring. }
    rewrite E.
    rewrite sum_seq_first in IH.
    match type of IH with ?X + ?Y = 1 =>
      assert (HX : X = 1 - Y) by lra; rewrite HX
    end.
    ring.
Qed.

Lemma bezier_curve_between (P : vec) (t lo hi : R) :
  (0 < length P)%nat -> 0 <= t <= 1 ->
  (forall i, (i < length P)%nat -> lo <= nth i P 0 <= hi) ->
  lo <= bezier_curve P t <= hi.
Proof.
  intros HP Ht HB. unfold bezier_curve.
  destruct (length P) as [|m]; [lia|].
  replace (S m - 1)%nat with m by lia.
  pose proof (bernstein_partition m t) as H1.
  assert (Hlo : 0 <= sum (map (fun i => bernstein m i t * (nth i P 0 - lo)) (seq 0 (S m)))).
  { apply sum_map_nonneg. intros i Hi%in_seq.
    apply Rmult_le_pos; [now apply bernstein_nonneg | specialize (HB i ltac:(lia)); lra]. }
  assert (Hhi : 0 <= sum (map (fun i => bernstein m i t * (hi - nth i P 0)) (seq 0 (S m)))).
  { apply sum_map_nonneg. intros i Hi%in_seq.
    apply Rmult_le_pos; [now apply bernstein_nonneg | specialize (HB i ltac:(lia)); lra]. }
  rewrite (sum_map_ext _ (fun i => bernstein m i t * nth i P 0 - lo * bernstein m i t))
    in Hlo by (intros; ring).
  rewrite (sum_map_ext _ (fun i => hi * bernstein m i t - bernstein m i t * nth i P 0))
    in Hhi by (intros; ring).
  rewrite sum_map_minus, sum_map_scal, H1 in Hlo, Hhi. lra.
Qed.

Lemma linspace_range (n j : nat) : (j < n)%nat -> 0 <= nth j (linspace 0 1 n) 0 <= 1.
Proof.
  intros Hj. unfold linspace. rewrite nth_map_seq by assumption.
  destruct (1 <? n)%nat eqn:E1; cbn [andb].
  - apply Nat.ltb_lt in E1.
    destruct (j =? n - 1)%nat eqn:E2; [lra|].
    apply Nat.eqb_neq in E2.
    assert (Hn : 0 < INR (n - 1)) by (apply lt_0_INR; lia).
    assert (Hle : INR j <= INR (n - 1)) by (apply le_INR; lia).
    pose proof (pos_INR j) as H0.
    replace (INR j * ((1 - 0) / INR (n - 1)) + 0) with (INR j / INR (n - 1))
      by (field; lra).
    split.
    + apply Rmult_le_pos; [assumption|]. left. now apply Rinv_0_lt_compat.
    + apply (Rmult_le_reg_r (INR (n - 1))); [assumption|].
      unfold Rdiv. rewrite Rmult_assoc, Rinv_l by lra. lra.
  - apply Nat.ltb_ge in E1. assert (j = 0%nat) as -> by lia. cbn [INR]. lra.
Qed.

(** X15: under ['bezier'] every emitted position lies between the
    smallest and the largest of its control values: if the eight control
    values of a position channel are within [[lo, hi]], so is the position
    at every future step. *)
Theorem bezier_positions_within_control_values
  (steps K n : nat) (param : tensor4) (a k j c : nat) (lo hi : R) :
  has_shape4 K n 8 5 param -> (a < n)%nat -> (k < K)%nat ->
  (j < steps)%nat -> (c < 2)%nat ->
  (forall i, (i < 8)%nat -> lo <= nth c (row (entry4 param k a) i) 0 <= hi) ->
  lo <= nth c (row (entry4 (fst (regress_bezier steps param)) a k) j) 0 <= hi.
Proof.
  intros Hp Ha Hk Hj Hc HB.
  rewrite (bezier_position Hp Ha Hk Hj Hc).
  assert (HL : length (column c (entry4 param k a)) = 8%nat)
    by (rewrite column_length; apply (has_shape4_entry Hp Hk Ha)).
  apply bezier_curve_between.
  - rewrite HL. lia.
  - now apply linspace_range.
  - intros i Hi. rewrite column_nth. apply HB. now rewrite <- HL.
Qed.

Lemma bezier_positions_within_control_values_witness :
  0 <= nth 0 (row (entry4 (fst (regress_bezier 4 example_param)) 0 0) 1) 0 <= 1.
Proof.
  apply (@bezier_positions_within_control_values 4 1 1 example_param 0 0 1 0 0 1);
    try lia.
  - split; [reflexivity | repeat constructor].
  - intros i Hi.
    do 8 (destruct i as [|i]; [cbn; lra|]). lia.
Defined.


(** *** Velocities at both ends *)

Section EndVelocities.

Variables (steps K n : nat) (param : tensor4) (a k : nat).
Hypothesis Hp : has_shape4 K n 8 5 param.
Hypothesis Ha : (a < n)%nat.
Hypothesis Hk : (k < K)%nat.

Let ctrl : matrix := entry4 param k a.
Let t (j : nat) : R := nth j (linspace 0 1 steps) 0.

Lemma bezier_velocity_sum (j c : nat) :
  (j < steps)%nat -> (c < 2)%nat ->
  nth c (row (entry4 (fst (fst (snd (regress_bezier steps param)))) a k) j) 0
  = sum (map (fun i => bernstein_p N_ORDER i (t j)
                       * (nth (S i) (column c ctrl) 0 - nth i (column c ctrl) 0))
             (seq 0 N_ORDER))
    / (INR steps * (1 / 10)).
Proof.
  intros Hj Hc.
  pose proof (ctrl_matrix Hp Ha Hk) as Hm.
  assert (H2 : is_matrix (N_ORDER + 1) 2 (map (firstn 2) (entry4 param k a)))
    by exact (is_matrix_map _ Hm firstn_width).
  assert (HN : (0 < N_ORDER)%nat) by (unfold N_ORDER; lia).
  pose proof (is_matrix_diff_rows H2) as HD.
  replace (N_ORDER + 1 - 1)%nat with N_ORDER in HD by lia.
  change (fst (fst (snd (regress_bezier steps param))))
    with (div4 (matmul4 (_get_Tp_matrix_bezier N_ORDER steps)
                  (map (map diff_rows)
                     (permute_1023 (map (map (map (firstn 2))) param))))
               (INR steps * (1 / 10))).
  rewrite (derived_entry _ _ diff_rows (firstn 2) Hp firstn_width Ha Hk).
  assert (HM : is_matrix steps 2 (matmul (_get_Tp_matrix_bezier N_ORDER steps)
                                    (diff_rows (map (firstn 2) (entry4 param k a))))).
  { rewrite <- (Tp_bezier_length N_ORDER steps) at 1.
    exact (is_matrix_matmul _ HD HN). }
  rewrite (scaled_entry _ HM Hj Hc). f_equal.
  rewrite (Tp_bezier_entry H2 HN Hj Hc).
  apply sum_map_ext. intros i _.
  now rewrite (column_firstn (k := 2) (entry4 param k a) Hc).
Qed.

Lemma monomial_velocity_sum (j c : nat) :
  (j < steps)%nat -> (c < 2)%nat ->
  nth c (row (entry4 (fst (fst (snd (regress_monomial steps param)))) a k) j) 0
  = sum (map (fun i => INR (i + 1) * t j ^ i * nth (S i) (column c ctrl) 0)
             (seq 0 N_ORDER))
    / (INR steps * (1 / 10)).
Proof.
  intros Hj Hc.
  pose proof (ctrl_matrix Hp Ha Hk) as Hm.
  assert (H2 : is_matrix 8 2 (map (firstn 2) (entry4 param k a)))
    by exact (is_matrix_map _ Hm firstn_width).
  assert (H7 : is_matrix N_ORDER 2 (skipn 1 (map (firstn 2) (entry4 param k a))))
    by exact (is_matrix_tail H2).
  assert (HN : (0 < N_ORDER)%nat) by (unfold N_ORDER; lia).
  change (fst (fst (snd (regress_monomial steps param))))
    with (div4 (matmul4 (_get_Tp_matrix_monomial N_ORDER steps)
                  (map (map (skipn 1))
                     (permute_1023 (map (map (map (firstn 2))) param))))
               (INR steps * (1 / 10))).
  rewrite (derived_entry _ _ (skipn 1) (firstn 2) Hp firstn_width Ha Hk).
  assert (HM : is_matrix steps 2 (matmul (_get_Tp_matrix_monomial N_ORDER steps)
                                    (skipn 1 (map (firstn 2) (entry4 param k a))))).
  { rewrite <- (Tp_monomial_length N_ORDER steps) at 1.
    exact (is_matrix_matmul _ H7 HN). }
  rewrite (scaled_entry _ HM Hj Hc). f_equal.
  rewrite (Tp_monomial_entry H7 HN Hj Hc).
  apply sum_map_ext. intros i _.
  now rewrite column_tail, (column_firstn (k := 2) (entry4 param k a) Hc).
Qed.

Lemma bezier_first_velocity (c : nat) :
  (1 <= steps)%nat -> (c < 2)%nat ->
  nth c (row (entry4 (fst (fst (snd (regress_bezier steps param)))) a k) 0) 0
  = 7 * (nth 1 (column c ctrl) 0 - nth 0 (column c ctrl) 0) / (INR steps * (1 / 10)).
Proof.
  intros HS Hc. rewrite bezier_velocity_sum by lia. f_equal.
  unfold t. rewrite linspace_first by lia.
  rewrite (sum_single _ (m := N_ORDER) (k := 0%nat)).
  - unfold bernstein_p, N_ORDER. cbn. ring.
  - unfold N_ORDER. lia.
  - intros i _ Hi. unfold bernstein_p. rewrite (pow_0_l (i := i)) by lia. ring.
Qed.

Lemma bezier_last_velocity (c : nat) :
  (2 <= steps)%nat -> (c < 2)%nat ->
  nth c (row (entry4 (fst (fst (snd (regress_bezier steps param)))) a k) (steps - 1)) 0
  = 7 * (nth 7 (column c ctrl) 0 - nth 6 (column c ctrl) 0) / (INR steps * (1 / 10)).
Proof.
  intros HS Hc. rewrite bezier_velocity_sum by lia. f_equal.
  unfold t. rewrite linspace_last by lia.
  rewrite (sum_single _ (m := N_ORDER) (k := 6%nat)).
  - unfold bernstein_p, N_ORDER. cbn. ring.
  - unfold N_ORDER. lia.
  - intros i Hi Hne. unfold bernstein_p, N_ORDER in *.
    replace (1 - 1) with 0 by ring.
    rewrite (pow_0_l (i := (7 - 1 - i)%nat)) by lia. ring.
Qed.

Lemma monomial_first_velocity (c : nat) :
  (1 <= steps)%nat -> (c < 2)%nat ->
  nth c (row (entry4 (fst (fst (snd (regress_monomial steps param)))) a k) 0) 0
  = nth 1 (column c ctrl) 0 / (INR steps * (1 / 10)).
Proof.
  intros HS Hc. rewrite monomial_velocity_sum by lia. f_equal.
  unfold t. rewrite linspace_first by lia.
  rewrite (sum_single _ (m := N_ORDER) (k := 0%nat)).
  - cbn. ring.
  - unfold N_ORDER. lia.
  - intros i _ Hi. rewrite (pow_0_l (i := i)) by lia. ring.
Qed.

End EndVelocities.

(** X19: the velocity at both ends of the horizon.  Under ['bezier'] the
    velocity at the first future step is [7 * (p1 - p0)] and, when
    [future_steps >= 2], the velocity at the last step is [7 * (p7 - p6)],
    for the control values [p0 .. p7] of the position channel; under
    ['monomial'] the velocity at the first step is the coefficient [p1].
    All are divided by [future_steps * 0.1]. *)
Theorem end_velocities (steps K n : nat) (param : tensor4) (a k c : nat) :
  has_shape4 K n 8 5 param -> (a < n)%nat -> (k < K)%nat -> (c < 2)%nat ->
  let p := column c (entry4 param k a) in
  let bezier := entry4 (fst (fst (snd (regress_bezier steps param)))) a k in
  let monomial := entry4 (fst (fst (snd (regress_monomial steps param)))) a k in
  let dt := INR steps * (1 / 10) in
  ((1 <= steps)%nat ->
   nth c (row bezier 0) 0 = 7 * (nth 1 p 0 - nth 0 p 0) / dt /\
   nth c (row monomial 0) 0 = nth 1 p 0 / dt) /\
  ((2 <= steps)%nat ->
   nth c (row bezier (steps - 1)) 0 = 7 * (nth 7 p 0 - nth 6 p 0) / dt).
Proof.
  intros Hp Ha Hk Hc. cbv zeta. split; intros HS; [split|].
  - exact (bezier_first_velocity Hp Ha Hk HS Hc).
  - exact (monomial_first_velocity Hp Ha Hk HS Hc).
  - exact (bezier_last_velocity Hp Ha Hk HS Hc).
Qed.

Lemma end_velocities_witness :
  let p := column 0 (entry4 example_param 0 0) in
  let bezier := entry4 (fst (fst (snd (regress_bezier 4 example_param)))) 0 0 in
  let monomial := entry4 (fst (fst (snd (regress_monomial 4 example_param)))) 0 0 in
  let dt := INR 4 * (1 / 10) in
  (nth 0 (row bezier 0) 0 = 7 * (nth 1 p 0 - nth 0 p 0) / dt /\
   nth 0 (row monomial 0) 0 = nth 1 p 0 / dt) /\
  nth 0 (row bezier (4 - 1)) 0 = 7 * (nth 7 p 0 - nth 6 p 0) / dt.
Proof.
  assert (Hp : has_shape4 1 1 8 5 example_param)
    by (split; [reflexivity | repeat constructor]).
  assert (H0 : (0 < 1)%nat) by lia.
  assert (H2 : (0 < 2)%nat) by lia.
  split.
  - apply (proj1 (@end_velocities 4 1 1 example_param 0 0 0 Hp H0 H0 H2)). lia.
  - apply (proj2 (@end_velocities 4 1 1 example_param 0 0 0 Hp H0 H0 H2)). lia.
Defined.

(** *** The probabilities follow the logits *)

Lemma exp_le_iff (x y : R) : x <= y <-> exp x <= exp y.
Proof.
  split; intros H.
  - destruct H as [H | ->]; [left; now apply exp_increasing | right; reflexivity].
  - destruct (Rle_or_lt x y) as [Hle | Hlt]; [assumption|].
    apply exp_increasing in Hlt. lra.
Qed.

(** X20: the probabilities of a scene follow its logits.  For [K >= 1]
    modes, any scene and any two modes [i], [j]: if the logit of [i] is
    at most that of [j], then the probability of [i] is at most that of
    [j]; so a mode of largest logit has the largest probability.  (The
    converse holds over the reals only: in single precision different
    logits can get the same probability.) *)
Theorem probabilities_follow_logits (K m : nat) (cls : matrix) (s i j : nat) :
  (1 <= K)%nat -> is_matrix K m cls -> (s < m)%nat -> (i < K)%nat -> (j < K)%nat ->
  nth s (row cls i) 0 <= nth s (row cls j) 0 ->
  nth i (row (probabilities cls) s) 0 <= nth j (row (probabilities cls) s) 0.
Proof.
  intros HK Hcls Hs Hi Hj.
  rewrite !(probabilities_entry HK Hcls Hs) by assumption.
  assert (Hne : map (fun x => x * 1) (column s cls) <> []).
  { intros E. apply (f_equal (@length R)) in E.
    rewrite length_map, column_length, (proj1 Hcls) in E. cbn in E. lia. }
  pose proof (sum_exp_pos Hne) as HD.
  set (D := sum (map exp (map (fun x => x * 1) (column s cls)))) in *.
  assert (HI : 0 < / D) by now apply Rinv_0_lt_compat.
  unfold Rdiv. intros H.
  apply Rmult_le_compat_r; [lra|].
  apply (proj1 (exp_le_iff _ _)). lra.
Qed.

Lemma probabilities_follow_logits_witness :
  nth 0 (row (probabilities [[0]; [1]]) 0) 0
  <= nth 1 (row (probabilities [[0]; [1]]) 0) 0.
Proof.
  apply (@probabilities_follow_logits 2 1 [[0]; [1]] 0 0 1); try lia.
  - split; [reflexivity | repeat constructor].
  - cbn. lra.
Defined.

End NumProperties.

(** ** A batch and its scenes run one at a time *)

Section BatchOfScenes.

Import Rows.

Context {Hist Lane E Rpe TRpe G Cls Reg Aux : Type}.
Variable net : @Learned Hist Lane E Rpe TRpe G Cls Reg Aux.

(** The fusion network returns one row per token. *)
Hypothesis fuse_length : forall t g, length (fuse_scene net t g) = length t.

Let scene_t : Type := @scene Hist Lane Rpe TRpe.

Lemma scenes_alone (scenes : list scene_t) :
  (forall s, In s scenes -> 2 <= length (s_lanes s)) ->
  mapM (fun s => ScenePredNet_forward net (batch_of [s])) scenes
  = Ok (map (fun s => ([fst (fst (scene_out net s))],
                       [snd (fst (scene_out net s))],
                       [snd (scene_out net s)])) scenes).
Proof.
  induction scenes as [|s rest IH]; intros Hall; [reflexivity|].
  cbn [mapM map].
  rewrite (ScenePredNet_forward_alone net fuse_length s) by (apply Hall; now left).
  cbn [bind]. rewrite IH by (intros; apply Hall; now right). reflexivity.
Qed.

(** X16: running a batch gives what running its scenes one at a time
    gives.  For a non-empty list of scenes with at least two lanes each,
    and learned modules of which the fusion network returns one row per
    token, [ScenePredNet.forward] on the batch assembled from the scenes
    returns, list by list, the concatenation in scene order of the results
    of [ScenePredNet.forward] on every scene alone. *)
Theorem batch_is_scenes_run_alone (scenes : list scene_t) :
  scenes <> [] -> (forall s, In s scenes -> 2 <= length (s_lanes s)) ->
  exists outs,
    mapM (fun s => ScenePredNet_forward net (batch_of [s])) scenes = Ok outs /\
    ScenePredNet_forward net (batch_of scenes)
    = Ok (concat (map (fun o => fst (fst o)) outs),
          concat (map (fun o => snd (fst o)) outs),
          concat (map snd outs)).
Proof.
  intros Hne Hall. eexists. split; [exact (scenes_alone scenes Hall)|].
  rewrite (ScenePredNet_forward_batch net fuse_length Hne Hall).
  rewrite !map_map. cbn [fst snd].
  now rewrite !concat_singletons.
Qed.

End BatchOfScenes.

Lemma batch_is_scenes_run_alone_witness :
  let net := {| Rows.cls_token := 0; Rows.actor_enc := fun h : nat => h;
                Rows.lane_enc := fun l : nat => l;
                Rows.proj_actor := fun e => e + 1; Rows.proj_lane := fun e => e + 2;
                Rows.edge_of := fun n (r : nat) => n + r;
                Rows.fuse_scene := fun t (g : nat) => map (fun e => e + g) t;
                Rows.proj_tgt := fun e (r : nat) => e + r;
                Rows.decode := fun c a t => (c, a, t) |} in
  let scenes := [ {| Rows.s_actors := [1]; Rows.s_lanes := [2; 3]; Rows.s_rpe := 0;
                     Rows.s_tgt := 4; Rows.s_tgt_rpe := 5 |};
                  {| Rows.s_actors := [6; 7]; Rows.s_lanes := [8; 9]; Rows.s_rpe := 1;
                     Rows.s_tgt := 10; Rows.s_tgt_rpe := 11 |} ] in
  exists outs,
    mapM (fun s => Rows.ScenePredNet_forward net (Rows.batch_of [s])) scenes = Ok outs /\
    Rows.ScenePredNet_forward net (Rows.batch_of scenes)
    = Ok (concat (map (fun o => fst (fst o)) outs),
          concat (map (fun o => snd (fst o)) outs),
          concat (map snd outs)).
Proof.
  intros net scenes.
  apply (@batch_is_scenes_run_alone _ _ _ _ _ _ _ _ _ net).
  - intros t g. apply length_map.
  - discriminate.
  - intros s [<- | [<- | []]]; cbn; lia.
Defined.

(** ** The lane encoder and the points of a segment *)

Module PointProperties.
Import Points.
Local Open Scope R_scope.

Lemma vmax_comm (u v : vec) : vmax u v = vmax v u.
Proof.
  unfold vmax. revert v. induction u as [|x u IH]; intros [|y v]; cbn; try reflexivity.
  now rewrite Rmax_comm, IH.
Qed.

Lemma vmax_assoc (u v w : vec) : vmax (vmax u v) w = vmax u (vmax v w).
Proof.
  unfold vmax. revert v w.
  induction u as [|x u IH]; intros [|y v] [|z w]; cbn; try reflexivity.
  now rewrite Rmax_assoc, IH.
Qed.

Lemma vmax_idem (u : vec) : vmax u u = u.
Proof.
  unfold vmax. induction u as [|x u IH]; cbn; [reflexivity|].
  rewrite IH. f_equal. apply Rmax_left. lra.
Qed.

Lemma vmax_swap (i x y : vec) : vmax (vmax i x) y = vmax (vmax i y) x.
Proof. now rewrite !vmax_assoc, (vmax_comm x y). Qed.

Lemma fold_vmax_perm (l l' : segment) :
  Permutation l l' -> forall i, fold_left vmax l i = fold_left vmax l' i.
Proof.
  induction 1 as [|x l l' _ IH|x y l|l l' l'' _ IH1 _ IH2]; intros i; cbn.
  - reflexivity.
  - apply IH.
  - now rewrite vmax_swap.
  - now rewrite IH1, IH2.
Qed.

Lemma fold_vmax_absorb (l : segment) (x : vec) :
  In x l -> forall i, fold_left vmax l i = fold_left vmax l (vmax i x).
Proof.
  induction l as [|a l IH]; intros Hin i; [inversion Hin|].
  cbn. destruct Hin as [-> | Hin].
  - now rewrite vmax_assoc, vmax_idem.
  - rewrite (IH Hin (vmax i a)). now rewrite vmax_swap.
Qed.

Lemma max_points_fold (p : vec) (r : segment) :
  max_points (p :: r) = fold_left vmax (p :: r) p.
Proof. cbn. now rewrite vmax_idem. Qed.

(** The maximum over the points does not depend on their order. *)
Lemma max_points_perm (l l' : segment) :
  Permutation l l' -> max_points l = max_points l'.
Proof.
  intros HP. destruct l as [|p r].
  - apply Permutation_nil in HP. now subst.
  - destruct l' as [|p' r'];
      [apply Permutation_sym, Permutation_nil in HP; discriminate|].
    rewrite !max_points_fold.
    rewrite (fold_vmax_perm HP p).
    assert (Hp : In p (p' :: r'))
      by (apply (Permutation_in _ HP); now left).
    rewrite (fold_vmax_absorb (p' :: r') p' (or_introl eq_refl) p).
    rewrite (fold_vmax_absorb (p' :: r') p Hp p').
    now rewrite vmax_comm.
Qed.

Lemma aggregate_perm (b : Block) (l l' : segment) :
  Permutation l l' -> Permutation (aggregate b l) (aggregate b l').
Proof.
  intros HP. unfold aggregate.
  rewrite (max_points_perm (Permutation_map (fc1 b) HP)).
  now apply Permutation_map.
Qed.

Lemma aggregate_length (b : Block) (l : segment) : length (aggregate b l) = length l.
Proof. unfold aggregate. apply length_map. Qed.

Lemma lane_row_perm (net : LaneNet) (l l' : segment) :
  Permutation l l' -> lane_row net l = lane_row net l'.
Proof.
  intros HP. unfold lane_row.
  apply max_points_perm, aggregate_perm, aggregate_perm.
  now apply Permutation_map.
Qed.

Lemma combine_repeat {A B : Type} (l : list A) (a : B) :
  combine l (List.repeat a (length l)) = map (fun p => (p, a)) l.
Proof. induction l as [|x l IH]; cbn; [reflexivity | now rewrite IH]. Qed.

Lemma combine_map_r {A B : Type} (g : A -> B) (l : list A) :
  combine l (map g l) = map (fun x => (x, g x)) l.
Proof. induction l as [|x l IH]; cbn; [reflexivity | now rewrite IH]. Qed.

(** A block on a rectangular tensor works segment by segment. *)
Lemma PointAggregateBlock_out_segments (b : Block) (P : nat) (x : list segment) :
  (1 <= P)%nat -> Forall (fun s => length s = P) x ->
  PointAggregateBlock_out b P x = Ok (map (aggregate b) x).
Proof.
  intros HP Hx. unfold PointAggregateBlock_out, _global_maxpool_aggre. cbv zeta.
  replace (P =? 0)%nat with false by (symmetry; apply Nat.eqb_neq; lia).
  cbn [negb assert bind]. f_equal.
  unfold on_points, add, cat_last, repeat_points.
  induction Hx as [|pts x Hpts _ IH]; [reflexivity|].
  cbn [map combine fst snd]. rewrite IH. f_equal.
  unfold aggregate. subst P.
  rewrite <- (length_map (fc1 b) pts) at 1.
  rewrite combine_repeat, !map_map. cbn [fst snd].
  now rewrite combine_map_r, map_map.
Qed.

Lemma aggregate_rect (b : Block) (P : nat) (x : list segment) :
  Forall (fun s => length s = P) x ->
  Forall (fun s => length s = P) (map (aggregate b) x).
Proof.
  intros Hx. apply Forall_map. eapply Forall_impl; [|exact Hx].
  intros s Hs. now rewrite aggregate_length.
Qed.

(** The encoder on a rectangular tensor: one row per segment, squeezed. *)
Lemma LaneNet_forward_segments (net : LaneNet) (hidden_size P : nat) (feats : list segment) :
  (1 <= P)%nat -> Forall (fun s => length s = P) feats ->
  LaneNet_forward net hidden_size P feats
  = Ok (squeeze hidden_size (map (lane_row net) feats)).
Proof.
  intros HP Hx. unfold LaneNet_forward, PointAggregateBlock_forward. cbv zeta.
  assert (H0 : Forall (fun s => length s = P) (on_points (proj net) feats)).
  { unfold on_points. apply Forall_map. eapply Forall_impl; [|exact Hx].
    intros s Hs. now rewrite length_map. }
  rewrite (PointAggregateBlock_out_segments (aggre1 net) HP H0). cbn [bind].
  rewrite (PointAggregateBlock_out_segments (aggre2 net) HP (aggregate_rect _ H0)).
  cbn [bind]. unfold _global_maxpool_aggre.
  replace (P =? 0)%nat with false by (symmetry; apply Nat.eqb_neq; lia).
  cbn [negb assert bind]. unfold on_points. now rewrite !map_map.
Qed.

Lemma LaneNet_forward_no_point (net : LaneNet) (hidden_size : nat) (feats : list segment) :
  LaneNet_forward net hidden_size 0 feats = Raise RuntimeError.
Proof. reflexivity. Qed.

(** X17: the lane encoder does not see the order of the points of a
    segment.  On a tensor of [L] segments of [P] points each, permuting
    the points inside any of the segments leaves the result of
    [LaneNet.forward] unchanged, whatever the learned layers are. *)
Theorem lane_encoder_ignores_point_order
  (net : LaneNet) (hidden_size P : nat) (feats feats' : list segment) :
  Forall (fun s => length s = P) feats ->
  Forall2 (@Permutation vec) feats feats' ->
  LaneNet_forward net hidden_size P feats = LaneNet_forward net hidden_size P feats'.
Proof.
  intros Hx HP.
  destruct P as [|P]; [now rewrite !LaneNet_forward_no_point|].
  assert (Hx' : Forall (fun s => length s = S P) feats').
  { clear -Hx HP. induction HP as [|s s' l l' Hs _ IH]; [constructor|].
    inversion Hx as [|? ? Hl Hr]; subst. constructor; [|now apply IH].
    now rewrite <- (Permutation_length Hs). }
  rewrite !LaneNet_forward_segments by (assumption || lia).
  do 2 f_equal. clear -HP.
  induction HP as [|s s' l l' Hs _ IH]; [reflexivity|].
  cbn [map]. now rewrite (lane_row_perm net Hs), IH.
Qed.

Lemma lane_encoder_ignores_point_order_witness :
  LaneNet_forward example_net 2 2 example_lanes
  = LaneNet_forward example_net 2 2
      [ [[4; 0; 1]; [1; 2; 3]]; [[2; 2; 2]; [0; 1; 5]] ].
Proof.
  apply (@lane_encoder_ignores_point_order example_net 2 2 example_lanes).
  - repeat constructor.
  - repeat (constructor; [apply perm_swap|]). constructor.
Defined.

(** X18: the lane encoder treats every segment by itself.  For [L >= 2]
    segments of [P >= 1] points and [hidden_size <> 1], [LaneNet.forward]
    returns a matrix with one row per segment, and the row of a segment
    is the 1-D tensor that [LaneNet.forward] returns for that segment
    alone. *)
Theorem lane_rows_are_independent
  (net : LaneNet) (hidden_size P : nat) (feats : list segment) :
  (1 <= P)%nat -> hidden_size <> 1%nat -> (2 <= length feats)%nat ->
  Forall (fun s => length s = P) feats ->
  exists rows,
    LaneNet_forward net hidden_size P feats = Ok (T2 rows) /\
    Forall2 (fun seg r => LaneNet_forward net hidden_size P [seg] = Ok (T1 r)) feats rows.
Proof.
  intros HP HH HL Hx. exists (map (lane_row net) feats). split.
  - rewrite (LaneNet_forward_segments net hidden_size HP Hx).
    f_equal. unfold squeeze.
    destruct feats as [|a [|b r]]; cbn [map length] in *; try lia;
      destruct hidden_size as [|[|h]]; try lia; reflexivity.
  - clear HL. induction Hx as [|seg l Hs _ IH]; [constructor|].
    cbn [map]. constructor; [|exact IH]. cbv beta.
    assert (H1 : Forall (fun s : segment => length s = P) [seg]) by now constructor.
    etransitivity; [exact (LaneNet_forward_segments net hidden_size HP H1)|].
    f_equal. unfold squeeze. cbn [map].
    destruct hidden_size as [|[|h]]; try lia; reflexivity.
Qed.

Lemma lane_rows_are_independent_witness :
  exists rows,
    LaneNet_forward example_net 2 2 example_lanes = Ok (T2 rows) /\
    Forall2 (fun seg r => LaneNet_forward example_net 2 2 [seg] = Ok (T1 r))
            example_lanes rows.
Proof.
  apply (@lane_rows_are_independent example_net 2 2 example_lanes).
  - lia.
  - discriminate.
  - cbn. lia.
  - repeat constructor.
Defined.

End PointProperties.
